(** * NextGEN Gallery image scraper ([ngg_scraper.py]): model and properties

    The development embeds [scrape_ngg_images] and [is_image_url].  Pure
    string code is embedded as functions on [string]; a [str] is held as
    the bytes of its UTF-8 encoding.  The crawl itself is embedded in a
    small state-and-exception monad over the file system, the running
    total and the log of externally visible actions (prints, HTTP
    requests, sleeps).  Library calls whose code is not part of the
    repository ([requests], [urllib.parse], the set iteration order, the
    standard output's refusal of a line, the operating system's refusal to
    create a path or to sleep) are fields of an environment record [Env],
    over which every general statement quantifies. *)

From Stdlib Require Import String Ascii List Bool Arith ZArith QArith Lia Permutation
  DecimalString.
Import ListNotations.
Set Warnings "-register-all".
Close Scope Q_scope.
Open Scope nat_scope.
Open Scope string_scope.
Open Scope list_scope.

(** ** Python string primitives *)

Module PyStr.

(** [s.startswith(p)] *)
Definition startswith (p s : string) : bool := String.prefix p s.

(** [needle in hay] for strings. *)
Fixpoint contains (needle hay : string) : bool :=
  String.prefix needle hay
  || match hay with
     | EmptyString => false
     | String _ t => contains needle t
     end.

(** [s.replace(old, new)] for a non-empty [old]: occurrences are taken
    left to right and do not overlap.  [skip] counts the characters of
    the occurrence just replaced that are still to be dropped. *)
Fixpoint replace_from (old new : string) (skip : nat) (s : string) : string :=
  match s with
  | EmptyString => EmptyString
  | String c t =>
      match skip with
      | S k => replace_from old new k t
      | O =>
          if String.prefix old s
          then new ++ replace_from old new (Nat.pred (String.length old)) t
          else String c (replace_from old new 0 t)
      end
  end.

Definition replace (old new s : string) : string := replace_from old new 0 s.

(** The suffix of [s] after its last ["/"]; [cur] is the suffix after the
    last slash seen so far. *)
Fixpoint after_last_slash (cur s : string) : string :=
  match s with
  | EmptyString => cur
  | String c t =>
      if Ascii.eqb c "/" then after_last_slash t t else after_last_slash cur t
  end.

(** [os.path.basename(p)]: [p[p.rfind('/')+1:]]. *)
Definition basename (p : string) : string := after_last_slash p p.

(** [s.rstrip("/")] *)
Fixpoint rstrip_slash (s : string) : string :=
  match s with
  | EmptyString => EmptyString
  | String c t =>
      match rstrip_slash t with
      | EmptyString =>
          if Ascii.eqb c "/" then EmptyString else String c EmptyString
      | t' => String c t'
      end
  end.

(** [p[:p.rfind("/") + 1]]: [p] up to and including its last slash. *)
Fixpoint upto_last_slash (p : string) : string :=
  match p with
  | EmptyString => EmptyString
  | String c t =>
      match upto_last_slash t with
      | EmptyString =>
          if Ascii.eqb c "/" then String c EmptyString else EmptyString
      | h => String c h
      end
  end.

(** [os.path.split(p)] (posixpath): the head loses its trailing slashes
    unless it consists of slashes only. *)
Definition path_split (p : string) : string * string :=
  let head := upto_last_slash p in
  (if rstrip_slash head =? "" then head else rstrip_slash head, basename p).

(** [s.endswith("/")] *)
Fixpoint ends_with_slash (s : string) : bool :=
  match s with
  | EmptyString => false
  | String c EmptyString => Ascii.eqb c "/"
  | String _ t => ends_with_slash t
  end.

(** [os.path.join(a, b)] (posixpath, two arguments). *)
Definition path_join (a b : string) : string :=
  if startswith "/" b then b
  else if (a =? "") || ends_with_slash a then a ++ b
  else a ++ "/" ++ b.

(** ASCII case folding, as [re.IGNORECASE] does on the letters of the
    pattern. *)
Definition lower (c : ascii) : ascii :=
  let n := nat_of_ascii c in
  if Nat.leb 65 n && Nat.leb n 90 then ascii_of_nat (n + 32) else c.

Definition newline : string := String (ascii_of_nat 10) EmptyString.

End PyStr.
Import PyStr.

(** ** [is_image_url]

    [re.search(r"\.(jpg|jpeg|png|gif|webp)$", url, re.IGNORECASE)], read as
    the matcher the pattern denotes: a literal dot, one of five literal
    alternatives, then [$].  Without [re.MULTILINE], [$] matches at the end
    of the string and also just before a newline that ends the string.
    On a [str] pattern [re.IGNORECASE] follows Unicode: beside the two
    cases of an ASCII letter, the letter [i] is matched by U+0130 (capital
    I with dot) and by U+0131 (dotless i), and no other letter of the
    pattern has a match outside ASCII. *)

(** The two bytes [c d] are the UTF-8 form of U+0130 ([C4 B0]) or of
    U+0131 ([C4 B1]). *)
Definition other_i (c d : ascii) : bool :=
  Ascii.eqb c (ascii_of_nat 196)
  && (Ascii.eqb d (ascii_of_nat 176) || Ascii.eqb d (ascii_of_nat 177)).

(** Match the literal [lit] at the head of [s], ignoring case; the result
    is the rest of [s]. *)
Fixpoint match_lit (lit s : string) : option string :=
  match lit with
  | EmptyString => Some s
  | String a lit' =>
      match s with
      | EmptyString => None
      | String c s' =>
          if Ascii.eqb (lower a) (lower c) then match_lit lit' s'
          else if Ascii.eqb (lower a) "i"
          then match s' with
               | String d s'' =>
                   if other_i c d then match_lit lit' s'' else None
               | EmptyString => None
               end
          else None
      end
  end.

Definition image_exts : list string := ["jpg"; "jpeg"; "png"; "gif"; "webp"].

(** [$] at the remaining input [s]. *)
Definition at_dollar (s : string) : bool := (s =? "") || (s =? newline).

(** The whole pattern anchored at the head of [s]. *)
Definition match_here (s : string) : bool :=
  match match_lit "." s with
  | None => false
  | Some r =>
      existsb (fun ext => match match_lit ext r with
                          | Some r' => at_dollar r'
                          | None => false
                          end) image_exts
  end.

(** [re.search]: try every start position, left to right. *)
Fixpoint re_search (s : string) : bool :=
  match_here s
  || match s with
     | EmptyString => false
     | String _ t => re_search t
     end.

(** The truth value of the match object (or [None]) returned. *)
Definition is_image_url (url : string) : bool := re_search url.

(** ** The parsed page

    [BeautifulSoup(r.content, "html.parser")] is a tree of tags and text.
    The [class] attribute is multi-valued in BeautifulSoup and is kept as a
    list; every other attribute is a string looked up by name. *)

Inductive node : Type :=
| Text (s : string)
| Tag (name : string) (classes : list string)
      (attrs : list (string * string)) (children : list node).

Definition soup := list node.

Fixpoint assoc {V : Type} (k : string) (kvs : list (string * V)) : option V :=
  match kvs with
  | [] => None
  | (k', v) :: rest => if k' =? k then Some v else assoc k rest
  end.

Definition has_str (x : string) (l : list string) : bool :=
  existsb (String.eqb x) l.

(** [tag.get(name)] *)
Definition tag_get (n : node) (name : string) : option string :=
  match n with
  | Text _ => None
  | Tag _ _ attrs _ => assoc name attrs
  end.

(** [soup.select(".ngg-gallery-thumbnail a, .ngg-fancybox")]: in document
    order, every [a] tag with an ancestor of class [ngg-gallery-thumbnail]
    and every tag of class [ngg-fancybox].  [inside] records whether an
    ancestor carries the container class. *)
Fixpoint select_thumbs (inside : bool) (n : node) : list node :=
  match n with
  | Text _ => []
  | Tag name classes _ children =>
      let here :=
        if ((name =? "a") && inside) || has_str "ngg-fancybox" classes
        then [n] else [] in
      let inside' := inside || has_str "ngg-gallery-thumbnail" classes in
      here ++ (fix go (l : list node) : list node :=
                 match l with
                 | [] => []
                 | c :: l' => select_thumbs inside' c ++ go l'
                 end) children
  end.

Definition select (s : soup) : list node :=
  flat_map (select_thumbs false) s.

(** [soup.find_all(["a", "img"])]: every such tag, in document order. *)
Fixpoint find_all_in (n : node) : list node :=
  match n with
  | Text _ => []
  | Tag name _ _ children =>
      (if (name =? "a") || (name =? "img") then [n] else [])
      ++ (fix go (l : list node) : list node :=
            match l with
            | [] => []
            | c :: l' => find_all_in c ++ go l'
            end) children
  end.

Definition find_all (s : soup) : list node := flat_map find_all_in s.

(** ** The candidate set [images_to_download] *)

(** A Python [set] of strings, kept as a duplicate-free list; the order in
    which Python iterates it is a field of the environment below. *)
Definition pyset := list string.

Definition set_add (x : string) (s : pyset) : pyset :=
  if has_str x s then s else s ++ [x].

(** Truth value of a string or [None]. *)
Definition truthy_str (o : option string) : bool :=
  match o with
  | Some s => negb (s =? "")
  | None => false
  end.

(** [tag.get("href") or tag.get("src")] *)
Definition href_or_src (tag : node) : option string :=
  if truthy_str (tag_get tag "href") then tag_get tag "href"
  else tag_get tag "src".

(** The guess at the full-size URL (lines 73-75). *)
Definition full_size (url : string) : string :=
  replace "/thumbs/" "/" (replace "/thumbs/thumbs_" "/" url).

(** What one tag selected by strategy 1 adds to the set, if anything
    (lines 58-60). *)
Definition widget_candidate (thumb : node) : option string :=
  match tag_get thumb "href" with
  | Some href =>
      if negb (href =? "") && is_image_url href then Some href else None
  | None => None
  end.

(** What one tag visited by strategy 2 adds to the set, if anything
    (lines 64-78). *)
Definition path_candidate (tag : node) : option string :=
  match href_or_src tag with
  | Some url =>
      if negb (url =? "") && contains "/wp-content/gallery/" url
      then Some (if contains "/thumbs/" url then full_size url else url)
      else None
  | None => None
  end.

(** One [for] loop adding to [images_to_download]. *)
Definition add_candidates (pick : node -> option string) (tags : list node)
    (acc : pyset) : pyset :=
  fold_left
    (fun acc tag => match pick tag with
                    | Some c => set_add c acc
                    | None => acc
                    end)
    tags acc.

(** Strategy 1 (lines 57-60). *)
Definition strategy1 (s : soup) (acc : pyset) : pyset :=
  add_candidates widget_candidate (select s) acc.

(** Strategy 2 (lines 63-78). *)
Definition strategy2 (s : soup) (acc : pyset) : pyset :=
  add_candidates path_candidate (find_all s) acc.

(** The set built for one page (lines 53-78). *)
Definition locate (s : soup) : pyset := strategy2 s (strategy1 s []).


(** ** Loaded JSON, exceptions, responses *)

(** A value produced by [json.load]; [null] is Python's [None].  Numbers
    are kept as integers, and the fields of an object are those of the
    loaded dict, one per key. *)
Inductive json : Type :=
| JNull
| JBool (b : bool)
| JNum (z : Z)
| JStr (s : string)
| JArr (items : list json)
| JObj (fields : list (string * json)).

(** Python truth value. *)
Definition truthy (v : json) : bool :=
  match v with
  | JNull => false
  | JBool b => b
  | JNum z => negb (Z.eqb z 0)
  | JStr s => negb (s =? "")
  | JArr l => match l with [] => false | _ => true end
  | JObj l => match l with [] => false | _ => true end
  end.

(** Either a value or a raised exception (its message). *)
Inductive exc (A : Type) : Type :=
| Ret (a : A)
| Raise (e : string).
Arguments Ret {A} a.
Arguments Raise {A} e.

(** [d.get(key, default)]: only a dict has the method. *)
Definition dict_get (d : json) (key : string) (default : json) : exc json :=
  match d with
  | JObj fields =>
      Ret (match assoc key fields with Some v => v | None => default end)
  | _ => Raise "AttributeError"
  end.

(** What [iter_content] yields: chunks, until the body ends or the
    connection fails. *)
Inductive stream : Type :=
| SEnd
| SChunk (chunk : string) (rest : stream)
| SFail (e : string).

Record response : Type := mkResponse {
  status_code : Z;
  content : soup;      (* the page, as the parser reads [r.content] *)
  body : stream        (* [iter_content(chunk_size=8192)] *)
}.

(** The lines the program prints, by format string. *)
Inductive message : Type :=
| MFound (n : nat)                          (* line 19 *)
| MScanning (i n : nat) (title : json)      (* line 39 *)
| MFailedFetch (link : json) (status : Z)   (* line 44 *)
| MPotential (n : nat)                      (* line 86 *)
| MErrorDownloading (img_url e : string)    (* line 113 *)
| MErrorProcessing (e : string)             (* line 118 *)
| MDone (n : nat).                          (* line 120 *)

(** A Python [float], or an [int] as a [Finite] one: the [delay]. *)
Inductive pyfloat : Type :=
| Finite (q : Q)
| Infinite (negative : bool)
| NaN.

(** ** Environment

    Everything the crawl consults but does not own, as one process finds
    it.  The remote site, the operating system and the standard output
    answer the same way throughout.  The order in which a set is visited
    belongs to the process, since [str] hashing is seeded anew for each:
    [with_order] below gives the environment of another process. *)
Record Env : Type := mkEnv {
  (** [session.get(url, timeout=10)]: a response, or a raised
      [requests] exception. *)
  http : json -> exc response;
  (** [urljoin(link, img_url)] *)
  urljoin : json -> string -> exc string;
  (** [urlparse(img_url).path] *)
  urlparse_path : string -> exc string;
  (** [str(v)] *)
  py_str : json -> string;
  (** The order in which [for img_url in images_to_download] visits the
      set, in this process. *)
  set_iter : pyset -> list string;
  (** The [OSError] with which the operating system refuses to create a
      new entry (file or directory) at a path, if it does: a matter of
      the path and of what the run does not touch (permissions, a name
      the system does not take, a device that is full). *)
  os_refuses : string -> option string;
  (** The [OSError] raised by the [n]-th [f.write] to a path, if any. *)
  write_fails : string -> nat -> option string;
  (** The exception [print] raises when the standard output does not take
      a line ([UnicodeEncodeError] for text that its encoding cannot
      hold), if it does. *)
  print_error : message -> option string;
  (** The [OSError] with which the system's sleep call refuses a length
      that [time.sleep] has accepted, one its clock cannot reach, if it
      does. *)
  sleep_refused : Q -> option string
}.

(** The environment of a process that visits sets in another order. *)
Definition with_order (E : Env) (order : pyset -> list string) : Env :=
  mkEnv (http E) (urljoin E) (urlparse_path E) (py_str E) order
        (os_refuses E) (write_fails E) (print_error E) (sleep_refused E).

(** ** File system, log and state *)

Inductive entry : Type :=
| Dir
| File (data : string).

(** Paths are the strings handed to the operating system, and each
    string is read as the name of one entry.  That is how the operating
    system reads paths made of plain names ([plain_name], [plain_path]
    below): a path with an empty, [.] or [..] part names an entry that
    has a plain path as well, and the statement that compares what two
    runs find on disk is made for an output folder and slugs of plain
    names. *)
Definition fs := string -> option entry.

Definition fs_empty : fs := fun _ => None.

Definition fs_set (d : fs) (p : string) (e : entry) : fs :=
  fun q => if q =? p then Some e else d q.

Definition fs_exists (d : fs) (p : string) : bool :=
  match d p with Some _ => true | None => false end.

Inductive event : Type :=
| Print (m : message)
| Get (url : json)
| Sleep (d : pyfloat).

Record state : Type := mkState {
  disk : fs;
  total_downloaded : nat;
  log : list event       (* oldest first *)
}.

Definition with_disk (st : state) (d : fs) : state :=
  mkState d (total_downloaded st) (log st).

Definition with_total (st : state) (n : nat) : state :=
  mkState (disk st) n (log st).

Definition emit (st : state) (e : event) : state :=
  mkState (disk st) (total_downloaded st) (log st ++ [e]).

(** ** The monad of the crawl: state, and exceptions that keep the state *)

Definition M (A : Type) : Type := state -> exc A * state.

Definition ret {A} (a : A) : M A := fun st => (Ret a, st).

Definition raise {A} (e : string) : M A := fun st => (Raise e, st).

Definition bind {A B} (m : M A) (k : A -> M B) : M B :=
  fun st =>
    match m st with
    | (Ret a, st') => k a st'
    | (Raise e, st') => (Raise e, st')
    end.

(** [try: m except Exception as e: h(e)] *)
Definition try_except {A} (m : M A) (h : string -> M A) : M A :=
  fun st =>
    match m st with
    | (Ret a, st') => (Ret a, st')
    | (Raise e, st') => h e st'
    end.

Definition lift {A} (r : exc A) : M A := fun st => (r, st).

Declare Scope crawl_scope.
Delimit Scope crawl_scope with crawl.
Notation "x <- m ;; k" := (bind m (fun x => k))
  (at level 100, m at next level, right associativity) : crawl_scope.
Notation "m ;;; k" := (bind m (fun _ => k))
  (at level 100, right associativity) : crawl_scope.
Open Scope crawl_scope.

(** [for x in l: f(x)] *)
Fixpoint for_each {A} (f : A -> M unit) (l : list A) : M unit :=
  match l with
  | [] => ret tt
  | x :: l' => f x ;;; for_each f l'
  end.

(** The exception [time.sleep(d)] raises before it sleeps.  The length is
    turned into a signed 64-bit count of nanoseconds: a NaN is a
    [ValueError], and a length whose nanoseconds, as the nearest double,
    reach [2^63] or fall below [-2^63] is an [OverflowError].  A negative
    count is then a [ValueError]. *)
Definition sleep_check (d : pyfloat) : option string :=
  match d with
  | NaN => Some "ValueError"
  | Infinite _ => Some "OverflowError"
  | Finite q =>
      let ns := (q * (1000000000 # 1))%Q in
      if Qle_bool (9223372036854775296 # 1) ns
         || negb (Qle_bool (- (9223372036854776832 # 1)) ns)
      then Some "OverflowError"
      else if Qle_bool 0 q then None
      else Some "ValueError"
  end.

(** [os.path.exists(p)] *)
Definition os_path_exists (p : string) : M bool :=
  fun st => (Ret (fs_exists (disk st) p), st).

Section Crawl.

Variable E : Env.

(** [print(...)] of one of the lines of the program. *)
Definition print (m : message) : M unit :=
  fun st =>
    match print_error E m with
    | Some e => (Raise e, st)
    | None => (Ret tt, emit st (Print m))
    end.

(** The exception [time.sleep(d)] raises, if any: CPython's own, or the
    system's. *)
Definition sleep_error (d : pyfloat) : option string :=
  match sleep_check d with
  | Some e => Some e
  | None =>
      match d with
      | Finite q => sleep_refused E q
      | _ => None
      end
  end.

(** [time.sleep(d)] *)
Definition time_sleep (d : pyfloat) : M unit :=
  fun st =>
    match sleep_error d with
    | Some e => (Raise e, st)
    | None => (Ret tt, emit st (Sleep d))
    end.

(** [session.get(url, ...)]: the request is made, then answered. *)
Definition session_get (url : json) : M response :=
  fun st => (http E url, emit st (Get url)).

(** [os.mkdir(p)] *)
Definition os_mkdir (p : string) : M unit :=
  fun st =>
    match disk st p with
    | Some _ => (Raise "FileExistsError", st)
    | None =>
        match os_refuses E p with
        | Some e => (Raise e, st)
        | None => (Ret tt, with_disk st (fs_set (disk st) p Dir))
        end
    end.

(** [os.makedirs(name)], as the standard library has it: when the head
    of the path is missing it is made first, by a recursive call whose
    [FileExistsError] is passed over, and then the leaf is made.  [fuel]
    bounds the depth of the recursion; each head is shorter than its path,
    so the length of the path is enough. *)
Fixpoint makedirs (fuel : nat) (name : string) : M unit :=
  let (head0, tail0) := path_split name in
  let (head, tail) :=
    if tail0 =? "" then path_split head0 else (head0, tail0) in
  if negb (head =? "") && negb (tail =? "")
  then
    ex <- os_path_exists head ;;
    if ex then os_mkdir name
    else
      match fuel with
      | O => raise "RecursionError"
      | S k =>
          try_except (makedirs k head)
            (fun e => if e =? "FileExistsError" then ret tt else raise e) ;;;
          if tail =? "." then ret tt else os_mkdir name
      end
  else os_mkdir name.

Definition os_makedirs (name : string) : M unit :=
  makedirs (String.length name) name.

(** [open(p, "wb")]: the file is created, or emptied. *)
Definition open_wb (p : string) : M unit :=
  fun st =>
    match disk st p with
    | Some Dir => (Raise "IsADirectoryError", st)
    | Some (File _) => (Ret tt, with_disk st (fs_set (disk st) p (File "")))
    | None =>
        match os_refuses E p with
        | Some e => (Raise e, st)
        | None => (Ret tt, with_disk st (fs_set (disk st) p (File "")))
        end
    end.

(** The [n]-th [f.write(chunk)] on the file opened at [p]. *)
Definition f_write (p : string) (n : nat) (chunk : string) : M unit :=
  fun st =>
    match write_fails E p n with
    | Some e => (Raise e, st)
    | None =>
        match disk st p with
        | Some (File data) =>
            (Ret tt, with_disk st (fs_set (disk st) p (File (data ++ chunk))))
        | _ => (Ret tt, st)
        end
    end.

(** [for chunk in img_r.iter_content(...): f.write(chunk)] (lines
    109-110); [n] counts the writes made so far. *)
Fixpoint write_chunks (p : string) (n : nat) (b : stream) : M unit :=
  match b with
  | SEnd => ret tt
  | SChunk chunk rest => f_write p n chunk ;;; write_chunks p (S n) rest
  | SFail e => raise e
  end.

(** Lines 92-95. *)
Definition resolve (link : json) (img_url : string) : exc string :=
  if startswith "//" img_url then Ret ("https:" ++ img_url)%string
  else if startswith "/" img_url then urljoin E link img_url
  else Ret img_url.

(** Lines 104-113: the guarded fetch and save of one image. *)
Definition fetch_and_save (img_url filepath : string) : M unit :=
  try_except
    (img_r <- session_get (JStr img_url) ;;
     if Z.eqb (status_code img_r) 200
     then
       open_wb filepath ;;;
       write_chunks filepath 0 (body img_r) ;;;
       (fun st => (Ret tt, with_total st (total_downloaded st + 1)))
     else ret tt)
    (fun e => print (MErrorDownloading img_url e)).

(** Lines 92-113: the body of the loop over [images_to_download]. *)
Definition download_image (link : json) (post_media_dir img_url0 : string)
  : M unit :=
  img_url <- lift (resolve link img_url0) ;;
  path <- lift (urlparse_path E img_url) ;;
  let filename := basename path in
  let filepath := path_join post_media_dir filename in
  ex <- os_path_exists filepath ;;
  if ex then ret tt                                   (* continue *)
  else fetch_and_save img_url filepath.

(** Lines 85-113. *)
Definition download_all (output_folder : string) (link slug : json)
    (images_to_download : pyset) : M unit :=
  match images_to_download with
  | [] => ret tt
  | _ =>
      print (MPotential (List.length images_to_download)) ;;;
      post_media_dir <-
        match slug with
        | JStr s => ret (path_join output_folder s)
        | _ => raise "TypeError"
        end ;;
      ex <- os_path_exists post_media_dir ;;
      (if ex then ret tt else os_makedirs post_media_dir) ;;;
      for_each (download_image link post_media_dir)
               (set_iter E images_to_download)
  end.

(** Lines 42-115: the body of the per-post [try]. *)
Definition scan_post (output_folder : string) (delay : pyfloat)
    (link slug : json) : M unit :=
  r <- session_get link ;;
  if negb (Z.eqb (status_code r) 200)
  then print (MFailedFetch link (status_code r))      (* continue *)
  else
    download_all output_folder link slug (locate (content r)) ;;;
    time_sleep delay.

(** Lines 32-34: [link], [title] and [slug] of a post. *)
Definition post_fields (post : json) : exc (json * json * json) :=
  match dict_get post "link" JNull with
  | Raise e => Raise e
  | Ret link =>
      match dict_get post "title" (JObj []) with
      | Raise e => Raise e
      | Ret title_field =>
          match dict_get title_field "rendered" (JStr "untitled") with
          | Raise e => Raise e
          | Ret title =>
              match dict_get post "id" JNull with
              | Raise e => Raise e
              | Ret id =>
                  match dict_get post "slug" (JStr (py_str E id)) with
                  | Raise e => Raise e
                  | Ret slug => Ret (link, title, slug)
                  end
              end
          end
      end
  end.

(** Lines 32-118: one iteration of the loop over [posts]; [i] is the
    index given by [enumerate] and [n] is [len(posts)]. *)
Definition process_post (output_folder : string) (delay : pyfloat)
    (n i : nat) (post : json) : M unit :=
  fields <- lift (post_fields post) ;;
  let '(link, title, slug) := fields in
  if negb (truthy link) then ret tt                   (* continue *)
  else
    print (MScanning (i + 1) n title) ;;;
    try_except
      (scan_post output_folder delay link slug)
      (fun e => print (MErrorProcessing e)).

(** Lines 31-118. *)
Fixpoint scan_posts (output_folder : string) (delay : pyfloat)
    (n i : nat) (posts : list json) : M unit :=
  match posts with
  | [] => ret tt
  | post :: rest =>
      process_post output_folder delay n i post ;;;
      scan_posts output_folder delay n (S i) rest
  end.

(** Lines 16-120, on the loaded list [posts]. *)
Definition scrape_ngg_images (posts : list json) (output_folder : string)
    (delay : pyfloat) : M unit :=
  ex <- os_path_exists output_folder ;;
  (if ex then ret tt else os_makedirs output_folder) ;;;
  print (MFound (List.length posts)) ;;;
  (fun st => (Ret tt, with_total st 0)) ;;;
  scan_posts output_folder delay (List.length posts) 0 posts ;;;
  (fun st => print (MDone (total_downloaded st)) st).

End Crawl.

(** The default of the [delay] parameter and of [--delay]. *)
Definition default_delay : pyfloat := Finite (1 # 2).

(** A run from a given file system: nothing counted, nothing logged. *)
Definition start (d : fs) : state := mkState d 0 [].

(** ** A small concrete world, used to run the model on examples *)

Module Demo.

(** [scheme://host] of an absolute URL: everything before the third
    slash. *)
Fixpoint origin_upto (slashes : nat) (s : string) : string :=
  match s with
  | EmptyString => EmptyString
  | String c t =>
      if Ascii.eqb c "/"
      then match slashes with
           | O => EmptyString
           | S k => String c (origin_upto k t)
           end
      else String c (origin_upto slashes t)
  end.

Definition origin (s : string) : string := origin_upto 2 s.

Fixpoint drop (n : nat) (s : string) : string :=
  match n, s with
  | S k, String _ t => drop k t
  | _, _ => s
  end.

(** Cut at the first [?] or [#]. *)
Fixpoint cut_query (s : string) : string :=
  match s with
  | EmptyString => EmptyString
  | String c t =>
      if Ascii.eqb c "?" || Ascii.eqb c "#" then EmptyString
      else String c (cut_query t)
  end.

(** [urlparse(u).path] on URLs of the shape [scheme://host/path?query]. *)
Definition path_of (u : string) : string :=
  cut_query (drop (String.length (origin u)) u).

(** [urljoin(base, u)] for an absolute base and a [u] starting with a
    single slash. *)
Definition join_origin (base : json) (u : string) : exc string :=
  match base with
  | JStr b => Ret (origin b ++ u)%string
  | _ => Raise "TypeError"
  end.

Definition str_of (v : json) : string :=
  match v with
  | JStr s => s
  | JNull => "None"
  | JBool true => "True"
  | JBool false => "False"
  | JNum z => NilZero.string_of_int (Z.to_int z)
  | _ => "[]"
  end.

Definition gallery_page : soup :=
  [ Tag "div" ["ngg-gallery-thumbnail"] []
      [ Tag "a" [] [("href", "http://site.example/img/one.jpg")]
          [ Tag "img" [] [("src", "http://site.example/img/t_one.jpg")] [] ] ];
    Tag "img" []
      [("src", "/wp-content/gallery/album/thumbs/thumbs_two.jpg")] [] ].

Definition ok (page : soup) (b : stream) : exc response :=
  Ret (mkResponse 200 page b).

(** The remote site. *)
Definition site (url : json) : exc response :=
  match url with
  | JStr u =>
      if u =? "http://site.example/gallery" then ok gallery_page SEnd
      else if u =? "http://site.example/img/one.jpg"
           then ok [] (SChunk "ONE" SEnd)
      else if u =? "http://site.example/wp-content/gallery/album/two.jpg"
           then ok [] (SChunk "TW" (SChunk "O" SEnd))
      else if u =? "http://site.example/img/cut.jpg"
           then ok [] (SChunk "CU" (SFail "ConnectionError"))
      else if u =? "http://site.example/down"
           then Raise "ConnectTimeout"
      else Ret (mkResponse 404 [] SEnd)
  | _ => Raise "MissingSchema"
  end.

Definition env : Env :=
  mkEnv site join_origin (fun u => Ret (path_of u)) str_of
        (fun s => s) (fun _ => None) (fun _ _ => None)
        (fun _ => None) (fun _ => None).

Definition post (link slug : string) : json :=
  JObj [("id", JNum 7); ("link", JStr link); ("slug", JStr slug);
        ("title", JObj [("rendered", JStr "A post")])].

End Demo.

(** ** Definitions used to state the properties *)

(** Letter case folded over a whole string. *)
Fixpoint lower_str (s : string) : string :=
  match s with
  | EmptyString => EmptyString
  | String c t => String (lower c) (lower_str t)
  end.

(** Letter case folded as [re.IGNORECASE] folds it for this pattern: the
    ASCII letters to lower case, U+0130 and U+0131 to [i]. *)
Fixpoint fold_case (s : string) : string :=
  match s with
  | EmptyString => EmptyString
  | String c t =>
      match t with
      | String d t' =>
          if other_i c d then String "i" (fold_case t')
          else String (lower c) (fold_case t)
      | EmptyString => String (lower c) EmptyString
      end
  end.

(** A literal of the pattern: ASCII, in lower case where it is a letter. *)
Definition pattern_lit (lit : string) : Prop :=
  forall a, In a (list_ascii_of_string lit) ->
            lower a = a /\ a <> ascii_of_nat 196.

(** The pattern with [$] read as "the very end of the string": the image
    extension is the final characters of the whole URL. *)
Fixpoint ext_at_very_end (s : string) : bool :=
  match match_lit "." s with
  | Some r =>
      existsb (fun ext => match match_lit ext r with
                          | Some EmptyString => true
                          | _ => false
                          end) image_exts
  | None => false
  end
  || match s with
     | EmptyString => false
     | String _ t => ext_at_very_end t
     end.

(** An anchor in a lightbox whose target ends in a line break. *)
Definition newline_anchor : node :=
  Tag "a" ["ngg-fancybox"] [("href", ("photo.jpg" ++ newline)%string)] [].

(** The exception that ends the writing of a body to [p], if any: the
    first failing [f.write] or the failure of the stream. *)
Fixpoint stream_error (E : Env) (p : string) (n : nat) (b : stream)
  : option string :=
  match b with
  | SEnd => None
  | SChunk _ rest =>
      match write_fails E p n with
      | Some e => Some e
      | None => stream_error E p (S n) rest
      end
  | SFail e => Some e
  end.

(** The bytes that reach the file before the writing ends. *)
Fixpoint written (E : Env) (p : string) (n : nat) (b : stream) : string :=
  match b with
  | SEnd => EmptyString
  | SChunk chunk rest =>
      match write_fails E p n with
      | Some _ => EmptyString
      | None => chunk ++ written E p (S n) rest
      end
  | SFail _ => EmptyString
  end.

(** Resolved URL and destination path of a candidate (lines 92-98), or
    the exception raised on the way. *)
Definition target (E : Env) (link : json) (post_media_dir img_url0 : string)
  : exc (string * string) :=
  match resolve E link img_url0 with
  | Raise e => Raise e
  | Ret img_url =>
      match urlparse_path E img_url with
      | Raise e => Raise e
      | Ret path => Ret (img_url, path_join post_media_dir (basename path))
      end
  end.

(** Every path of [d] is still there in [d']. *)
Definition grows (d d' : fs) : Prop :=
  forall p, fs_exists d p = true -> fs_exists d' p = true.

(** Every path of [d] is still there in [d'], with the same content. *)
Definition keeps (d d' : fs) : Prop :=
  forall p, fs_exists d p = true -> d' p = d p.

(** Every path of [d'] that is not in [d] is one the operating system
    lets the program create. *)
Definition fresh_ok (E : Env) (d d' : fs) : Prop :=
  forall p, fs_exists d' p = true ->
            fs_exists d p = true \/ os_refuses E p = None.

(** Number of [time.sleep] calls in a log. *)
Definition sleeps (l : list event) : nat :=
  List.length (filter (fun e => match e with Sleep _ => true | _ => false end) l).

(** HTTP requests in a log, in order. *)
Definition requests (l : list event) : list json :=
  flat_map (fun e => match e with Get u => [u] | _ => [] end) l.

(** An action relates every state it is run from to the state it leaves,
    whether it returns or raises. *)
Definition preserves {A} (R : state -> state -> Prop) (m : M A) : Prop :=
  forall st, R st (snd (m st)).

(** Nothing on disk is changed or removed, and nothing appears where the
    operating system refuses. *)
Definition disk_safe (E : Env) (st st' : state) : Prop :=
  keeps (disk st) (disk st') /\ fresh_ok E (disk st) (disk st').

(** No [time.sleep] in between. *)
Definition no_sleep (st st' : state) : Prop :=
  sleeps (log st') = sleeps (log st).

(** Run from [st2], the action [m2] returns what [m1] returned from [st1]
    and leaves the disk and the total of [st2] as they are. *)
Definition again {A} (m1 m2 : M A) (st1 st2 : state) : Prop :=
  exists st2',
    m2 st2 = (fst (m1 st1), st2')
    /\ disk st2' = disk st2
    /\ total_downloaded st2' = total_downloaded st2.

(** The standard output takes every line of the program. *)
Definition stdout_ok (E : Env) : Prop :=
  forall m, print_error E m = None.

(** A plain name: not empty, without slash, and neither [.] nor [..]. *)
Definition plain_name (s : string) : bool :=
  negb (s =? "") && negb (contains "/" s)
  && negb (s =? ".") && negb (s =? "..").

(** The parts of a path between its slashes. *)
Fixpoint components (p : string) : list string :=
  match p with
  | EmptyString => [EmptyString]
  | String c t =>
      if Ascii.eqb c "/" then EmptyString :: components t
      else match components t with
           | x :: rest => String c x :: rest
           | [] => [String c EmptyString]
           end
  end.

(** A path made of plain names, relative or absolute. *)
Definition plain_path (p : string) : bool :=
  match p with
  | String "/" t => forallb plain_name (components t)
  | _ => forallb plain_name (components p)
  end.

(** [urljoin] and [urlparse] take every address: lines 92-97 raise for no
    candidate. *)
Definition addresses_ok (E : Env) : Prop :=
  forall link c, exists img path,
    resolve E link c = Ret img /\ urlparse_path E img = Ret path.

(** Lines 19-29 as a state change, when the standard output takes the
    line: the first line is printed and the total starts at zero. *)
Definition begin_scan (posts : list json) (st : state) : state :=
  with_total (emit st (Print (MFound (List.length posts)))) 0.

(** Line 120 after the loop, when the standard output takes the line:
    the last line is printed if the loop did not raise. *)
Definition finish (r : exc unit * state) : exc unit * state :=
  match r with
  | (Ret _, st) => (Ret tt, emit st (Print (MDone (total_downloaded st))))
  | (Raise e, st) => (Raise e, st)
  end.

(** A post is a dict whose [title], if present, is a dict. *)
Definition title_ok (post : json) : bool :=
  match post with
  | JObj fields =>
      match assoc "title" fields with
      | None => true
      | Some (JObj _) => true
      | Some _ => false
      end
  | _ => false
  end.

(** The fetch or the saving of an image fails: the request raises, or the
    status is not 2xx, or the status is 200 and the file cannot be created
    or the writing of the body ends in an exception. *)
Definition image_fails (E : Env) (img_url filepath : string) : Prop :=
  match http E (JStr img_url) with
  | Raise _ => True
  | Ret resp =>
      ~ (200 <= status_code resp < 300)%Z
      \/ (status_code resp = 200%Z
          /\ (os_refuses E filepath <> None
              \/ stream_error E filepath 0 (body resp) <> None))
  end.

(** The page fetch fails: the request raises or the status is not 2xx. *)
Definition page_fails (E : Env) (link : json) : Prop :=
  match http E link with
  | Raise _ => True
  | Ret resp => ~ (200 <= status_code resp < 300)%Z
  end.

(** The line printed for a failed page fetch. *)
Definition page_diagnostic (E : Env) (link : json) : message :=
  match http E link with
  | Raise e => MErrorProcessing e
  | Ret resp => MFailedFetch link (status_code resp)
  end.

(** A candidate after both rewriting steps of the program: resolved
    (lines 92-95) and, if it has a [/thumbs/] segment, turned into the
    full-size guess (lines 71-75). *)
Definition normalized (E : Env) (link : json) (c : string) : exc string :=
  match resolve E link c with
  | Ret u => Ret (if contains "/thumbs/" u then full_size u else u)
  | Raise e => Raise e
  end.

(** ** Example inputs *)

Module Examples.

Definition gallery : string := "http://site.example/gallery".

(** A thumbnail anchor inside a gallery container, and a plain anchor to
    the full-size image. *)
Definition thumb_and_full : soup :=
  [ Tag "div" ["ngg-gallery-thumbnail"] []
      [ Tag "a" []
          [("href", "http://h/wp-content/gallery/al/thumbs/thumbs_a.jpg")] [] ];
    Tag "a" [] [("href", "http://h/wp-content/gallery/al/a.jpg")] [] ].

(** The same image under a protocol-relative and an absolute address. *)
Definition two_spellings : soup :=
  [ Tag "img" [] [("src", "//h/wp-content/gallery/al/a.jpg")] [];
    Tag "img" [] [("src", "https://h/wp-content/gallery/al/a.jpg")] [] ].

(** Two plain anchors, to [u] and to [t]. *)
Definition two_anchors (u t : string) : soup :=
  [ Tag "a" [] [("href", u)] []; Tag "a" [] [("href", t)] [] ].

(** A lightbox anchor to a thumbnail outside the gallery storage path. *)
Definition lightbox_thumb : soup :=
  [ Tag "a" ["ngg-fancybox"]
      [("href", "http://site.example/img/thumbs/thumbs_photo.jpg")] [] ].

(** A post whose [title] is a plain string. *)
Definition string_title_post : json :=
  JObj [("id", JNum 1); ("link", JStr gallery); ("slug", JStr "first");
        ("title", JStr "Hello")].

(** A post without a [link]. *)
Definition no_link_post : json :=
  JObj [("id", JNum 2); ("slug", JStr "second");
        ("title", JObj [("rendered", JStr "No link")])].

(** A disk on which one image of the gallery is already present. *)
Definition disk_with_one : fs :=
  fs_set (fs_set (fs_set fs_empty "out" Dir) "out/g" Dir)
         "out/g/one.jpg" (File "OLD").

(** A disk with the folder of a post and nothing in it. *)
Definition disk_with_dir : fs :=
  fs_set (fs_set fs_empty "out" Dir) "out/g" Dir.

(** A page with two images under the gallery storage path; the address of
    the first has an opening bracket in its host, at which [urlparse]
    raises [ValueError]. *)
Definition mixed : string := "http://site.example/mixed".

Definition mixed_page : soup :=
  [ Tag "img" [] [("src", "http://[bad/wp-content/gallery/al/a.jpg")] [];
    Tag "img" []
      [("src", "http://site.example/wp-content/gallery/album/two.jpg")] [] ].

Definition mixed_env : Env :=
  mkEnv (fun url => match url with
                    | JStr u => if u =? mixed then Demo.ok mixed_page SEnd
                                else Demo.site url
                    | _ => Demo.site url
                    end)
        Demo.join_origin
        (fun u => if startswith "http://[" u then Raise "ValueError"
                  else Ret (Demo.path_of u))
        Demo.str_of (fun s => s) (fun _ => None) (fun _ _ => None)
        (fun _ => None) (fun _ => None).

(** U+2192, a rightwards arrow, in UTF-8. *)
Definition arrow : string :=
  String (ascii_of_nat 226)
    (String (ascii_of_nat 134) (String (ascii_of_nat 146) "")).

Fixpoint is_ascii (s : string) : bool :=
  match s with
  | EmptyString => true
  | String c t => (nat_of_ascii c <? 128)%nat && is_ascii t
  end.

(** A standard output whose encoding is ASCII: [print] raises
    [UnicodeEncodeError] at a line that holds anything else. *)
Definition ascii_stdout (m : message) : option string :=
  let refuse (b : bool) := if b then None else Some "UnicodeEncodeError" in
  match m with
  | MScanning _ _ title => refuse (is_ascii (Demo.str_of title))
  | MFailedFetch link _ => refuse (is_ascii (Demo.str_of link))
  | MErrorDownloading u e => refuse (is_ascii u && is_ascii e)
  | MErrorProcessing e => refuse (is_ascii e)
  | _ => None
  end.

(** An image whose name holds the arrow, and a page with that image and
    another. *)
Definition arrow_image : string :=
  ("http://site.example/wp-content/gallery/album/" ++ arrow ++ ".jpg")%string.

Definition arrows : string := "http://site.example/arrows".

Definition arrows_page : soup :=
  [ Tag "img" [] [("src", arrow_image)] [];
    Tag "img" []
      [("src", "http://site.example/wp-content/gallery/album/two.jpg")] [] ].

(** The demonstration site behind an ASCII standard output; the
    connection for the arrow image is reset. *)
Definition ascii_env : Env :=
  mkEnv (fun url => match url with
                    | JStr u =>
                        if u =? arrows then Demo.ok arrows_page SEnd
                        else if u =? arrow_image then Raise "ConnectionError"
                        else Demo.site url
                    | _ => Demo.site url
                    end)
        Demo.join_origin (fun u => Ret (Demo.path_of u))
        Demo.str_of (fun s => s) (fun _ => None) (fun _ _ => None)
        ascii_stdout (fun _ => None).

(** A standard output that is a pipe whose reader has gone once the
    progress line of the first post is out: [print] raises
    [BrokenPipeError] at every line that follows. *)
Definition closed_pipe (m : message) : option string :=
  match m with
  | MFound _ | MScanning 1 _ _ => None
  | _ => Some "BrokenPipeError"
  end.

(** The demonstration site behind that pipe. *)
Definition pipe_env : Env :=
  mkEnv Demo.site Demo.join_origin (fun u => Ret (Demo.path_of u))
        Demo.str_of (fun s => s) (fun _ => None) (fun _ _ => None)
        closed_pipe (fun _ => None).

(** A post whose title holds the arrow. *)
Definition arrow_title_post : json :=
  JObj [("id", JNum 3); ("link", JStr gallery); ("slug", JStr "third");
        ("title", JObj [("rendered", JStr arrow)])].

End Examples.

(** * Further properties: definitions *)

(** ** The scraper *)

(** All the bytes of a body, in order. *)
Fixpoint body_bytes (b : stream) : string :=
  match b with
  | SEnd => EmptyString
  | SChunk chunk rest => chunk ++ body_bytes rest
  | SFail _ => EmptyString
  end.

(** The folder of a post (line 87), when its fields can be read and its
    slug is a string. *)
Definition post_dir (E : Env) (output_folder : string) (post : json)
  : option string :=
  match post_fields E post with
  | Ret (_, _, JStr slug) => Some (path_join output_folder slug)
  | _ => None
  end.

(** The heads [os.makedirs(name)] may have to make before [name]: the
    head of [name], the head of that, and so on. *)
Fixpoint heads (fuel : nat) (name : string) : list string :=
  let (head0, tail0) := path_split name in
  let (head, tail) :=
    if tail0 =? "" then path_split head0 else (head0, tail0) in
  if negb (head =? "") && negb (tail =? "")
  then match fuel with
       | O => []
       | S k => head :: heads k head
       end
  else [].

(** A folder or one of the heads on the way to it. *)
Definition on_the_way (folder p : string) : Prop :=
  p = folder \/ In p (heads (String.length folder) folder).

(** A path the run may create: the output folder, the folder of one of
    the posts, a head on the way to one of these, or a name without slash
    joined to the folder of a post. *)
Definition may_create (E : Env) (output_folder : string) (posts : list json)
    (p : string) : Prop :=
  on_the_way output_folder p
  \/ (exists post d,
        In post posts /\ post_dir E output_folder post = Some d
        /\ on_the_way d p)
  \/ (exists post d f,
        In post posts /\ post_dir E output_folder post = Some d
        /\ contains "/" f = false /\ p = path_join d f).

(** Every path of [st'] was in [st] or is one the run may create. *)
Definition confined (E : Env) (output_folder : string) (posts : list json)
    (st st' : state) : Prop :=
  forall p, fs_exists (disk st') p = true ->
            fs_exists (disk st) p = true \/ may_create E output_folder posts p.

(** The slug of a post, when it is a string. *)
Definition post_slug (E : Env) (post : json) : option string :=
  match post_fields E post with
  | Ret (_, _, JStr slug) => Some slug
  | _ => None
  end.

(** A site that answers every request with 204 No Content. *)
Definition no_content_env : Env :=
  mkEnv (fun _ => Ret (mkResponse 204 [] SEnd)) Demo.join_origin
        (fun u => Ret (Demo.path_of u)) Demo.str_of
        (fun s => s) (fun _ => None) (fun _ _ => None)
        (fun _ => None) (fun _ => None).

(** ** Report.py *)

(** Python [==] between two loaded values.  [True] and [False] are the
    integers 1 and 0; lists are compared item by item, dicts key by key. *)
Fixpoint py_eq (a b : json) : bool :=
  match a, b with
  | JNull, JNull => true
  | JBool x, JBool y => Bool.eqb x y
  | JBool x, JNum z => Z.eqb (if x then 1 else 0) z
  | JNum z, JBool x => Z.eqb z (if x then 1 else 0)
  | JNum x, JNum y => Z.eqb x y
  | JStr x, JStr y => String.eqb x y
  | JArr l1, JArr l2 =>
      (fix items (l1 l2 : list json) : bool :=
         match l1, l2 with
         | [], [] => true
         | x :: l1', y :: l2' => py_eq x y && items l1' l2'
         | _, _ => false
         end) l1 l2
  | JObj f1, JObj f2 =>
      Nat.eqb (List.length f1) (List.length f2)
      && (fix fields (f : list (string * json)) : bool :=
            match f with
            | [] => true
            | (k, v) :: f' =>
                match assoc k f2 with
                | Some v' => py_eq v v'
                | None => false
                end && fields f'
            end) f1
  | _, _ => false
  end.

(** [hash(v)] succeeds: lists and dicts are unhashable. *)
Definition hashable (v : json) : bool :=
  match v with
  | JArr _ | JObj _ => false
  | _ => true
  end.

(** [v[key]] for a string key. *)
Definition py_index (v : json) (key : string) : exc json :=
  match v with
  | JObj fields =>
      match assoc key fields with
      | Some x => Ret x
      | None => Raise "KeyError"
      end
  | _ => Raise "TypeError"
  end.

(** A byte that continues a character in UTF-8: [10xxxxxx]. *)
Definition is_continuation (c : ascii) : bool :=
  Nat.leb 128 (nat_of_ascii c) && Nat.leb (nat_of_ascii c) 191.

(** The characters of a [str], each with its continuation bytes. *)
Fixpoint characters (s : string) : list string :=
  match s with
  | EmptyString => []
  | String c t =>
      match t with
      | String d _ =>
          if is_continuation d
          then match characters t with
               | x :: rest => String c x :: rest
               | [] => [String c EmptyString]
               end
          else String c EmptyString :: characters t
      | EmptyString => [String c EmptyString]
      end
  end.

(** The items [for x in v] goes through. *)
Definition py_iter (v : json) : exc (list json) :=
  match v with
  | JArr items => Ret items
  | JObj fields => Ret (map (fun kv => JStr (fst kv)) fields)
  | JStr s => Ret (map JStr (characters s))
  | _ => Raise "TypeError"
  end.

(** A Python dict with loaded values as keys, in insertion order. *)
Definition pydict (V : Type) : Type := list (json * V).

(** [d.get(k)] *)
Fixpoint pd_get {V} (k : json) (d : pydict V) : option V :=
  match d with
  | [] => None
  | (k', v) :: d' => if py_eq k' k then Some v else pd_get k d'
  end.

(** [d[k] = v]: an equal key keeps its place and is kept. *)
Fixpoint pd_set {V} (k : json) (v : V) (d : pydict V) : pydict V :=
  match d with
  | [] => [(k, v)]
  | (k', v') :: d' =>
      if py_eq k' k then (k', v) :: d' else (k', v') :: pd_set k v d'
  end.

Section Report.

(** [str(v)], as an f-string formats a loaded value. *)
Variable fmt : json -> string.

(** Line 26: [[cat for cat in categories if cat.get("parent", 0) == parent]] *)
Fixpoint children_of (categories : list json) (parent : json)
  : exc (list json) :=
  match categories with
  | [] => Ret []
  | cat :: rest =>
      match dict_get cat "parent" (JNum 0) with
      | Raise e => Raise e
      | Ret p =>
          match children_of rest parent with
          | Raise e => Raise e
          | Ret l => Ret (if py_eq p parent then cat :: l else l)
          end
      end
  end.

(** Lines 27-29: the loop over [children]; [recurse] is the call of line
    29 at the next depth. *)
Fixpoint tree_loop (recurse : json -> exc string) (prefix : string)
    (children : list json) (tree : string) : exc string :=
  match children with
  | [] => Ret tree
  | cat :: rest =>
      match dict_get cat "name" (JStr "") with
      | Raise e => Raise e
      | Ret name =>
          match dict_get cat "id" (JNum 0) with
          | Raise e => Raise e
          | Ret id =>
              match recurse id with
              | Raise e => Raise e
              | Ret sub =>
                  tree_loop recurse prefix rest
                    (tree ++ (prefix ++ "📂 " ++ fmt name ++ newline) ++ sub)
              end
          end
      end
  end.

(** [tree_categories(categories, parent, prefix)] (lines 23-30).  [limit]
    is the number of nested calls the interpreter still allows; beyond it
    the call raises [RecursionError]. *)
Fixpoint tree_categories (limit : nat) (categories : list json)
    (parent : json) (prefix : string) : exc string :=
  match limit with
  | O => Raise "RecursionError"
  | S limit' =>
      match children_of categories parent with
      | Raise e => Raise e
      | Ret children =>
          tree_loop
            (fun id => tree_categories limit' categories id (prefix ++ "    "))
            prefix children EmptyString
      end
  end.

(** Line 35: [{cat['id']: cat['name'] for cat in categories}] *)
Fixpoint cat_map_of (categories : list json) (cat_map : pydict json)
  : exc (pydict json) :=
  match categories with
  | [] => Ret cat_map
  | cat :: rest =>
      match py_index cat "id" with
      | Raise e => Raise e
      | Ret id =>
          match py_index cat "name" with
          | Raise e => Raise e
          | Ret name =>
              if hashable id then cat_map_of rest (pd_set id name cat_map)
              else Raise "TypeError"
          end
      end
  end.

(** Line 39: [cat_map.get(cat_id, f"ID:{cat_id}")] *)
Definition cat_name_of (cat_map : pydict json) (cat_id : json) : json :=
  match pd_get cat_id cat_map with
  | Some name => name
  | None => JStr ("ID:" ++ fmt cat_id)
  end.

(** Line 41: [post.get('title', {}).get('rendered', '')] *)
Definition post_title (post : json) : exc json :=
  match dict_get post "title" (JObj []) with
  | Raise e => Raise e
  | Ret t => dict_get t "rendered" (JStr "")
  end.

(** Lines 38-42: the loop over the category ids of one post. *)
Fixpoint add_post (cat_map : pydict json) (post : json) (cat_ids : list json)
    (result : pydict (list json)) : exc (pydict (list json)) :=
  match cat_ids with
  | [] => Ret result
  | cat_id :: rest =>
      if negb (hashable cat_id) then Raise "TypeError"
      else
        let cat_name := cat_name_of cat_map cat_id in
        if negb (hashable cat_name) then Raise "TypeError"
        else
          let titles := match pd_get cat_name result with
                        | Some l => l
                        | None => []
                        end in
          match post_title post with
          | Raise e => Raise e
          | Ret title =>
              add_post cat_map post rest
                (pd_set cat_name (titles ++ [title]) result)
          end
  end.

(** The category ids line 38 goes through for a post. *)
Definition post_cat_ids (post : json) : exc (list json) :=
  match dict_get post "categories" (JArr []) with
  | Raise e => Raise e
  | Ret cs => py_iter cs
  end.

(** Lines 37-42. *)
Fixpoint group_posts (cat_map : pydict json) (posts : list json)
    (result : pydict (list json)) : exc (pydict (list json)) :=
  match posts with
  | [] => Ret result
  | post :: rest =>
      match post_cat_ids post with
      | Raise e => Raise e
      | Ret cat_ids =>
          match add_post cat_map post cat_ids result with
          | Raise e => Raise e
          | Ret result' => group_posts cat_map rest result'
          end
      end
  end.

(** [posts_per_category(posts, categories)] (lines 33-43). *)
Definition posts_per_category (posts categories : list json)
  : exc (pydict (list json)) :=
  match cat_map_of categories [] with
  | Raise e => Raise e
  | Ret cat_map => group_posts cat_map posts []
  end.

(** Lines 183-186 of [main]: the number of posts of each author. *)
Fixpoint count_authors (posts : list json) (user_post_count : pydict nat)
  : exc (pydict nat) :=
  match posts with
  | [] => Ret user_post_count
  | post :: rest =>
      match dict_get post "author" JNull with
      | Raise e => Raise e
      | Ret author_id =>
          if hashable author_id
          then count_authors rest
                 (pd_set author_id
                    (match pd_get author_id user_post_count with
                     | Some c => c
                     | None => 0
                     end + 1)
                    user_post_count)
          else Raise "TypeError"
      end
  end.

(** Lines 189-194 of [main]: each user's name with the number of posts. *)
Fixpoint users_with_count (user_post_count : pydict nat) (users : list json)
  : exc (list (json * nat)) :=
  match users with
  | [] => Ret []
  | user :: rest =>
      match dict_get user "id" JNull with
      | Raise e => Raise e
      | Ret user_id =>
          match dict_get user "username" (JStr "Unknown") with
          | Raise e => Raise e
          | Ret username =>
              match dict_get user "name" username with
              | Raise e => Raise e
              | Ret name =>
                  if hashable user_id
                  then
                    match users_with_count user_post_count rest with
                    | Raise e => Raise e
                    | Ret l =>
                        Ret ((name,
                              match pd_get user_id user_post_count with
                              | Some c => c
                              | None => 0
                              end) :: l)
                    end
                  else Raise "TypeError"
              end
          end
      end
  end.

End Report.

(** The category is a dict. *)
Definition is_dict (v : json) : bool :=
  match v with JObj _ => true | _ => false end.

(** [cat.get("id", 0)] and [cat.get("parent", 0)] of a dict. *)
Definition cat_id (cat : json) : json :=
  match dict_get cat "id" (JNum 0) with Ret v => v | Raise _ => JNull end.

Definition cat_parent (cat : json) : json :=
  match dict_get cat "parent" (JNum 0) with Ret v => v | Raise _ => JNull end.

(** The category is a dict whose [id], if it has one, can be a dict key. *)
Definition well_keyed (cat : json) : bool :=
  match cat with
  | JObj fields =>
      match assoc "id" fields with
      | Some id => hashable id
      | None => true
      end
  | _ => false
  end.

(** The category is a dict without [id] or without [name]. *)
Definition lacks_key (cat : json) : bool :=
  match cat with
  | JObj fields =>
      match assoc "id" fields, assoc "name" fields with
      | Some _, Some _ => false
      | _, _ => true
      end
  | _ => false
  end.

(** The titles held by a grouping, all groups together. *)
Definition titles_in (d : pydict (list json)) : nat :=
  list_sum (map (fun kv => List.length (snd kv)) d).

(** The category references of a list of posts: one for each item of
    each post's [categories]. *)
Definition category_refs (posts : list json) : nat :=
  list_sum (map (fun post => match post_cat_ids post with
                             | Ret l => List.length l
                             | Raise _ => 0
                             end) posts).

(** Number of posts whose [author] equals [user_id]. *)
Definition posts_by (user_id : json) (posts : list json) : nat :=
  List.length
    (filter (fun post => match dict_get post "author" JNull with
                         | Ret a => py_eq a user_id
                         | Raise _ => false
                         end) posts).

(** The keys of a dict can all be hashed. *)
Definition keys_ok {V} (d : pydict V) : Prop :=
  Forall (fun kv => hashable (fst kv) = true) d.

(** [d.get(k, 0)] *)
Definition count_of (k : json) (d : pydict nat) : nat :=
  match pd_get k d with Some c => c | None => 0 end.

(** [user.get('id')] of a dict. *)
Definition user_id (user : json) : json :=
  match dict_get user "id" JNull with Ret v => v | Raise _ => JNull end.

(** The grouping [d] holds [title] in a group whose key equals [name]. *)
Definition filed (d : pydict (list json)) (name title : json) : Prop :=
  exists k titles, In (k, titles) d /\ py_eq k name = true /\ In title titles.

Module ReportExamples.

Definition cat (id parent : Z) (name : string) : json :=
  JObj [("id", JNum id); ("parent", JNum parent); ("name", JStr name)].

(** News > Sport, and Misc. *)
Definition three_categories : list json :=
  [cat 1 0 "News"; cat 3 1 "Sport"; cat 2 0 "Misc"].

Definition depth_of (v : json) : nat :=
  match v with
  | JNum 0 | JBool false => 2
  | JNum 1 | JBool true => 1
  | _ => 0
  end.

Definition blog_post (title : string) (author : Z) (cats : list Z) : json :=
  JObj [("title", JObj [("rendered", JStr title)]); ("author", JNum author);
        ("categories", JArr (map JNum cats))].

Definition three_posts : list json :=
  [blog_post "A" 7 [1; 3]%Z; blog_post "B" 7 [9]%Z; blog_post "C" 8 []].

End ReportExamples.


(** ** lib/infodisplayer.py *)

(** [key in v] for a string key: a key of a dict, an item of a list, a
    substring of a string. *)
Definition py_contains (key : string) (v : json) : exc bool :=
  match v with
  | JObj fields =>
      Ret (match assoc key fields with Some _ => true | None => false end)
  | JArr items => Ret (existsb (py_eq (JStr key)) items)
  | JStr s => Ret (contains key s)
  | _ => Raise "TypeError"
  end.

Definition and_then {A B} (x : exc A) (k : A -> exc B) : exc B :=
  match x with
  | Ret a => k a
  | Raise e => Raise e
  end.

Definition tab_char : string := String (ascii_of_nat 9) EmptyString.

Section Display.

Local Open Scope string_scope.

(** [str(v)], which is also what [format] and an f-string show. *)
Variable fmt : json -> string.

(** The exception [print(line)] raises when the standard output does not
    take the text ([UnicodeEncodeError] for text that its encoding cannot
    hold), if it does. *)
Variable rejected : string -> option string.

(** [if key in d: line += label.format(d[field])], the label ending the
    line. *)
Definition add_field (d : json) (key field label line : string) : exc string :=
  and_then (py_contains key d) (fun present =>
  if present
  then and_then (py_index d field) (fun v =>
       Ret (line ++ label ++ fmt v ++ newline))
  else Ret line).

(** Lines 333-341. *)
Definition parent_field (category : json) (line : string) : exc string :=
  and_then (py_contains "parent" category) (fun present =>
  if present
  then and_then (py_index category "parent") (fun p =>
       Ret (line ++ "    Parent category: "
            ++ match p with
               | JStr s => s
               | JNum _ => fmt p
               | _ => "Unknown"
               end
            ++ newline))
  else Ret line).

(** Lines 317-341: the text of one category. *)
Definition category_line (category : json) (details : bool) : exc string :=
  and_then (add_field category "id" "id" "Category ID: " "") (fun line =>
  and_then (add_field category "name" "name" "    Name: " line) (fun line =>
  and_then (add_field category "description" "description"
              "    Description: " line) (fun line =>
  and_then (add_field category "count" "count"
              "    Number of posts: " line) (fun line =>
  and_then (add_field category "link" "link" "    Page: " line) (fun line =>
  if details
  then
    and_then (add_field category "slug" "slug" "    Slug: " line) (fun line =>
    and_then (add_field category "taxonomy" "slug"
                "    Taxonomy: " line) (fun line =>
    parent_field category line))
  else Ret line))))).

(** Lines 354-368: the text of one tag. *)
Definition tag_line (tag : json) (details : bool) : exc string :=
  and_then (add_field tag "id" "id" "Tag ID: " "") (fun line =>
  and_then (add_field tag "name" "name" "    Name: " line) (fun line =>
  and_then (add_field tag "description" "description"
              "    Description: " line) (fun line =>
  and_then (add_field tag "count" "count"
              "    Number of posts: " line) (fun line =>
  and_then (add_field tag "link" "link" "    Page: " line) (fun line =>
  if details
  then
    and_then (add_field tag "slug" "slug" "    Slug: " line) (fun line =>
    add_field tag "taxonomy" "slug" "    Taxonomy: " line)
  else Ret line))))).

(** The loop of [display_categories] and of [display_tags]: [printed] holds
    the arguments of the calls of [print] that wrote their text so far, the
    second component the exception that ended the loop. *)
Fixpoint display_loop (text : json -> bool -> exc string)
    (information : list json) (details : bool) (printed : list string)
    : list string * option string :=
  match information with
  | [] => (printed, None)
  | JNull :: rest => display_loop text rest details printed
  | item :: rest =>
      match text item details with
      | Raise e => (printed, Some e)
      | Ret line =>
          match rejected line with
          | Some e => (printed, Some e)
          | None => display_loop text rest details (printed ++ [line])%list
          end
      end
  end.

(** The whole of either function: [print()], which writes the empty
    line, before the loop and after it. *)
Definition display (text : json -> bool -> exc string)
    (information : json) (details : bool) : list string * option string :=
  match rejected "" with
  | Some e => ([], Some e)
  | None =>
      match py_iter information with
      | Raise e => ([""], Some e)
      | Ret items =>
          match display_loop text items details [""] with
          | (printed, None) =>
              match rejected "" with
              | Some e => (printed, Some e)
              | None => ((printed ++ [""])%list, None)
              end
          | stopped => stopped
          end
      end
  end.

(** [display_categories(information, details)] *)
Definition display_categories : json -> bool -> list string * option string :=
  display category_line.

(** [display_tags(information, details)] *)
Definition display_tags : json -> bool -> list string * option string :=
  display tag_line.

Section Loops.

Variable rec : json -> string -> string.
Variable tab : string.

(** Lines 502-516; [i < length - 1] holds when items remain. *)
Fixpoint list_loop (items : list json) (line : string) : string :=
  match items with
  | [] => line
  | value :: rest =>
      let '(line, do_jmp) :=
        match value with
        | JObj _ | JArr _ => (line ++ rec value (tab ++ tab_char), true)
        | JStr s =>
            if contains newline s
            then ((line ++ newline ++ tab ++ tab_char)
                  ++ replace newline (newline ++ tab ++ tab_char) s, true)
            else ((line ++ " ") ++ replace newline (newline ++ tab) s, false)
        | _ => (line ++ " " ++ fmt value, true)
        end in
      list_loop rest
        (if match rest with [] => false | _ => true end && do_jmp
         then line ++ newline else line)
  end.

(** Lines 518-530. *)
Fixpoint dict_loop (fields : list (string * json)) (line : string) : string :=
  match fields with
  | [] => line
  | (key, value) :: rest =>
      let line := line ++ newline ++ tab ++ key in
      dict_loop rest
        match value with
        | JObj _ | JArr _ => line ++ rec value (tab ++ tab_char)
        | JStr s =>
            if contains newline s
            then (line ++ newline ++ tab ++ tab_char)
                 ++ replace newline (newline ++ tab ++ tab_char) s
            else (line ++ " ") ++ replace newline (newline ++ tab) s
        | _ => line ++ " " ++ fmt value
        end
  end.

End Loops.

(** [recurse_list_or_dict(data, tab)] *)
Fixpoint recurse_list_or_dict (data : json) (tab : string) {struct data}
    : string :=
  match data with
  | JArr items => list_loop recurse_list_or_dict tab items ""
  | JObj fields => dict_loop recurse_list_or_dict tab fields ""
  | _ => tab ++ fmt data
  end.

End Display.

(** The fields with the value of ["taxonomy"], where there is one,
    replaced by [t]. *)
Definition with_taxonomy (t : json) (fields : list (string * json))
    : list (string * json) :=
  map (fun kv => if fst kv =? "taxonomy" then (fst kv, t) else kv) fields.

Definition shown (c : json) : bool :=
  match c with JNull => false | _ => true end.

Definition has_key (key : string) (fields : list (string * json)) : bool :=
  match assoc key fields with Some _ => true | None => false end.

(** [None], or a dict that, when details are asked for, has a ["slug"] if
    it has a ["taxonomy"]. *)
Definition displayable (details : bool) (c : json) : bool :=
  match c with
  | JNull => true
  | JObj fields =>
      negb details || negb (has_key "taxonomy" fields) || has_key "slug" fields
  | _ => false
  end.

Definition is_container (v : json) : bool :=
  match v with JArr _ | JObj _ => true | _ => false end.

(** The strings, each behind a space. *)
Fixpoint spaced (ss : list string) : string :=
  match ss with
  | [] => ""
  | s :: rest => (" " ++ s ++ spaced rest)%string
  end.

(** [tabs n]: [n] tab characters. *)
Fixpoint tabs (n : nat) : string :=
  match n with
  | O => ""
  | S k => (tab_char ++ tabs k)%string
  end.

(** [key_at data n k]: [k] is a key of a dict that lies [n] containers
    below [data]. *)
Inductive key_at : json -> nat -> string -> Prop :=
| key_here fields k v :
    In (k, v) fields -> key_at (JObj fields) 0 k
| key_in_field fields k' v n k :
    In (k', v) fields -> key_at v n k -> key_at (JObj fields) (S n) k
| key_in_item items v n k :
    In v items -> key_at v n k -> key_at (JArr items) (S n) k.

Module DisplayExamples.

Definition routes : json :=
  JObj [("namespace", JStr "wp/v2");
        ("methods", JArr [JStr "GET"; JStr "POST"]);
        ("endpoints", JArr [JObj [("args", JObj [("page", JNum 1)])]])].

Definition bare_taxonomy : list (string * json) :=
  [("id", JNum 4); ("taxonomy", JStr "category")].

End DisplayExamples.
(** * Properties *)

(** ** Strings *)

Lemma has_str_In x l : has_str x l = true <-> In x l.
Proof.
  unfold has_str. rewrite existsb_exists. split.
  - intros [y [Hy He]]. apply String.eqb_eq in He. now subst.
  - intros H. exists x. split; [assumption | apply String.eqb_refl].
Qed.

Lemma append_assoc (a b c : string) :
  ((a ++ b) ++ c)%string = (a ++ (b ++ c))%string.
Proof. induction a; simpl; [reflexivity | now rewrite IHa]. Qed.

Lemma lower_dot c : lower c = "."%char -> c = "."%char.
Proof.
  destruct c as [[] [] [] [] [] [] [] []]; vm_compute; intros H;
    first [reflexivity | discriminate H].
Qed.

Lemma lower_idem c : lower (lower c) = lower c.
Proof. destruct c as [[] [] [] [] [] [] [] []]; reflexivity. Qed.

Lemma lower_lead c : lower c = ascii_of_nat 196 -> c = ascii_of_nat 196.
Proof.
  destruct c as [[] [] [] [] [] [] [] []]; vm_compute; intros H;
    first [reflexivity | discriminate H].
Qed.

Lemma other_i_lead c d : other_i c d = true -> c = ascii_of_nat 196.
Proof.
  unfold other_i. intros H. apply andb_true_iff in H.
  now apply Ascii.eqb_eq.
Qed.

Lemma fold_case_two c d t :
  fold_case (String c (String d t))
  = if other_i c d then String "i" (fold_case t)
    else String (lower c) (fold_case (String d t)).
Proof. reflexivity. Qed.

Lemma fold_case_nil s : fold_case s = "" -> s = "".
Proof.
  destruct s as [|c [|d t]]; [reflexivity | discriminate |].
  cbn [fold_case]. destruct (other_i c d); discriminate.
Qed.

Lemma pattern_lit_tail a lit : pattern_lit (String a lit) -> pattern_lit lit.
Proof. intros H x Hx. apply H. now right. Qed.

Lemma match_lit_spec lit :
  pattern_lit lit ->
  forall s r,
    match_lit lit s = Some r <->
    exists pre, s = (pre ++ r)%string /\ fold_case pre = lit.
Proof.
  induction lit as [|a lit IH]; intros Hlit s r.
  - cbn [match_lit]. split.
    + intros H. injection H as ->. now exists EmptyString.
    + intros [pre [-> Hp]]. apply fold_case_nil in Hp. now subst pre.
  - destruct (Hlit a (or_introl eq_refl)) as [Ha Hlead].
    specialize (IH (pattern_lit_tail a lit Hlit)).
    destruct s as [|c s].
    { split; [discriminate|]. intros [pre [Hs Hp]].
      destruct pre; [discriminate Hp | discriminate Hs]. }
    cbn [match_lit]. rewrite Ha.
    destruct (Ascii.eqb a (lower c)) eqn:Hac.
    + apply Ascii.eqb_eq in Hac. rewrite IH. split.
      * intros [pre [-> Hp]]. exists (String c pre).
        split; [reflexivity|]. destruct pre as [|d pre].
        -- cbn [fold_case] in *. now rewrite <- Hp, Hac.
        -- cbn [fold_case]. destruct (other_i c d) eqn:Ho.
           ++ apply other_i_lead in Ho. subst c. now destruct Hlead.
           ++ cbn [fold_case] in Hp. now rewrite Hp, Hac.
      * intros [pre [Hs Hp]].
        destruct pre as [|c' pre]; [discriminate Hp|].
        cbn [append] in Hs. injection Hs as <- ->.
        destruct pre as [|d pre].
        -- cbn [fold_case] in Hp. injection Hp as _ <-.
           now exists EmptyString.
        -- cbn [fold_case] in Hp. destruct (other_i c d) eqn:Ho.
           ++ apply other_i_lead in Ho. subst c. now destruct Hlead.
           ++ injection Hp as _ Hp. now exists (String d pre).
    + apply Ascii.eqb_neq in Hac.
      assert (Hno : forall pre,
                String c s = (pre ++ r)%string ->
                fold_case pre = String a lit ->
                exists d pre', pre = String c (String d pre')
                               /\ other_i c d = true /\ a = "i"%char
                               /\ fold_case pre' = lit).
      { intros pre Hs Hp. destruct pre as [|c' pre]; [discriminate Hp|].
        cbn [append] in Hs. injection Hs as <- _.
        destruct pre as [|d pre].
        - cbn [fold_case] in Hp. injection Hp as Hc _. congruence.
        - cbn [fold_case] in Hp. destruct (other_i c d) eqn:Ho.
          + injection Hp as <- Hp. now exists d, pre.
          + injection Hp as Hc _. congruence. }
      destruct (Ascii.eqb a "i") eqn:Hi.
      * apply Ascii.eqb_eq in Hi. destruct s as [|d s].
        { split; [discriminate|]. intros [pre [Hs Hp]].
          destruct (Hno pre Hs Hp) as (d & pre' & -> & _).
          discriminate Hs. }
        destruct (other_i c d) eqn:Ho.
        -- rewrite IH. split.
           ++ intros [pre [-> Hp]]. exists (String c (String d pre)).
              split; [reflexivity|]. cbn [fold_case].
              now rewrite Ho, Hp, Hi.
           ++ intros [pre [Hs Hp]].
              destruct (Hno pre Hs Hp) as (d' & pre' & -> & _ & _ & Hp').
              cbn [append] in Hs. injection Hs as _ ->. now exists pre'.
        -- split; [discriminate|]. intros [pre [Hs Hp]].
           destruct (Hno pre Hs Hp) as (d' & pre' & -> & Ho' & _).
           cbn [append] in Hs. injection Hs as <- _. congruence.
      * apply Ascii.eqb_neq in Hi. split; [discriminate|].
        intros [pre [Hs Hp]].
        destruct (Hno pre Hs Hp) as (d' & pre' & _ & _ & Hi' & _).
        congruence.
Qed.

Lemma image_exts_lit e : In e image_exts -> pattern_lit e.
Proof.
  unfold image_exts. cbn [In].
  intros [<-|[<-|[<-|[<-|[<-|[]]]]]] a Ha; cbn in Ha;
    repeat (destruct Ha as [<-|Ha]; [split; [reflexivity|discriminate]|]);
    destruct Ha.
Qed.

Lemma dot_lit : pattern_lit ".".
Proof.
  intros a [<-|[]]. split; [reflexivity|discriminate].
Qed.

Lemma at_dollar_spec s : at_dollar s = true <-> s = "" \/ s = newline.
Proof.
  unfold at_dollar. rewrite orb_true_iff, !String.eqb_eq. tauto.
Qed.

Lemma match_here_spec s :
  match_here s = true <->
  exists ext tail,
    s = ("." ++ ext ++ tail)%string
    /\ has_str (fold_case ext) image_exts = true
    /\ (tail = "" \/ tail = newline).
Proof.
  unfold match_here. split.
  - destruct (match_lit "." s) as [r|] eqn:Hd; [|discriminate].
    apply (match_lit_spec "." dot_lit) in Hd. destruct Hd as [pre [-> Hp]].
    assert (Hpre : pre = ".").
    { destruct pre as [|c [|d pre]].
      - discriminate Hp.
      - cbn [fold_case] in Hp. injection Hp as Hc.
        apply lower_dot in Hc. now subst c.
      - rewrite fold_case_two in Hp.
        destruct (other_i c d); [discriminate Hp|].
        injection Hp as _ Hp.
        destruct pre as [|x pre]; [discriminate Hp|].
        destruct (other_i d x); discriminate Hp. }
    subst pre.
    rewrite existsb_exists. intros [e [He Hm]].
    destruct (match_lit e r) as [r'|] eqn:Hr; [|discriminate].
    apply (match_lit_spec e (image_exts_lit e He)) in Hr.
    destruct Hr as [ext [-> Hx]].
    exists ext, r'. split; [reflexivity|]. split.
    + apply has_str_In. now rewrite Hx.
    + now apply at_dollar_spec.
  - intros [ext [tail [-> [He Ht]]]].
    change (match_lit "." ("." ++ ext ++ tail)) with (Some (ext ++ tail)%string).
    cbv beta iota.
    apply has_str_In in He. apply existsb_exists.
    exists (fold_case ext). split; [exact He|].
    assert (Hm : match_lit (fold_case ext) (ext ++ tail) = Some tail).
    { apply (match_lit_spec _ (image_exts_lit _ He)). now exists ext. }
    rewrite Hm. now apply at_dollar_spec.
Qed.

Lemma re_search_spec s :
  re_search s = true <->
  exists stem suf, s = (stem ++ suf)%string /\ match_here suf = true.
Proof.
  induction s as [|c s IH].
  - cbn [re_search]. rewrite orb_false_r. split.
    + intros H. now exists EmptyString, EmptyString.
    + intros [stem [suf [Hs Hm]]].
      destruct stem; [|discriminate Hs]. simpl in Hs. now subst suf.
  - cbn [re_search]. rewrite orb_true_iff, IH. split.
    + intros [H|[stem [suf [-> Hm]]]].
      * now exists EmptyString, (String c s).
      * now exists (String c stem), suf.
    + intros [stem [suf [Hs Hm]]]. destruct stem as [|c' stem].
      * left. simpl in Hs. now subst suf.
      * right. simpl in Hs. injection Hs as -> ->. now exists stem, suf.
Qed.

(** ** The candidate set *)

Lemma set_add_In x y s : In x (set_add y s) <-> x = y \/ In x s.
Proof.
  unfold set_add. destruct (has_str y s) eqn:Hy.
  - apply has_str_In in Hy. split; [tauto | intros [->|H]; assumption].
  - rewrite in_app_iff. simpl. intuition congruence.
Qed.

Lemma set_add_NoDup y s : NoDup s -> NoDup (set_add y s).
Proof.
  intros Hs. unfold set_add. destruct (has_str y s) eqn:Hy; [assumption|].
  assert (Hn : ~ In y s).
  { intros H. apply has_str_In in H. congruence. }
  clear Hy. induction Hs as [|a l Ha Hl IH]; simpl.
  - constructor; [intros [] | constructor].
  - constructor.
    + rewrite in_app_iff. simpl. simpl in Hn. intuition congruence.
    + apply IH. simpl in Hn. tauto.
Qed.

Lemma add_candidates_In pick tags : forall acc x,
  In x (add_candidates pick tags acc) <->
  In x acc \/ exists t, In t tags /\ pick t = Some x.
Proof.
  unfold add_candidates.
  induction tags as [|t tags IH]; intros acc x; simpl.
  - split; [tauto | intros [H|[t [[] _]]]; assumption].
  - rewrite IH. destruct (pick t) as [c|] eqn:Hc.
    + rewrite set_add_In. split.
      * intros [[->|H]|[t' [Ht' Hp]]]; eauto.
      * intros [H|[t' [[<-|Ht'] Hp]]]; eauto.
        left. left. congruence.
    + split.
      * intros [H|[t' [Ht' Hp]]]; eauto.
      * intros [H|[t' [[<-|Ht'] Hp]]]; eauto. congruence.
Qed.

Lemma add_candidates_NoDup pick tags : forall acc,
  NoDup acc -> NoDup (add_candidates pick tags acc).
Proof.
  unfold add_candidates.
  induction tags as [|t tags IH]; intros acc Hacc; simpl; [assumption|].
  apply IH. destruct (pick t); [now apply set_add_NoDup | assumption].
Qed.

Lemma locate_NoDup s : NoDup (locate s).
Proof.
  unfold locate, strategy2, strategy1.
  apply add_candidates_NoDup, add_candidates_NoDup. constructor.
Qed.

Lemma locate_In s x :
  In x (locate s) <->
  (exists t, In t (select s) /\ widget_candidate t = Some x)
  \/ (exists t, In t (find_all s) /\ path_candidate t = Some x).
Proof.
  unfold locate, strategy2, strategy1. rewrite !add_candidates_In.
  simpl. tauto.
Qed.

Lemma contains_nonempty n h : contains n h = true -> n <> "" -> h <> "".
Proof. intros H Hn ->. destruct n; [congruence | discriminate H]. Qed.

Lemma widget_candidate_spec thumb href :
  widget_candidate thumb = Some href ->
  tag_get thumb "href" = Some href /\ is_image_url href = true.
Proof.
  unfold widget_candidate. destruct (tag_get thumb "href") as [h|]; [|discriminate].
  destruct (negb (h =? "") && is_image_url h) eqn:Hc; [|discriminate].
  intros H. injection H as ->. apply andb_true_iff in Hc. tauto.
Qed.

(** C10, as stated, fails: the widget-container pass accepts
    ["photo.jpg\n"], in which a character follows the extension. *)
Lemma C10_trailing_newline_accepted :
  strategy1 [newline_anchor] [] = [("photo.jpg" ++ newline)%string]
  /\ ext_at_very_end ("photo.jpg" ++ newline) = false.
Proof. split; reflexivity. Qed.

(** C10 (amended): [is_image_url] accepts exactly the strings that consist
    of anything, a dot, one of the five extensions in any letter case
    (U+0130 and U+0131 standing for the letter i as well), and then
    nothing more or one final newline.  The widget-container pass adds an
    href only if [is_image_url] accepts it, and it does not accept
    [photo.jpg?w=800]. *)
Theorem C10_widget_pass_extension_at_end :
  (forall url,
     is_image_url url = true <->
     exists stem ext tail,
       url = (stem ++ "." ++ ext ++ tail)%string
       /\ has_str (fold_case ext) image_exts = true
       /\ (tail = "" \/ tail = newline))
  /\ (forall s href, In href (strategy1 s []) -> is_image_url href = true)
  /\ is_image_url "photo.jpg?w=800" = false
  /\ strategy1 [Tag "a" ["ngg-fancybox"] [("href", "photo.jpg?w=800")] []] []
     = [].
Proof.
  split; [|split; [|split; reflexivity]].
  - intros url. unfold is_image_url. rewrite re_search_spec. split.
    + intros [stem [suf [-> Hm]]]. apply match_here_spec in Hm.
      destruct Hm as [ext [tail [-> H]]]. now exists stem, ext, tail.
    + intros [stem [ext [tail [-> H]]]].
      exists stem, ("." ++ ext ++ tail)%string. split; [reflexivity|].
      apply match_here_spec. now exists ext, tail.
  - intros s href H. unfold strategy1 in H.
    apply add_candidates_In in H. destruct H as [[]|[t [_ Ht]]].
    now apply widget_candidate_spec in Ht.
Qed.

(** ** The file system and the monad *)

Lemma append_nil_r (s : string) : (s ++ "")%string = s.
Proof. induction s; simpl; [reflexivity | now rewrite IHs]. Qed.

Lemma fs_set_same d p e : fs_set d p e p = Some e.
Proof. unfold fs_set. now rewrite String.eqb_refl. Qed.

Lemma fs_set_other d p e q : q <> p -> fs_set d p e q = d q.
Proof. unfold fs_set. intros H. apply String.eqb_neq in H. now rewrite H. Qed.

Lemma fs_exists_false d p : fs_exists d p = false <-> d p = None.
Proof. unfold fs_exists. destruct (d p); split; congruence. Qed.

Lemma keeps_refl d : keeps d d.
Proof. intros p _. reflexivity. Qed.

Lemma keeps_grows d d' : keeps d d' -> grows d d'.
Proof. intros H p Hp. unfold fs_exists in *. now rewrite (H p Hp). Qed.

Lemma keeps_trans d1 d2 d3 : keeps d1 d2 -> keeps d2 d3 -> keeps d1 d3.
Proof.
  intros H12 H23 p Hp. rewrite <- (H12 p Hp). apply H23.
  now apply (keeps_grows _ _ H12).
Qed.

Lemma grows_trans d1 d2 d3 : grows d1 d2 -> grows d2 d3 -> grows d1 d3.
Proof. intros H12 H23 p Hp. auto. Qed.

Lemma fresh_ok_refl E d : fresh_ok E d d.
Proof. intros p Hp. now left. Qed.

Lemma fresh_ok_trans E d1 d2 d3 :
  fresh_ok E d1 d2 -> fresh_ok E d2 d3 -> fresh_ok E d1 d3.
Proof.
  intros H12 H23 p Hp. destruct (H23 p Hp) as [H|H]; [auto | now right].
Qed.

Lemma fresh_ok_grows_l E d1 d1' d2 :
  fresh_ok E d1 d2 -> grows d1 d1' -> fresh_ok E d1' d2.
Proof. intros H Hg p Hp. destruct (H p Hp); auto. Qed.

Arguments fs_set d p e q : simpl never.
Arguments fs_exists d p : simpl never.
Arguments path_join a b : simpl never.
Arguments basename p : simpl never.
Arguments locate s : simpl never.

(** Unfolding of the monad's operations. *)
Ltac run :=
  unfold bind, ret, raise, lift, try_except, print, os_path_exists,
    session_get, time_sleep, emit, with_disk, with_total in *;
  simpl in *.

Section Steps.

Variable E : Env.

Lemma write_chunks_run p : forall b n st d,
  disk st p = Some (File d) ->
  fst (write_chunks E p n b st)
  = match stream_error E p n b with None => Ret tt | Some e => Raise e end
  /\ disk (snd (write_chunks E p n b st)) p
     = Some (File (d ++ written E p n b))
  /\ (forall q, q <> p -> disk (snd (write_chunks E p n b st)) q = disk st q)
  /\ total_downloaded (snd (write_chunks E p n b st)) = total_downloaded st
  /\ log (snd (write_chunks E p n b st)) = log st.
Proof.
  induction b as [|chunk rest IH|e]; intros n st d Hd; simpl.
  - rewrite append_nil_r. auto.
  - unfold bind, f_write. destruct (write_fails E p n) as [e|]; simpl.
    + rewrite append_nil_r. auto.
    + rewrite Hd.
      set (st1 := with_disk st (fs_set (disk st) p (File (d ++ chunk)))).
      destruct (IH (S n) st1 (d ++ chunk)%string) as (H1 & H2 & H3 & H4 & H5).
      { apply fs_set_same. }
      rewrite H1, H2, H4, H5, append_assoc. repeat split; try reflexivity.
      intros q Hq. rewrite (H3 q Hq). now apply fs_set_other.
  - rewrite append_nil_r. auto.
Qed.

Lemma print_ok m st :
  print_error E m = None -> print E m st = (Ret tt, emit st (Print m)).
Proof. intros H. unfold print. now rewrite H. Qed.

Lemma print_disk m st : disk (snd (print E m st)) = disk st.
Proof. unfold print. now destruct (print_error E m). Qed.

Lemma print_total m st :
  total_downloaded (snd (print E m st)) = total_downloaded st.
Proof. unfold print. now destruct (print_error E m). Qed.

Lemma print_log m st :
  exists tail, log (snd (print E m st)) = log st ++ tail /\ requests tail = [].
Proof.
  unfold print. destruct (print_error E m).
  - exists []. now rewrite app_nil_r.
  - now exists [Print m].
Qed.

(** What one guarded fetch does, by the answer of the site and of the
    operating system; where an error line is called for, what becomes of
    it is up to the standard output. *)
Lemma fetch_and_save_run u p st :
  disk st p = None ->
  (forall q, q <> p -> disk (snd (fetch_and_save E u p st)) q = disk st q)
  /\ match http E (JStr u) with
     | Raise e =>
         fetch_and_save E u p st
         = print E (MErrorDownloading u e) (emit st (Get (JStr u)))
     | Ret resp =>
         if Z.eqb (status_code resp) 200
         then match os_refuses E p with
              | Some e =>
                  fetch_and_save E u p st
                  = print E (MErrorDownloading u e) (emit st (Get (JStr u)))
              | None =>
                  disk (snd (fetch_and_save E u p st)) p
                  = Some (File (written E p 0 (body resp)))
                  /\ match stream_error E p 0 (body resp) with
                     | None =>
                         fst (fetch_and_save E u p st) = Ret tt
                         /\ total_downloaded (snd (fetch_and_save E u p st))
                            = total_downloaded st + 1
                         /\ log (snd (fetch_and_save E u p st))
                            = log st ++ [Get (JStr u)]
                     | Some e =>
                         exists st_w,
                           fetch_and_save E u p st
                           = print E (MErrorDownloading u e) st_w
                           /\ total_downloaded st_w = total_downloaded st
                           /\ log st_w = log st ++ [Get (JStr u)]
                     end
              end
         else fetch_and_save E u p st = (Ret tt, emit st (Get (JStr u)))
     end.
Proof.
  intros Hp. unfold fetch_and_save, try_except, bind, session_get.
  destruct (http E (JStr u)) as [resp|e]; cbn [fst snd].
  2:{ split; [|reflexivity]. intros q _. now rewrite print_disk. }
  destruct (Z.eqb (status_code resp) 200); cbn [fst snd].
  2:{ split; [|reflexivity]. intros q _. reflexivity. }
  unfold open_wb. cbn [disk emit]. rewrite Hp.
  destruct (os_refuses E p) as [e|]; cbn [fst snd].
  { split; [|reflexivity]. intros q _. now rewrite print_disk. }
  set (st1 := with_disk (emit st (Get (JStr u))) (fs_set (disk st) p (File ""))).
  change (with_disk _ _) with st1.
  destruct (write_chunks_run p (body resp) 0 st1 EmptyString)
    as (H1 & H2 & H3 & H4 & H5).
  { apply fs_set_same. }
  cbn [append] in H2.
  destruct (write_chunks E p 0 (body resp) st1) as [r st2] eqn:Hw.
  cbn [fst snd] in H1, H2, H3, H4, H5. subst r.
  destruct (stream_error E p 0 (body resp)) as [e|]; cbn [fst snd].
  - split; [|split].
    + intros q Hq. rewrite print_disk, (H3 q Hq). now apply fs_set_other.
    + now rewrite print_disk.
    + exists st2. split; [reflexivity|]. split; [exact H4|]. exact H5.
  - split; [|split; [exact H2|]].
    + intros q Hq. cbn [disk with_total]. rewrite (H3 q Hq).
      now apply fs_set_other.
    + split; [reflexivity|]. split; [cbn; now rewrite H4 | exact H5].
Qed.

(** The same when the standard output takes the error line. *)
Lemma fetch_and_save_run_ok u p st :
  (forall e, print_error E (MErrorDownloading u e) = None) ->
  disk st p = None ->
  fst (fetch_and_save E u p st) = Ret tt
  /\ (forall q, q <> p -> disk (snd (fetch_and_save E u p st)) q = disk st q)
  /\ match http E (JStr u) with
     | Raise e =>
         snd (fetch_and_save E u p st)
         = emit (emit st (Get (JStr u))) (Print (MErrorDownloading u e))
     | Ret resp =>
         if Z.eqb (status_code resp) 200
         then match os_refuses E p with
              | Some e =>
                  snd (fetch_and_save E u p st)
                  = emit (emit st (Get (JStr u)))
                         (Print (MErrorDownloading u e))
              | None =>
                  disk (snd (fetch_and_save E u p st)) p
                  = Some (File (written E p 0 (body resp)))
                  /\ match stream_error E p 0 (body resp) with
                     | None =>
                         total_downloaded (snd (fetch_and_save E u p st))
                         = total_downloaded st + 1
                         /\ log (snd (fetch_and_save E u p st))
                            = log st ++ [Get (JStr u)]
                     | Some e =>
                         total_downloaded (snd (fetch_and_save E u p st))
                         = total_downloaded st
                         /\ log (snd (fetch_and_save E u p st))
                            = log st ++ [Get (JStr u);
                                         Print (MErrorDownloading u e)]
                     end
              end
         else snd (fetch_and_save E u p st) = emit st (Get (JStr u))
     end.
Proof.
  intros Hpr Hp. destruct (fetch_and_save_run u p st Hp) as (Hframe & Hc).
  destruct (http E (JStr u)) as [resp|e].
  2:{ rewrite Hc, (print_ok _ _ (Hpr e)). auto. }
  destruct (Z.eqb (status_code resp) 200).
  2:{ rewrite Hc. auto. }
  destruct (os_refuses E p) as [e|].
  { rewrite Hc, (print_ok _ _ (Hpr e)). auto. }
  destruct Hc as [Hd Hc].
  destruct (stream_error E p 0 (body resp)) as [e|].
  - destruct Hc as (st_w & Hrun & Ht & Hl).
    rewrite Hrun, (print_ok _ _ (Hpr e)) in *. cbn [fst snd] in *.
    repeat split; try assumption.
    unfold emit. cbn [log]. rewrite Hl. now rewrite <- app_assoc.
  - destruct Hc as (Hr & Ht & Hl). auto.
Qed.

Lemma download_image_run link dir c st :
  download_image E link dir c st
  = match target E link dir c with
    | Raise e => (Raise e, st)
    | Ret (img_url, filepath) =>
        if fs_exists (disk st) filepath then (Ret tt, st)
        else fetch_and_save E img_url filepath st
    end.
Proof.
  unfold download_image, target, bind, lift, os_path_exists, ret.
  destruct (resolve E link c) as [img|e]; [|reflexivity].
  destruct (urlparse_path E img) as [path|e]; [|reflexivity].
  now destruct (fs_exists (disk st) (path_join dir (basename path))).
Qed.

End Steps.

(** ** Invariants carried through the control flow *)

Section Preserves.

Variable R : state -> state -> Prop.
Hypothesis R_refl : forall st, R st st.
Hypothesis R_trans : forall a b c, R a b -> R b c -> R a c.

Lemma preserves_ret {A} (a : A) : preserves R (ret a).
Proof. intros st. apply R_refl. Qed.

Lemma preserves_raise {A} e : preserves R (@raise A e).
Proof. intros st. apply R_refl. Qed.

Lemma preserves_lift {A} (r : exc A) : preserves R (lift r).
Proof. intros st. apply R_refl. Qed.

Lemma preserves_exists p : preserves R (os_path_exists p).
Proof. intros st. apply R_refl. Qed.

Lemma preserves_bind {A B} (m : M A) (k : A -> M B) :
  preserves R m -> (forall a, preserves R (k a)) -> preserves R (bind m k).
Proof.
  intros Hm Hk st. unfold bind. specialize (Hm st).
  destruct (m st) as [[a|e] st1]; simpl in *; [|assumption].
  eapply R_trans; [exact Hm | apply Hk].
Qed.

Lemma preserves_try {A} (m : M A) (h : string -> M A) :
  preserves R m -> (forall e, preserves R (h e)) ->
  preserves R (try_except m h).
Proof.
  intros Hm Hh st. unfold try_except. specialize (Hm st).
  destruct (m st) as [[a|e] st1]; simpl in *; [assumption|].
  eapply R_trans; [exact Hm | apply Hh].
Qed.

Lemma preserves_for_each {A} (f : A -> M unit) l :
  (forall x, preserves R (f x)) -> preserves R (for_each f l).
Proof.
  intros Hf. induction l as [|x l IH]; simpl.
  - apply preserves_ret.
  - apply preserves_bind; [apply Hf | intros _; exact IH].
Qed.

Lemma makedirs_eq E k name :
  makedirs E k name
  = let (head0, tail0) := path_split name in
    let (head, tail) :=
      if tail0 =? "" then path_split head0 else (head0, tail0) in
    if negb (head =? "") && negb (tail =? "")
    then
      bind (os_path_exists head) (fun ex =>
      if ex then os_mkdir E name
      else
        match k with
        | O => raise "RecursionError"
        | S k' =>
            bind (try_except (makedirs E k' head)
                    (fun e => if e =? "FileExistsError" then ret tt
                              else raise e))
                 (fun _ => if tail =? "." then ret tt else os_mkdir E name)
        end)
    else os_mkdir E name.
Proof. destruct k; reflexivity. Qed.

Lemma preserves_makedirs E :
  (forall p, preserves R (os_mkdir E p)) ->
  forall k name, preserves R (makedirs E k name).
Proof.
  intros Hmk. induction k as [|k IH]; intros name; rewrite makedirs_eq;
    destruct (path_split name) as [head0 tail0];
    destruct (if tail0 =? "" then path_split head0 else (head0, tail0))
      as [head tail];
    (destruct (negb (head =? "") && negb (tail =? "")); [|apply Hmk]);
    (apply preserves_bind; [apply preserves_exists|]);
    intros [|]; try apply Hmk.
  - apply preserves_raise.
  - apply preserves_bind.
    + apply preserves_try; [apply IH|].
      intros e. destruct (e =? "FileExistsError");
        [apply preserves_ret | apply preserves_raise].
    + intros _. destruct (tail =? "."); [apply preserves_ret | apply Hmk].
Qed.

End Preserves.

Lemma disk_safe_refl E st : disk_safe E st st.
Proof. split; [apply keeps_refl | apply fresh_ok_refl]. Qed.

Lemma disk_safe_trans E a b c :
  disk_safe E a b -> disk_safe E b c -> disk_safe E a c.
Proof.
  intros [K1 F1] [K2 F2]. split.
  - eapply keeps_trans; eassumption.
  - eapply fresh_ok_trans; eassumption.
Qed.

Lemma disk_safe_same_disk E st st' : disk st' = disk st -> disk_safe E st st'.
Proof.
  intros H. unfold disk_safe. rewrite H.
  split; [apply keeps_refl | apply fresh_ok_refl].
Qed.

Lemma no_sleep_refl st : no_sleep st st.
Proof. reflexivity. Qed.

Lemma no_sleep_trans a b c : no_sleep a b -> no_sleep b c -> no_sleep a c.
Proof. unfold no_sleep. congruence. Qed.

Lemma sleeps_app l1 l2 : sleeps (l1 ++ l2) = sleeps l1 + sleeps l2.
Proof. unfold sleeps. now rewrite filter_app, length_app. Qed.

Lemma requests_app l1 l2 : requests (l1 ++ l2) = requests l1 ++ requests l2.
Proof. unfold requests. apply flat_map_app. Qed.

Create HintDb crawl.

#[local] Hint Resolve disk_safe_refl disk_safe_trans no_sleep_refl
  no_sleep_trans : crawl.

Section Invariants.

Variable E : Env.

Lemma print_safe m : preserves (disk_safe E) (print E m).
Proof. intros st. apply disk_safe_same_disk, print_disk. Qed.

Lemma print_no_sleep m : preserves no_sleep (print E m).
Proof.
  intros st. unfold no_sleep, print. destruct (print_error E m);
    [reflexivity|]. unfold emit. simpl.
  rewrite sleeps_app. change (sleeps [_]) with 0. lia.
Qed.

Lemma session_get_safe u : preserves (disk_safe E) (session_get E u).
Proof. intros st. now apply disk_safe_same_disk. Qed.

Lemma session_get_no_sleep u : preserves no_sleep (session_get E u).
Proof.
  intros st. unfold no_sleep, session_get, emit. simpl.
  rewrite sleeps_app. change (sleeps [_]) with 0. lia.
Qed.

Lemma time_sleep_disk d st : disk (snd (time_sleep E d st)) = disk st.
Proof. unfold time_sleep. now destruct (sleep_error E d). Qed.

Lemma time_sleep_safe d : preserves (disk_safe E) (time_sleep E d).
Proof. intros st. apply disk_safe_same_disk, time_sleep_disk. Qed.

Lemma os_mkdir_safe p : preserves (disk_safe E) (os_mkdir E p).
Proof.
  intros st. unfold os_mkdir.
  destruct (disk st p) as [e|] eqn:Hp; [apply disk_safe_refl|].
  destruct (os_refuses E p) as [e|] eqn:Hr; [apply disk_safe_refl|].
  unfold disk_safe, with_disk. cbn [snd disk]. split.
  - intros q Hq. apply fs_set_other. intros ->.
    unfold fs_exists in Hq. now rewrite Hp in Hq.
  - intros q Hq. destruct (String.eqb_spec q p) as [->|Hn]; [now right|].
    left. unfold fs_exists in *. now rewrite fs_set_other in Hq.
Qed.

Lemma os_makedirs_safe p : preserves (disk_safe E) (os_makedirs E p).
Proof.
  apply preserves_makedirs; eauto with crawl. apply os_mkdir_safe.
Qed.

Lemma os_mkdir_no_sleep p : preserves no_sleep (os_mkdir E p).
Proof.
  intros st. unfold os_mkdir.
  destruct (disk st p); [reflexivity|].
  destruct (os_refuses E p); reflexivity.
Qed.

Lemma os_makedirs_no_sleep p : preserves no_sleep (os_makedirs E p).
Proof.
  apply preserves_makedirs; eauto with crawl. apply os_mkdir_no_sleep.
Qed.

Lemma fetch_and_save_safe u p st :
  disk st p = None -> disk_safe E st (snd (fetch_and_save E u p st)).
Proof.
  intros Hp. destruct (fetch_and_save_run E u p st Hp) as (Hframe & Hc).
  split.
  - intros q Hq. apply Hframe. intros ->.
    unfold fs_exists in Hq. now rewrite Hp in Hq.
  - intros q Hq. destruct (String.eqb_spec q p) as [->|Hn].
    + right.
      assert (Hno : forall m st0,
                fetch_and_save E u p st = print E m st0 ->
                disk st0 = disk st -> False).
      { intros m st0 Hrun Hd. rewrite Hrun, print_disk, Hd in Hq.
        unfold fs_exists in Hq. now rewrite Hp in Hq. }
      destruct (http E (JStr u)) as [resp|e];
        [|now destruct (Hno _ _ Hc eq_refl)].
      destruct (Z.eqb (status_code resp) 200).
      * destruct (os_refuses E p); [|reflexivity].
        now destruct (Hno _ _ Hc eq_refl).
      * rewrite Hc in Hq. unfold fs_exists in Hq. simpl in Hq.
        now rewrite Hp in Hq.
    + left. unfold fs_exists in *. now rewrite (Hframe q Hn) in Hq.
Qed.

Lemma download_image_safe link dir c :
  preserves (disk_safe E) (download_image E link dir c).
Proof.
  intros st. rewrite download_image_run.
  destruct (target E link dir c) as [[img p]|e]; [|apply disk_safe_refl].
  destruct (fs_exists (disk st) p) eqn:Hp; [apply disk_safe_refl|].
  apply fetch_and_save_safe. now apply fs_exists_false.
Qed.

Lemma write_chunks_no_sleep p : forall b n,
  preserves no_sleep (write_chunks E p n b).
Proof.
  induction b as [|chunk rest IH|e]; intros n; simpl.
  - apply preserves_ret, no_sleep_refl.
  - apply preserves_bind; eauto with crawl.
    intros st. unfold f_write.
    destruct (write_fails E p n); [reflexivity|].
    destruct (disk st p) as [[|d]|]; reflexivity.
  - apply preserves_raise, no_sleep_refl.
Qed.

Lemma fetch_and_save_no_sleep u p :
  preserves no_sleep (fetch_and_save E u p).
Proof.
  unfold fetch_and_save.
  apply preserves_try; eauto with crawl; [|intros e; apply print_no_sleep].
  apply preserves_bind; eauto with crawl; [apply session_get_no_sleep|].
  intros r. destruct (Z.eqb (status_code r) 200);
    [|apply preserves_ret, no_sleep_refl].
  apply preserves_bind; eauto with crawl.
  - intros st. unfold open_wb.
    destruct (disk st p) as [[|d]|]; try reflexivity.
    destruct (os_refuses E p); reflexivity.
  - intros _. apply preserves_bind; eauto with crawl.
    + apply write_chunks_no_sleep.
    + intros _ st. reflexivity.
Qed.

Lemma download_image_no_sleep link dir c :
  preserves no_sleep (download_image E link dir c).
Proof.
  unfold download_image.
  apply preserves_bind; eauto with crawl;
    [apply preserves_lift, no_sleep_refl|]. intros img.
  apply preserves_bind; eauto with crawl;
    [apply preserves_lift, no_sleep_refl|]. intros path.
  apply preserves_bind; eauto with crawl;
    [apply preserves_exists, no_sleep_refl|]. intros ex.
  destruct ex; [apply preserves_ret, no_sleep_refl|].
  apply fetch_and_save_no_sleep.
Qed.

Lemma download_all_safe out link slug imgs :
  preserves (disk_safe E) (download_all E out link slug imgs).
Proof.
  unfold download_all. destruct imgs as [|x imgs].
  - apply preserves_ret, disk_safe_refl.
  - apply preserves_bind; eauto with crawl; [apply print_safe|].
    intros _. apply preserves_bind; eauto with crawl.
    + destruct slug; first [apply preserves_ret | apply preserves_raise];
        apply disk_safe_refl.
    + intros dir. apply preserves_bind; eauto with crawl.
      * apply preserves_exists, disk_safe_refl.
      * intros ex. apply preserves_bind; eauto with crawl.
        -- destruct ex; [apply preserves_ret, disk_safe_refl
                        | apply os_makedirs_safe].
        -- intros _. apply preserves_for_each; eauto with crawl.
           intros c. apply download_image_safe.
Qed.

Lemma download_all_no_sleep out link slug imgs :
  preserves no_sleep (download_all E out link slug imgs).
Proof.
  unfold download_all. destruct imgs as [|x imgs].
  - apply preserves_ret, no_sleep_refl.
  - apply preserves_bind; eauto with crawl; [apply print_no_sleep|].
    intros _. apply preserves_bind; eauto with crawl.
    + destruct slug; first [apply preserves_ret | apply preserves_raise];
        apply no_sleep_refl.
    + intros dir. apply preserves_bind; eauto with crawl.
      * apply preserves_exists, no_sleep_refl.
      * intros ex. apply preserves_bind; eauto with crawl.
        -- destruct ex; [apply preserves_ret, no_sleep_refl
                        | apply os_makedirs_no_sleep].
        -- intros _. apply preserves_for_each; eauto with crawl.
           intros c. apply download_image_no_sleep.
Qed.

Lemma scan_post_safe out delay link slug :
  preserves (disk_safe E) (scan_post E out delay link slug).
Proof.
  unfold scan_post.
  apply preserves_bind; eauto with crawl; [apply session_get_safe|].
  intros r. destruct (negb (Z.eqb (status_code r) 200)); [apply print_safe|].
  apply preserves_bind; eauto with crawl; [apply download_all_safe|].
  intros _. apply time_sleep_safe.
Qed.

Lemma process_post_safe out delay n i post :
  preserves (disk_safe E) (process_post E out delay n i post).
Proof.
  unfold process_post.
  apply preserves_bind; eauto with crawl;
    [apply preserves_lift, disk_safe_refl|].
  intros [[link title] slug].
  destruct (negb (truthy link)); [apply preserves_ret, disk_safe_refl|].
  apply preserves_bind; eauto with crawl; [apply print_safe|].
  intros _. apply preserves_try; eauto with crawl.
  - apply scan_post_safe.
  - intros e. apply print_safe.
Qed.

Lemma scan_posts_safe out delay n posts : forall i,
  preserves (disk_safe E) (scan_posts E out delay n i posts).
Proof.
  induction posts as [|post rest IH]; intros i; simpl.
  - apply preserves_ret, disk_safe_refl.
  - apply preserves_bind; eauto with crawl.
    apply process_post_safe.
Qed.

(** A run never changes or removes what is on disk, and creates nothing
    where the operating system refuses. *)
Lemma scrape_safe posts out delay :
  preserves (disk_safe E) (scrape_ngg_images E posts out delay).
Proof.
  unfold scrape_ngg_images.
  apply preserves_bind; eauto with crawl;
    [apply preserves_exists, disk_safe_refl|].
  intros ex. apply preserves_bind; eauto with crawl.
  { destruct ex; [apply preserves_ret, disk_safe_refl|apply os_makedirs_safe]. }
  intros _. apply preserves_bind; eauto with crawl; [apply print_safe|].
  intros _. apply preserves_bind; eauto with crawl.
  { intros st. now apply disk_safe_same_disk. }
  intros _. apply preserves_bind; eauto with crawl; [apply scan_posts_safe|].
  intros _ st. apply disk_safe_same_disk, print_disk.
Qed.

End Invariants.
(** ** Paths made of plain names *)

Lemma plain_name_spec s :
  plain_name s = true ->
  s <> "" /\ contains "/" s = false /\ s <> "." /\ s <> "..".
Proof.
  unfold plain_name. rewrite !andb_true_iff, !negb_true_iff.
  intros [[[H1 H2] H3] H4]. repeat split; try assumption;
    now apply String.eqb_neq.
Qed.

Lemma prefix_nil s : String.prefix "" s = true.
Proof. now destruct s. Qed.

Lemma prefix_app a : forall b, String.prefix a (a ++ b) = true.
Proof.
  induction a as [|c a IH]; intros b; cbn [append String.prefix];
    [apply prefix_nil|].
  destruct (ascii_dec c c); [apply IH | congruence].
Qed.

Lemma prefix_split a : forall s,
  String.prefix a s = true -> exists r, s = (a ++ r)%string.
Proof.
  induction a as [|c a IH]; intros s H.
  - now exists s.
  - destruct s as [|c' s]; [discriminate H|]. cbn [String.prefix] in H.
    destruct (ascii_dec c c') as [<-|]; [|discriminate H].
    destruct (IH s H) as [r ->]. now exists r.
Qed.

Lemma contains_app_r n a : forall b,
  contains n b = true -> contains n (a ++ b) = true.
Proof.
  induction a as [|c a IH]; intros b H; simpl; [exact H|].
  rewrite (IH b H). apply orb_true_r.
Qed.

Lemma no_slash_cons c t :
  contains "/" (String c t) = false -> c <> "/"%char /\ contains "/" t = false.
Proof.
  cbn [contains String.prefix]. intros H.
  apply orb_false_iff in H. destruct H as [H1 H2].
  split; [|exact H2]. intros ->.
  destruct (ascii_dec "/" "/"); [|congruence]. now rewrite prefix_nil in H1.
Qed.

Lemma no_slash_not_absolute f :
  contains "/" f = false -> startswith "/" f = false.
Proof.
  unfold startswith. destruct f as [|c f]; [reflexivity|].
  cbn [contains]. intros H. apply orb_false_iff in H. tauto.
Qed.

Lemma no_slash_upto s : contains "/" s = false -> upto_last_slash s = "".
Proof.
  induction s as [|c t IH]; intros H; [reflexivity|].
  cbn [contains String.prefix] in H. apply orb_false_iff in H.
  destruct H as [Hc Ht]. cbn [upto_last_slash]. rewrite (IH Ht).
  destruct (Ascii.eqb_spec c "/") as [->|Hn]; [|reflexivity].
  destruct (ascii_dec "/" "/"); [|congruence].
  destruct t; discriminate Hc.
Qed.

Lemma upto_last_slash_join a s :
  contains "/" s = false ->
  upto_last_slash (a ++ "/" ++ s) = (a ++ "/")%string.
Proof.
  intros Hs. induction a as [|c a IH].
  - cbn [append upto_last_slash]. now rewrite (no_slash_upto s Hs).
  - cbn [append upto_last_slash]. cbn [append] in IH. rewrite IH.
    destruct a; reflexivity.
Qed.

Lemma after_last_slash_cur s : forall cur,
  contains "/" s = false -> after_last_slash cur s = cur.
Proof.
  induction s as [|c t IH]; intros cur H; [reflexivity|].
  cbn [contains String.prefix] in H. apply orb_false_iff in H.
  destruct H as [Hc Ht]. cbn [after_last_slash].
  destruct (Ascii.eqb_spec c "/") as [->|Hn]; [|now apply IH].
  destruct (ascii_dec "/" "/"); [|congruence].
  destruct t; discriminate Hc.
Qed.

Lemma after_last_slash_join a s : forall cur,
  contains "/" s = false ->
  after_last_slash cur (a ++ "/" ++ s) = s.
Proof.
  intros cur Hs. revert cur. induction a as [|c a IH]; intros cur.
  - cbn [append after_last_slash Ascii.eqb Bool.eqb].
    now apply after_last_slash_cur.
  - cbn [append after_last_slash].
    destruct (Ascii.eqb c "/"); apply IH.
Qed.

Lemma rstrip_slash_join a : rstrip_slash (a ++ "/") = rstrip_slash a.
Proof.
  induction a as [|c a IH]; [reflexivity|].
  cbn [append rstrip_slash]. now rewrite IH.
Qed.

Lemma rstrip_slash_id a :
  ends_with_slash a = false -> rstrip_slash a = a.
Proof.
  induction a as [|c a IH]; intros H; [reflexivity|].
  cbn [rstrip_slash]. destruct a as [|d a].
  - cbn [ends_with_slash] in H. cbn [rstrip_slash]. now rewrite H.
  - rewrite IH by exact H. reflexivity.
Qed.

Lemma path_join_plain out s :
  out <> "" -> ends_with_slash out = false -> contains "/" s = false ->
  path_join out s = (out ++ "/" ++ s)%string.
Proof.
  intros Ho He Hs. unfold path_join.
  rewrite (no_slash_not_absolute s Hs), He.
  apply String.eqb_neq in Ho. now rewrite Ho.
Qed.

(** Of the folder of a post with a plain slug, the head is the output
    folder and the tail the slug. *)
Lemma path_split_join out s :
  out <> "" -> ends_with_slash out = false -> plain_name s = true ->
  path_split (path_join out s) = (out, s).
Proof.
  intros Ho He Hs. apply plain_name_spec in Hs.
  destruct Hs as (_ & Hs & _).
  rewrite (path_join_plain out s Ho He Hs). unfold path_split, basename.
  rewrite (upto_last_slash_join out s Hs), (after_last_slash_join out s _ Hs).
  rewrite rstrip_slash_join, (rstrip_slash_id out He).
  apply String.eqb_neq in Ho. now rewrite Ho.
Qed.

(** With the output folder in place, [os.makedirs] of such a folder is
    [os.mkdir]. *)
Lemma makedirs_plain E out s st :
  out <> "" -> ends_with_slash out = false -> plain_name s = true ->
  fs_exists (disk st) out = true ->
  os_makedirs E (path_join out s) st = os_mkdir E (path_join out s) st.
Proof.
  intros Ho He Hs Hex. unfold os_makedirs. rewrite makedirs_eq.
  rewrite (path_split_join out s Ho He Hs).
  apply plain_name_spec in Hs. destruct Hs as (Hne & _).
  apply String.eqb_neq in Ho, Hne. cbv beta iota. rewrite Hne.
  cbv beta iota. rewrite Ho, Hne. cbn [negb andb].
  unfold bind, os_path_exists. now rewrite Hex.
Qed.

Lemma components_nonempty p : components p <> [].
Proof.
  destruct p as [|c t]; cbn [components]; [discriminate|].
  destruct (Ascii.eqb c "/"); [discriminate|].
  destruct (components t); discriminate.
Qed.

Lemma components_single_empty p : components p = [""] -> p = "".
Proof.
  destruct p as [|c t]; [reflexivity|]. cbn [components].
  destruct (Ascii.eqb c "/").
  - intros H. injection H as H. now destruct (components_nonempty t).
  - destruct (components t); discriminate.
Qed.

Lemma ends_with_slash_last p :
  ends_with_slash p = true -> last (components p) "x" = "".
Proof.
  induction p as [|c t IH]; [discriminate|].
  cbn [ends_with_slash components]. destruct t as [|d t].
  - intros H. now rewrite H.
  - intros H. specialize (IH H).
    destruct (Ascii.eqb c "/").
    + pose proof (components_nonempty (String d t)) as Hne.
      destruct (components (String d t)) as [|x rest];
        [now destruct Hne|]. exact IH.
    + destruct (components (String d t)) as [|x rest] eqn:Hc;
        [now destruct (components_nonempty (String d t))|].
      destruct rest as [|y rest]; [|exact IH].
      cbn [last] in IH. subst x.
      apply components_single_empty in Hc. discriminate Hc.
Qed.

Lemma plain_components p :
  forallb plain_name (components p) = true ->
  p <> "" /\ ends_with_slash p = false.
Proof.
  intros H. split.
  - intros ->. discriminate H.
  - destruct (ends_with_slash p) eqn:He; [|reflexivity].
    apply ends_with_slash_last in He.
    rewrite forallb_forall in H.
    assert (Hin : In (last (components p) "x") (components p)).
    { pose proof (components_nonempty p) as Hne.
      destruct (exists_last Hne) as (l & a & ->).
      rewrite last_last. apply in_or_app. right. now left. }
    rewrite He in Hin. apply H in Hin. discriminate Hin.
Qed.

Lemma plain_path_spec p :
  plain_path p = true -> p <> "" /\ ends_with_slash p = false.
Proof.
  unfold plain_path. destruct p as [|c t]; [discriminate|].
  destruct (Ascii.eqb_spec c "/") as [->|Hn].
  - assert (Hroot : forallb plain_name (components t) = true ->
                    String "/" t <> "" /\ ends_with_slash (String "/" t) = false).
    { intros H. apply plain_components in H. destruct H as [Hne He].
      split; [discriminate|]. cbn [ends_with_slash].
      destruct t; [now destruct Hne | exact He]. }
    exact Hroot.
  - intros H.
    assert (Hall : forallb plain_name (components (String c t)) = true).
    { destruct c as [[] [] [] [] [] [] [] []]; try exact H.
      now destruct Hn. }
    now apply plain_components.
Qed.
(** ** One post, step by step *)

Lemma scan_post_run E out delay link slug st :
  scan_post E out delay link slug st
  = match http E link with
    | Raise e => (Raise e, emit st (Get link))
    | Ret r =>
        if Z.eqb (status_code r) 200
        then match download_all E out link slug (locate (content r))
                     (emit st (Get link)) with
             | (Ret _, st') => time_sleep E delay st'
             | (Raise e, st') => (Raise e, st')
             end
        else print E (MFailedFetch link (status_code r)) (emit st (Get link))
    end.
Proof.
  unfold scan_post, bind, session_get. cbn [fst snd].
  destruct (http E link) as [r|e]; [|reflexivity].
  destruct (Z.eqb (status_code r) 200); cbn [negb]; [|reflexivity].
  destruct (download_all E out link slug _ _) as [[[]|e] st']; reflexivity.
Qed.

Lemma process_post_run E out delay n i post st :
  process_post E out delay n i post st
  = match post_fields E post with
    | Raise e => (Raise e, st)
    | Ret (link, title, slug) =>
        if truthy link
        then match print E (MScanning (i + 1) n title) st with
             | (Raise e, st0) => (Raise e, st0)
             | (Ret _, st0) =>
                 match scan_post E out delay link slug st0 with
                 | (Ret _, st') => (Ret tt, st')
                 | (Raise e, st') => print E (MErrorProcessing e) st'
                 end
             end
        else (Ret tt, st)
    end.
Proof.
  unfold process_post, bind, lift, try_except, ret.
  destruct (post_fields E post) as [[[link title] slug]|e]; [|reflexivity].
  destruct (truthy link); cbn [negb]; [|reflexivity].
  destruct (print E (MScanning (i + 1) n title) st) as [[[]|e] st0];
    [|reflexivity].
  destruct (scan_post E out delay link slug st0) as [[[]|e] st'];
    reflexivity.
Qed.

(** The folder of the post and the loop over the candidates, when the
    standard output takes the line that counts them. *)
Lemma download_all_run E out link slug x imgs st :
  print_error E (MPotential (List.length (x :: imgs))) = None ->
  download_all E out link slug (x :: imgs) st
  = let st0 := emit st (Print (MPotential (List.length (x :: imgs)))) in
    match slug with
    | JStr s =>
        match (if fs_exists (disk st) (path_join out s) then (Ret tt, st0)
               else os_makedirs E (path_join out s) st0) with
        | (Ret _, st1) =>
            for_each (download_image E link (path_join out s))
                     (set_iter E (x :: imgs)) st1
        | (Raise e, st1) => (Raise e, st1)
        end
    | _ => (Raise "TypeError", st0)
    end.
Proof.
  intros Hpr. unfold download_all, bind. rewrite (print_ok E _ _ Hpr).
  destruct slug as [| | |s| |]; try reflexivity.
  unfold ret, os_path_exists. cbn [disk emit fst snd].
  destruct (fs_exists (disk st) (path_join out s)); [reflexivity|].
  destruct (os_makedirs E (path_join out s) _) as [[[]|e] st1]; reflexivity.
Qed.

(** ** Running a second time *)

Section Second.

Variable E : Env.

Lemma print_ret m st : fst (print E m st) = Ret tt -> print_error E m = None.
Proof. unfold print. now destruct (print_error E m). Qed.

(** A guarded fetch that returned and left no file does the same on any
    disk without the file, and changes nothing there. *)
Lemma fetch_and_save_second u p st1 st2 :
  disk st1 p = None ->
  fst (fetch_and_save E u p st1) = Ret tt ->
  fs_exists (disk (snd (fetch_and_save E u p st1))) p = false ->
  disk st2 p = None ->
  exists st2',
    fetch_and_save E u p st2 = (Ret tt, st2')
    /\ disk st2' = disk st2
    /\ total_downloaded st2' = total_downloaded st2.
Proof.
  intros Hp Hret Hno Hp2.
  destruct (fetch_and_save_run E u p st1 Hp) as (_ & H1).
  destruct (fetch_and_save_run E u p st2 Hp2) as (_ & H2).
  assert (Hsame : forall m sa sb,
            fetch_and_save E u p st1 = print E m sa ->
            fetch_and_save E u p st2 = print E m sb ->
            disk sb = disk st2 -> total_downloaded sb = total_downloaded st2 ->
            exists st2',
              fetch_and_save E u p st2 = (Ret tt, st2')
              /\ disk st2' = disk st2
              /\ total_downloaded st2' = total_downloaded st2).
  { intros m sa sb Ha Hb Hd Ht. rewrite Ha in Hret.
    apply print_ret in Hret. rewrite Hb, (print_ok E m sb Hret).
    eexists. split; [reflexivity|]. split; assumption. }
  destruct (http E (JStr u)) as [resp|e];
    [|now apply (Hsame _ _ _ H1 H2)].
  destruct (Z.eqb (status_code resp) 200).
  - destruct (os_refuses E p) as [e|]; [now apply (Hsame _ _ _ H1 H2)|].
    destruct H1 as [H1 _]. unfold fs_exists in Hno.
    rewrite H1 in Hno. discriminate.
  - rewrite H2. eexists. split; [reflexivity|]. split; reflexivity.
Qed.

Lemma download_image_second link dir c st1 st2 :
  fst (download_image E link dir c st1) = Ret tt ->
  grows (disk (snd (download_image E link dir c st1))) (disk st2) ->
  exists st2',
    download_image E link dir c st2 = (Ret tt, st2')
    /\ disk st2' = disk st2
    /\ total_downloaded st2' = total_downloaded st2.
Proof.
  rewrite !download_image_run.
  destruct (target E link dir c) as [[img p]|e]; [|discriminate].
  intros Hret Hg.
  destruct (fs_exists (disk st2) p) eqn:H2; [exists st2; auto|].
  destruct (fs_exists (disk st1) p) eqn:H1.
  - cbn [snd] in Hg. apply Hg in H1. congruence.
  - assert (Hno : fs_exists (disk (snd (fetch_and_save E img p st1))) p
                  = false).
    { destruct (fs_exists (disk (snd (fetch_and_save E img p st1))) p)
        eqn:Hx; [|reflexivity].
      apply Hg in Hx. congruence. }
    apply fs_exists_false in H1, H2.
    exact (fetch_and_save_second img p st1 st2 H1 Hret Hno H2).
Qed.

Lemma for_each_grows link dir l st p :
  fs_exists (disk st) p = true ->
  fs_exists (disk (snd (for_each (download_image E link dir) l st))) p = true.
Proof.
  apply keeps_grows.
  apply (preserves_for_each _ (disk_safe_refl E) (disk_safe_trans E)
           (download_image E link dir) l (download_image_safe E link dir) st).
Qed.

Lemma for_each_visited link dir : forall l st,
  fst (for_each (download_image E link dir) l st) = Ret tt ->
  forall c, In c l ->
  exists st_c,
    fst (download_image E link dir c st_c) = Ret tt
    /\ grows (disk (snd (download_image E link dir c st_c)))
             (disk (snd (for_each (download_image E link dir) l st))).
Proof.
  induction l as [|c0 l IH]; intros st Hret c Hin; [destruct Hin|].
  simpl in Hret |- *. unfold bind in *.
  destruct (download_image E link dir c0 st) as [[[]|e] st1] eqn:H0;
    [|discriminate Hret].
  destruct Hin as [<-|Hin].
  - exists st. rewrite H0. split; [reflexivity|].
    intros p Hp. now apply for_each_grows.
  - now apply IH.
Qed.

(** A loop over candidates that returned, gone through again in any order
    on a disk that holds what it left. *)
Lemma for_each_second link dir l1 st1 : forall l2 st2,
  fst (for_each (download_image E link dir) l1 st1) = Ret tt ->
  incl l2 l1 ->
  grows (disk (snd (for_each (download_image E link dir) l1 st1))) (disk st2) ->
  exists st2',
    for_each (download_image E link dir) l2 st2 = (Ret tt, st2')
    /\ disk st2' = disk st2
    /\ total_downloaded st2' = total_downloaded st2.
Proof.
  induction l2 as [|c l2 IH]; intros st2 Hret Hincl Hg.
  - exists st2. auto.
  - assert (Hc : In c l1) by (apply Hincl; now left).
    destruct (for_each_visited link dir l1 st1 Hret c Hc) as (st_c & Hr & Hgc).
    destruct (download_image_second link dir c st_c st2 Hr)
      as (st2m & Hs & Hd & Ht).
    { eapply grows_trans; eassumption. }
    destruct (IH st2m Hret) as (st2' & Hs' & Hd' & Ht').
    { intros x Hx. apply Hincl. now right. }
    { now rewrite Hd. }
    exists st2'. simpl. unfold bind. rewrite Hs. split; [exact Hs'|].
    split; congruence.
Qed.

End Second.

Section Again.

Variable E : Env.
Variable order : pyset -> list string.

(** The standard output takes every line; the second process visits the
    sets in the order of the first, or in any order if no address makes
    lines 92-97 raise; the output folder has a name and no slash at its
    end. *)
Hypothesis Hstdout : stdout_ok E.
Hypothesis Horder :
  (forall s, order s = set_iter E s)
  \/ ((forall s, Permutation (order s) (set_iter E s)) /\ addresses_ok E).
Variable out : string.
Hypothesis Hname : out <> "".
Hypothesis Hend : ends_with_slash out = false.

Let E2 := with_order E order.

Lemma download_image_returns link dir c st :
  addresses_ok E -> fst (download_image E link dir c st) = Ret tt.
Proof.
  intros Hok. rewrite download_image_run. unfold target.
  destruct (Hok link c) as (img & path & -> & ->).
  destruct (fs_exists (disk st) (path_join dir (basename path))) eqn:Hx;
    [reflexivity|].
  apply fetch_and_save_run_ok; [intros e; apply Hstdout|].
  now apply fs_exists_false.
Qed.

Lemma for_each_returns link dir l : forall st,
  addresses_ok E -> fst (for_each (download_image E link dir) l st) = Ret tt.
Proof.
  induction l as [|c l IH]; intros st Hok; [reflexivity|].
  simpl. unfold bind.
  pose proof (download_image_returns link dir c st Hok) as Hc.
  destruct (download_image E link dir c st) as [[[]|e] st']; [|discriminate].
  now apply IH.
Qed.

Lemma download_image_again link dir c st1 st2 :
  grows (disk (snd (download_image E link dir c st1))) (disk st2) ->
  again (download_image E link dir c) (download_image E link dir c) st1 st2.
Proof.
  intros Hg. unfold again.
  destruct (fst (download_image E link dir c st1)) as [[]|e] eqn:Hret.
  - exact (download_image_second E link dir c st1 st2 Hret Hg).
  - rewrite download_image_run in Hret |- *.
    destruct (target E link dir c) as [[img p]|e'].
    + destruct (fs_exists (disk st1) p) eqn:H1; [discriminate Hret|].
      apply fs_exists_false in H1.
      pose proof (fetch_and_save_run_ok E img p st1
                    (fun e0 => Hstdout _) H1) as [Hr _].
      congruence.
    + exists st2. cbn [fst] in Hret. injection Hret as ->. auto.
Qed.

Lemma for_each_again link dir l : forall st1 st2,
  grows (disk (snd (for_each (download_image E link dir) l st1))) (disk st2) ->
  again (for_each (download_image E link dir) l)
        (for_each (download_image E link dir) l) st1 st2.
Proof.
  induction l as [|c l IH]; intros st1 st2 Hg.
  - exists st2. auto.
  - unfold again. simpl in *. unfold bind in *.
    pose proof (preserves_for_each _ (disk_safe_refl E) (disk_safe_trans E)
                  (download_image E link dir) l
                  (download_image_safe E link dir)) as Hsafe.
    destruct (download_image E link dir c st1) as [[[]|e] st1m] eqn:H1.
    + destruct (download_image_again link dir c st1 st2) as (st2m & Hs & Hd & Ht).
      { rewrite H1. simpl. eapply grows_trans; [|exact Hg].
        apply keeps_grows, (Hsafe st1m). }
      rewrite H1 in Hs. simpl in Hs.
      destruct (IH st1m st2m) as (st2' & Hs' & Hd' & Ht').
      { now rewrite Hd. }
      exists st2'. rewrite Hs. split; [exact Hs'|].
      split; congruence.
    + destruct (download_image_again link dir c st1 st2) as (st2m & Hs & Hd & Ht).
      { now rewrite H1. }
      rewrite H1 in Hs. simpl in Hs.
      exists st2m. now rewrite Hs.
Qed.

(** The loop over one set, in the order of each process. *)
Lemma loop_again link dir imgs st1 st2 :
  grows (disk (snd (for_each (download_image E link dir)
                      (set_iter E imgs) st1))) (disk st2) ->
  again (for_each (download_image E link dir) (set_iter E imgs))
        (for_each (download_image E link dir) (order imgs)) st1 st2.
Proof.
  intros Hg. destruct Horder as [Hsame|[Hperm Hok]].
  - rewrite Hsame. now apply for_each_again.
  - unfold again.
    rewrite (for_each_returns link dir (set_iter E imgs) st1 Hok).
    apply (for_each_second E link dir (set_iter E imgs) st1).
    + now apply for_each_returns.
    + intros x Hx. eapply Permutation_in; [apply Hperm | exact Hx].
    + exact Hg.
Qed.

Lemma download_all_again link slug imgs st1 st2 :
  (forall s, slug = JStr s -> plain_name s = true) ->
  fs_exists (disk st1) out = true ->
  grows (disk (snd (download_all E out link slug imgs st1))) (disk st2) ->
  fresh_ok E (disk st1) (disk st2) ->
  again (download_all E out link slug imgs)
        (download_all E2 out link slug imgs) st1 st2.
Proof.
  intros Hslug Hex Hg Hf. unfold again.
  destruct imgs as [|x imgs]; [exists st2; auto|].
  assert (Hex2 : fs_exists (disk st2) out = true).
  { apply Hg.
    apply (keeps_grows _ _
             (proj1 (download_all_safe E out link slug (x :: imgs) st1))).
    exact Hex. }
  rewrite (download_all_run E2) by apply Hstdout.
  rewrite (download_all_run E) in Hg |- * by apply Hstdout.
  cbv zeta in *.
  set (st1a := emit st1 (Print (MPotential (List.length (x :: imgs))))) in *.
  set (st2a := emit st2 (Print (MPotential (List.length (x :: imgs))))) in *.
  destruct slug as [| | |s| |];
    try (eexists; split; [reflexivity|split; reflexivity]).
  specialize (Hslug s eq_refl).
  set (dir := path_join out s) in *.
  change (set_iter E2 (x :: imgs)) with (order (x :: imgs)).
  change (download_image E2 link dir) with (download_image E link dir).
  change (os_makedirs E2 dir st2a) with (os_makedirs E dir st2a).
  unfold dir at 2 4. rewrite !(makedirs_plain E out s) by assumption.
  fold dir. fold dir in Hg.
  destruct (fs_exists (disk st1) dir) eqn:H1.
  - assert (H2 : fs_exists (disk st2) dir = true).
    { apply Hg. now apply for_each_grows. }
    rewrite H2. exact (loop_again link dir (x :: imgs) st1a st2a Hg).
  - unfold dir in Hg. rewrite (makedirs_plain E out s) in Hg by assumption.
    fold dir in Hg. unfold os_mkdir in *. cbn [disk st1a st2a emit] in *.
    apply fs_exists_false in H1. rewrite H1 in *.
    destruct (os_refuses E dir) as [e|] eqn:Hr.
    + destruct (fs_exists (disk st2) dir) eqn:H2.
      * destruct (Hf dir H2) as [H|H]; [|congruence].
        apply fs_exists_false in H1. congruence.
      * apply fs_exists_false in H2. rewrite H2.
        eexists. split; [reflexivity|split; reflexivity].
    + assert (H2 : fs_exists (disk st2) dir = true).
      { apply Hg. apply for_each_grows. unfold fs_exists. cbn [disk with_disk].
        now rewrite fs_set_same. }
      rewrite H2. exact (loop_again link dir (x :: imgs) _ st2a Hg).
Qed.

Lemma scan_post_again delay link slug st1 st2 :
  (forall s, slug = JStr s -> plain_name s = true) ->
  fs_exists (disk st1) out = true ->
  grows (disk (snd (scan_post E out delay link slug st1))) (disk st2) ->
  fresh_ok E (disk st1) (disk st2) ->
  again (scan_post E out delay link slug)
        (scan_post E2 out delay link slug) st1 st2.
Proof.
  intros Hslug Hex Hg Hf. unfold again.
  rewrite (scan_post_run E2). rewrite scan_post_run in Hg |- *.
  change (http E2 link) with (http E link).
  destruct (http E link) as [r|e];
    [|eexists; split; [reflexivity|split; reflexivity]].
  destruct (Z.eqb (status_code r) 200).
  2:{ change (print E2) with (print E).
      rewrite !(print_ok E) by apply Hstdout.
      eexists. split; [reflexivity|split; reflexivity]. }
  set (st1a := emit st1 (Get link)) in *.
  set (st2a := emit st2 (Get link)) in *.
  change (time_sleep E2) with (time_sleep E).
  destruct (download_all E out link slug (locate (content r)) st1a)
    as [[[]|e] st1b] eqn:H1.
  - destruct (download_all_again link slug (locate (content r)) st1a st2a)
      as (st2b & Hs & Hd & Ht); try assumption.
    { rewrite H1. cbn [snd]. eapply grows_trans; [|exact Hg].
      apply keeps_grows, (time_sleep_safe E delay st1b). }
    rewrite H1 in Hs. cbn [fst] in Hs. rewrite Hs.
    unfold time_sleep. destruct (sleep_error E delay);
      (eexists; split; [reflexivity|split; [exact Hd|exact Ht]]).
  - destruct (download_all_again link slug (locate (content r)) st1a st2a)
      as (st2b & Hs & Hd & Ht); try assumption.
    { now rewrite H1. }
    rewrite H1 in Hs. cbn [fst] in Hs. rewrite Hs.
    eexists. split; [reflexivity|split; [exact Hd|exact Ht]].
Qed.

Lemma process_post_again delay n i post st1 st2 :
  (forall s, post_slug E post = Some s -> plain_name s = true) ->
  fs_exists (disk st1) out = true ->
  grows (disk (snd (process_post E out delay n i post st1))) (disk st2) ->
  fresh_ok E (disk st1) (disk st2) ->
  again (process_post E out delay n i post)
        (process_post E2 out delay n i post) st1 st2.
Proof.
  intros Hslug Hex Hg Hf. unfold again.
  rewrite (process_post_run E2). rewrite process_post_run in Hg |- *.
  change (post_fields E2 post) with (post_fields E post).
  unfold post_slug in Hslug.
  destruct (post_fields E post) as [[[link title] slug]|e];
    [|exists st2; auto].
  destruct (truthy link); [|exists st2; auto].
  change (print E2) with (print E).
  rewrite (print_ok E (MScanning (i + 1) n title) st1 (Hstdout _)) in Hg |- *.
  rewrite (print_ok E (MScanning (i + 1) n title) st2 (Hstdout _)).
  set (st1a := emit st1 (Print (MScanning (i + 1) n title))) in *.
  set (st2a := emit st2 (Print (MScanning (i + 1) n title))) in *.
  assert (Hs' : forall s, slug = JStr s -> plain_name s = true).
  { intros s ->. now apply Hslug. }
  destruct (scan_post E out delay link slug st1a) as [[[]|e] st1b] eqn:H1.
  - destruct (scan_post_again delay link slug st1a st2a)
      as (st2b & Hs & Hd & Ht); try assumption.
    { now rewrite H1. }
    rewrite H1 in Hs. cbn [fst] in Hs. rewrite Hs.
    eexists. split; [reflexivity|split; [exact Hd|exact Ht]].
  - rewrite (print_ok E) in Hg by apply Hstdout.
    destruct (scan_post_again delay link slug st1a st2a)
      as (st2b & Hs & Hd & Ht); try assumption.
    { now rewrite H1. }
    rewrite H1 in Hs. cbn [fst] in Hs. rewrite Hs.
    rewrite !(print_ok E) by apply Hstdout.
    eexists. split; [reflexivity|split; [exact Hd|exact Ht]].
Qed.

Lemma scan_posts_again delay n posts : forall i st1 st2,
  (forall post s, In post posts -> post_slug E post = Some s ->
                  plain_name s = true) ->
  fs_exists (disk st1) out = true ->
  grows (disk (snd (scan_posts E out delay n i posts st1))) (disk st2) ->
  fresh_ok E (disk st1) (disk st2) ->
  again (scan_posts E out delay n i posts)
        (scan_posts E2 out delay n i posts) st1 st2.
Proof.
  induction posts as [|post rest IH]; intros i st1 st2 Hslug Hex Hg Hf.
  - exists st2. auto.
  - unfold again. simpl in *. unfold bind in *.
    pose proof (scan_posts_safe E out delay n rest (S i)) as Hrest.
    pose proof (process_post_safe E out delay n i post st1) as Hpost.
    assert (Hslug1 : forall s, post_slug E post = Some s ->
                               plain_name s = true).
    { intros s. apply Hslug. now left. }
    destruct (process_post E out delay n i post st1) as [[[]|e] st1m] eqn:H1.
    + destruct (process_post_again delay n i post st1 st2)
        as (st2m & Hs & Hd & Ht); try assumption.
      { rewrite H1. cbn [snd]. eapply grows_trans; [|exact Hg].
        apply keeps_grows, (Hrest st1m). }
      rewrite H1 in Hs. cbn [fst] in Hs. rewrite Hs.
      destruct (IH (S i) st1m st2m) as (st2' & Hs' & Hd' & Ht').
      { intros p s Hp. apply Hslug. now right. }
      { apply (keeps_grows _ _ (proj1 Hpost)). exact Hex. }
      { now rewrite Hd. }
      { rewrite Hd. eapply fresh_ok_grows_l; [exact Hf|].
        apply keeps_grows, Hpost. }
      exists st2'. split; [exact Hs'|]. split; congruence.
    + destruct (process_post_again delay n i post st1 st2)
        as (st2m & Hs & Hd & Ht); try assumption.
      { now rewrite H1. }
      rewrite H1 in Hs. cbn [fst] in Hs. rewrite Hs.
      exists st2m. auto.
Qed.

End Again.

(** ** The whole run *)

Lemma scrape_run E posts out delay st :
  stdout_ok E ->
  scrape_ngg_images E posts out delay st
  = match (if fs_exists (disk st) out then (Ret tt, st)
           else os_makedirs E out st) with
    | (Raise e, st') => (Raise e, st')
    | (Ret _, st') =>
        finish (scan_posts E out delay (List.length posts) 0 posts
                  (begin_scan posts st'))
    end.
Proof.
  intros Hstd.
  unfold scrape_ngg_images, bind, os_path_exists, ret, finish, begin_scan.
  cbn [fst snd].
  destruct (fs_exists (disk st) out).
  - rewrite (print_ok E _ _ (Hstd _)). cbn [fst snd].
    destruct (scan_posts E out delay _ 0 posts _) as [[[]|e] st''];
      [|reflexivity].
    now rewrite (print_ok E _ _ (Hstd _)).
  - destruct (os_makedirs E out st) as [[[]|e] st']; [|reflexivity].
    rewrite (print_ok E _ _ (Hstd _)). cbn [fst snd].
    destruct (scan_posts E out delay _ 0 posts _) as [[[]|e] st''];
      [|reflexivity].
    now rewrite (print_ok E _ _ (Hstd _)).
Qed.

Lemma finish_disk r : disk (snd (finish r)) = disk (snd r).
Proof. destruct r as [[[]|e] st]; reflexivity. Qed.

Lemma finish_total r :
  total_downloaded (snd (finish r)) = total_downloaded (snd r).
Proof. destruct r as [[[]|e] st]; reflexivity. Qed.

Lemma finish_fst r : fst (finish r) = fst r.
Proof. destruct r as [[[]|e] st]; reflexivity. Qed.

Lemma finish_log r :
  fst r = Ret tt ->
  log (snd (finish r))
  = log (snd r) ++ [Print (MDone (total_downloaded (snd r)))].
Proof. destruct r as [[[]|e] st]; [reflexivity | discriminate]. Qed.

Lemma stdout_ok_order E order : stdout_ok E -> stdout_ok (with_order E order).
Proof. intros H m. exact (H m). Qed.

(** The second run, once the output folder is in place for both. *)
Lemma scrape_again_from E order posts out delay st1 :
  stdout_ok E ->
  ((forall s, order s = set_iter E s)
   \/ ((forall s, Permutation (order s) (set_iter E s)) /\ addresses_ok E)) ->
  out <> "" -> ends_with_slash out = false ->
  (forall post s, In post posts -> post_slug E post = Some s ->
                  plain_name s = true) ->
  fs_exists (disk st1) out = true ->
  let r1 := scan_posts E out delay (List.length posts) 0 posts
              (begin_scan posts st1) in
  let second :=
    scrape_ngg_images (with_order E order) posts out delay
      (start (disk (snd (finish r1)))) in
  total_downloaded (snd second) = 0
  /\ disk (snd second) = disk (snd (finish r1))
  /\ fst second = fst (finish r1)
  /\ (fst second = Ret tt ->
      exists l, log (snd second) = l ++ [Print (MDone 0)]).
Proof.
  intros Hstd Horder Hname Hend Hslug Hout r1 second.
  destruct (scan_posts_again E order Hstd Horder out Hname Hend delay
              (List.length posts) posts 0
              (begin_scan posts st1)
              (begin_scan posts (start (disk (snd r1)))) Hslug Hout)
    as (st2' & Hs & Hd & Ht).
  { intros p Hp. exact Hp. }
  { apply (scan_posts_safe E out delay (List.length posts) posts 0
             (begin_scan posts st1)). }
  fold r1 in Hs. simpl in Hd, Ht.
  assert (Hout1 : fs_exists (disk (snd r1)) out = true).
  { apply keeps_grows with (d := disk (begin_scan posts st1)).
    - apply (scan_posts_safe E out delay (List.length posts) posts 0
               (begin_scan posts st1)).
    - exact Hout. }
  assert (Hsecond : second = finish (fst r1, st2')).
  { subst second.
    rewrite (scrape_run _ _ _ _ _ (stdout_ok_order E order Hstd)),
      finish_disk.
    cbn [disk start]. rewrite Hout1. now rewrite Hs. }
  rewrite Hsecond, !finish_total, !finish_disk, !finish_fst. cbn [fst snd].
  repeat split; try assumption.
  intros Hret. exists (log st2').
  rewrite finish_log; [|exact Hret]. cbn [snd]. now rewrite Ht.
Qed.

Lemma no_slash_components s : contains "/" s = false -> components s = [s].
Proof.
  induction s as [|c t IH]; intros H; [reflexivity|].
  apply no_slash_cons in H. destruct H as [Hc Ht].
  cbn [components]. apply Ascii.eqb_neq in Hc. rewrite Hc.
  now rewrite (IH Ht).
Qed.

Lemma slash_components s :
  contains "/" s = true ->
  exists x y rest, components s = x :: y :: rest.
Proof.
  induction s as [|c t IH]; intros H; [discriminate|].
  cbn [components]. destruct (Ascii.eqb_spec c "/") as [->|Hn].
  - pose proof (components_nonempty t) as Hne.
    destruct (components t) as [|y rest]; [now destruct Hne|].
    now exists "", y, rest.
  - assert (Ht : contains "/" t = true).
    { cbn [contains String.prefix] in H.
      destruct (ascii_dec "/" c) as [Heq|_]; [now destruct Hn|].
      exact H. }
    destruct (IH Ht) as (x & y & rest & ->). now exists (String c x), y, rest.
Qed.

Lemma after_last_slash_last s : forall cur,
  after_last_slash cur s
  = if contains "/" s then last (components s) "" else cur.
Proof.
  induction s as [|c t IH]; intros cur; [reflexivity|].
  cbn [after_last_slash components].
  destruct (Ascii.eqb_spec c "/") as [->|Hn].
  - assert (Hc : contains "/" (String "/" t) = true).
    { cbn [contains String.prefix]. destruct (ascii_dec "/" "/"); [|congruence].
      now rewrite prefix_nil. }
    rewrite Hc, IH.
    destruct (contains "/" t) eqn:Ht.
    + destruct (slash_components t Ht) as (x & y & rest & ->). reflexivity.
    + now rewrite (no_slash_components t Ht).
  - assert (Hc : contains "/" (String c t) = contains "/" t).
    { cbn [contains String.prefix].
      destruct (ascii_dec "/" c) as [Heq|_]; [now destruct Hn | reflexivity]. }
    rewrite Hc, IH.
    destruct (contains "/" t) eqn:Ht; [|reflexivity].
    destruct (slash_components t Ht) as (x & y & rest & ->). reflexivity.
Qed.

Lemma basename_last p : basename p = last (components p) "".
Proof.
  unfold basename. rewrite after_last_slash_last.
  destruct (contains "/" p) eqn:Hp; [reflexivity|].
  now rewrite (no_slash_components p Hp).
Qed.

Lemma last_in {A} (l : list A) d : l <> [] -> In (last l d) l.
Proof.
  intros Hne. destruct (exists_last Hne) as (l' & a & ->).
  rewrite last_last. apply in_or_app. right. now left.
Qed.

Lemma plain_path_basename p :
  plain_path p = true -> plain_name (basename p) = true.
Proof.
  intros H. rewrite basename_last.
  assert (Hall : forall q, forallb plain_name (components q) = true ->
                           plain_name (last (components q) "") = true).
  { intros q Hq. rewrite forallb_forall in Hq. apply Hq.
    apply last_in, components_nonempty. }
  unfold plain_path in H. destruct p as [|c t]; [discriminate|].
  destruct (Ascii.eqb_spec c "/") as [->|Hn].
  - cbn [components Ascii.eqb Bool.eqb].
    pose proof (components_nonempty t) as Hne.
    specialize (Hall t H).
    destruct (components t) as [|y rest]; [now destruct Hne | exact Hall].
  - apply Hall.
    destruct c as [[] [] [] [] [] [] [] []]; try exact H. now destruct Hn.
Qed.

Lemma os_mkdir_made E p st :
  fst (os_mkdir E p st) = Ret tt ->
  fs_exists (disk (snd (os_mkdir E p st))) p = true.
Proof.
  unfold os_mkdir. destruct (disk st p); [discriminate|].
  destruct (os_refuses E p); [discriminate|]. intros _.
  unfold fs_exists. cbn [snd disk with_disk]. now rewrite fs_set_same.
Qed.

(** [os.makedirs] of a path whose last part is a plain name, when it
    returns, has made the folder. *)
Lemma makedirs_made E name : forall k st,
  plain_name (basename name) = true ->
  fst (makedirs E k name st) = Ret tt ->
  fs_exists (disk (snd (makedirs E k name st))) name = true.
Proof.
  intros k st Hb. apply plain_name_spec in Hb.
  destruct Hb as (Hne & _ & Hdot & _).
  rewrite makedirs_eq.
  set (head := if rstrip_slash (upto_last_slash name) =? ""
               then upto_last_slash name
               else rstrip_slash (upto_last_slash name)).
  change (path_split name) with (head, basename name).
  apply String.eqb_neq in Hne, Hdot. cbv beta iota. rewrite Hne.
  cbv beta iota.
  destruct (negb (head =? "") && negb (basename name =? ""));
    [|apply os_mkdir_made].
  unfold bind, os_path_exists. cbn [fst snd].
  destruct (fs_exists (disk st) head); [apply os_mkdir_made|].
  destruct k as [|k]; [discriminate|].
  destruct (try_except _ _ st) as [[[]|e] st']; [|discriminate].
  rewrite Hdot. apply os_mkdir_made.
Qed.



(** ** One image *)

Lemma target_of E link dir c img path :
  resolve E link c = Ret img ->
  urlparse_path E img = Ret path ->
  target E link dir c = Ret (img, path_join dir (basename path)).
Proof. intros H1 H2. unfold target. now rewrite H1, H2. Qed.

(** C8: when the file named by the basename of the resolved URL's path is
    already in the post's folder, the iteration for that URL changes
    nothing at all: no request is made, the disk (the file included) and
    the total are as before. *)
Theorem C8_existing_file_is_skipped E link dir c img path st :
  resolve E link c = Ret img ->
  urlparse_path E img = Ret path ->
  fs_exists (disk st) (path_join dir (basename path)) = true ->
  download_image E link dir c st = (Ret tt, st)
  /\ requests (log (snd (download_image E link dir c st))) = requests (log st)
  /\ disk (snd (download_image E link dir c st)) = disk st
  /\ total_downloaded (snd (download_image E link dir c st))
     = total_downloaded st.
Proof.
  intros Hr Hp Hex.
  assert (H : download_image E link dir c st = (Ret tt, st)).
  { rewrite download_image_run, (target_of _ _ _ _ _ _ Hr Hp). now rewrite Hex. }
  rewrite H. auto.
Qed.

Lemma C8_existing_file_is_skipped_witness :
  let st := start Examples.disk_with_one in
  fs_exists (disk st) "out/g/one.jpg" = true
  /\ download_image Demo.env (JStr Examples.gallery) "out/g"
       "http://site.example/img/one.jpg" st = (Ret tt, st).
Proof.
  intros st. split; [reflexivity|].
  apply (C8_existing_file_is_skipped Demo.env (JStr Examples.gallery) "out/g"
           "http://site.example/img/one.jpg"
           "http://site.example/img/one.jpg" "/img/one.jpg" st);
    reflexivity.
Defined.







(** ** One post *)

Lemma process_post_returns E out delay n i post st :
  (forall title, print_error E (MScanning (i + 1) n title) = None) ->
  (forall e, print_error E (MErrorProcessing e) = None) ->
  title_ok post = true ->
  fst (process_post E out delay n i post st) = Ret tt.
Proof.
  intros Hscan Herr Hok. rewrite process_post_run.
  assert (Hf : exists f, post_fields E post = Ret f).
  { destruct post as [| | | | |fields]; try discriminate Hok.
    unfold post_fields, title_ok in *. simpl.
    destruct (assoc "title" fields) as [[| | | | |t]|];
      try discriminate Hok; simpl; eauto. }
  destruct Hf as [[[link title] slug] ->].
  destruct (truthy link); [|reflexivity].
  rewrite (print_ok E _ st (Hscan title)).
  destruct (scan_post E out delay link slug _) as [[[]|e] st'];
    [reflexivity|].
  now rewrite (print_ok E _ st' (Herr e)).
Qed.




Lemma sleeps_emit_other st e :
  (forall d, e <> Sleep d) -> sleeps (log (emit st e)) = sleeps (log st).
Proof.
  intros H. unfold emit. simpl. rewrite sleeps_app.
  destruct e; try (change (sleeps [_]) with 0; lia).
  now destruct (H d).
Qed.

(** What [time.sleep] itself accepts of a finite length: from zero up to
    what fits, in nanoseconds, the clock's 64 bits. *)
Lemma sleep_check_finite q :
  sleep_check (Finite q) = None
  <-> (0 <= q /\ q * (1000000000 # 1) < 9223372036854775296 # 1)%Q.
Proof.
  unfold sleep_check.
  destruct (Qle_bool (9223372036854775296 # 1) (q * (1000000000 # 1)))
    eqn:Hbig; cbn [orb].
  - apply Qle_bool_iff in Hbig. split; [discriminate|].
    intros [_ Hlt]. exfalso. now apply (Qlt_not_le _ _ Hlt).
  - assert (Hlt : (q * (1000000000 # 1) < 9223372036854775296 # 1)%Q).
    { apply Qnot_le_lt. intros Hle. apply Qle_bool_iff in Hle. congruence. }
    destruct (Qle_bool (- (9223372036854776832 # 1)) (q * (1000000000 # 1)))
      eqn:Hsmall; cbn [negb].
    + destruct (Qle_bool 0 q) eqn:Hq.
      * apply Qle_bool_iff in Hq. tauto.
      * split; [discriminate|]. intros [Hq' _].
        apply Qle_bool_iff in Hq'. congruence.
    + split; [discriminate|]. intros [Hq _]. exfalso.
      assert (Hle : (- (9223372036854776832 # 1) <= q * (1000000000 # 1))%Q).
      { apply Qle_trans with 0%Q; [discriminate|].
        apply Qmult_le_0_compat; [exact Hq | discriminate]. }
      apply Qle_bool_iff in Hle. congruence.
Qed.

(** C4, as stated, fails: a post whose page is answered 404, a post
    without link and a post whose page fetch times out are all processed,
    and the run finishes, without a single [time.sleep]. *)
Lemma C4_no_delay_after_failed_fetch :
  let r := scrape_ngg_images Demo.env
             [Demo.post "http://site.example/missing" "m";
              Examples.no_link_post;
              Demo.post "http://site.example/down" "d"]
             "out" default_delay (start fs_empty) in
  fst r = Ret tt
  /\ log (snd r)
     = [Print (MFound 3);
        Print (MScanning 1 3 (JStr "A post"));
        Get (JStr "http://site.example/missing");
        Print (MFailedFetch (JStr "http://site.example/missing") 404);
        Print (MScanning 3 3 (JStr "A post"));
        Get (JStr "http://site.example/down");
        Print (MErrorProcessing "ConnectTimeout");
        Print (MDone 0)]
  /\ sleeps (log (snd r)) = 0.
Proof. repeat split; reflexivity. Qed.

(** C4 (amended): a post without a link is passed over with no request
    and no delay.  A post whose progress line the standard output takes,
    whose page is answered 200 and whose images are then handled without
    an exception reaching the per-post handler ends with one
    [time.sleep] of the configured delay, its last action, provided
    [time.sleep] raises nothing for that delay: it is a number, not
    negative, and within the range of the clock.  [time.sleep] itself
    accepts the default delay, one half. *)
Theorem C4_delay_after_scanned_post E out delay n i post link title slug st :
  post_fields E post = Ret (link, title, slug) ->
  (truthy link = false -> process_post E out delay n i post st = (Ret tt, st))
  /\ (forall r st_dl,
        truthy link = true ->
        print_error E (MScanning (i + 1) n title) = None ->
        http E link = Ret r ->
        status_code r = 200%Z ->
        download_all E out link slug (locate (content r))
          (emit (emit st (Print (MScanning (i + 1) n title))) (Get link))
        = (Ret tt, st_dl) ->
        sleep_error E delay = None ->
        process_post E out delay n i post st
        = (Ret tt, emit st_dl (Sleep delay))
        /\ sleeps (log (emit st_dl (Sleep delay))) = sleeps (log st) + 1)
  /\ sleep_check default_delay = None.
Proof.
  intros Hf. split; [|split; [|reflexivity]].
  - intros Hl. now rewrite process_post_run, Hf, Hl.
  - intros r st_dl Hl Hscan Hh H200 Hdl Hd.
    rewrite process_post_run, Hf, Hl, (print_ok E _ st Hscan), scan_post_run,
      Hh, H200.
    cbn [Z.eqb Pos.eqb]. rewrite Hdl. unfold time_sleep. rewrite Hd.
    split; [reflexivity|].
    pose proof (download_all_no_sleep E out link slug (locate (content r))
                  (emit (emit st (Print (MScanning (i + 1) n title)))
                        (Get link))) as Hns.
    rewrite Hdl in Hns. unfold no_sleep in Hns. simpl in Hns.
    unfold emit at 1. cbn [log].
    rewrite sleeps_app, Hns, !sleeps_app.
    change (sleeps [Sleep delay]) with 1.
    change (sleeps [Print (MScanning (i + 1) n title)]) with 0.
    change (sleeps [Get link]) with 0. lia.
Qed.

Lemma C4_delay_after_scanned_post_witness :
  let st := start fs_empty in
  let post := Demo.post Examples.gallery "g" in
  post_fields Demo.env post
  = Ret (JStr Examples.gallery, JStr "A post", JStr "g")
  /\ sleeps (log (snd (process_post Demo.env "out" default_delay 1 0 post st)))
     = 1.
Proof.
  intros st post. split; [reflexivity|].
  destruct (C4_delay_after_scanned_post Demo.env "out" default_delay 1 0 post
              (JStr Examples.gallery) (JStr "A post") (JStr "g") st eq_refl)
    as (_ & H & _).
  destruct (H (mkResponse 200 Demo.gallery_page SEnd)
              (snd (download_all Demo.env "out" (JStr Examples.gallery)
                      (JStr "g") (locate Demo.gallery_page)
                      (emit (emit st (Print (MScanning 1 1 (JStr "A post"))))
                            (Get (JStr Examples.gallery)))))
              eq_refl eq_refl eq_refl eq_refl eq_refl eq_refl) as [H1 H2].
  rewrite H1. exact H2.
Defined.


(** The progress line, too, is printed outside every [try]: behind a
    standard output whose encoding is ASCII, a post whose title holds an
    arrow ends the run. *)
Lemma unprintable_title_aborts_crawl :
  let r := scrape_ngg_images Examples.ascii_env
             [Examples.arrow_title_post; Demo.post Examples.gallery "g"]
             "out" default_delay (start fs_empty) in
  title_ok Examples.arrow_title_post = true
  /\ fst r = Raise "UnicodeEncodeError"
  /\ log (snd r) = [Print (MFound 2)].
Proof. repeat split; reflexivity. Qed.



(** ** The rewriting of thumbnail paths *)

Lemma prefix_slash_miss old c t :
  c <> "/"%char -> String.prefix (String "/" old) (String c t) = false.
Proof.
  intros H. cbn [String.prefix].
  destruct (ascii_dec "/" c) as [Heq|Hne]; [|reflexivity].
  now destruct H.
Qed.

Lemma replace_miss old new c t :
  String.prefix old (String c t) = false ->
  replace_from old new 0 (String c t) = String c (replace_from old new 0 t).
Proof. intros H. cbn [replace_from]. now rewrite H. Qed.

Lemma replace_hit old new c t :
  String.prefix old (String c t) = true ->
  replace_from old new 0 (String c t)
  = (new ++ replace_from old new (Nat.pred (String.length old)) t)%string.
Proof. intros H. cbn [replace_from]. now rewrite H. Qed.

Lemma replace_skip old new k c t :
  replace_from old new (S k) (String c t) = replace_from old new k t.
Proof. reflexivity. Qed.

Lemma replace_from_no_slash old new s :
  contains "/" s = false -> replace_from (String "/" old) new 0 s = s.
Proof.
  induction s as [|c t IH]; intros H; [reflexivity|].
  apply no_slash_cons in H. destruct H as [Hc Ht].
  rewrite replace_miss by now apply prefix_slash_miss.
  now rewrite IH.
Qed.

Lemma no_slash_no_segment seg name :
  contains "/" name = false ->
  String.prefix (String "/" (seg ++ "/")) (String "/" name) = false.
Proof.
  intros Hn. destruct (String.prefix _ _) eqn:Hp; [|reflexivity].
  cbn [String.prefix] in Hp. destruct (ascii_dec "/" "/"); [|congruence].
  apply prefix_split in Hp. destruct Hp as [r ->].
  rewrite append_assoc in Hn.
  rewrite contains_app_r in Hn; [discriminate|].
  cbn [append contains String.prefix].
  destruct (ascii_dec "/" "/"); [|congruence].
  now rewrite prefix_nil.
Qed.

Lemma full_size_example name :
  contains "/" name = false ->
  full_size ("http://example.com/wp-content/gallery/album/thumbs/thumbs_"
             ++ name)
  = ("http://example.com/wp-content/gallery/album/" ++ name)%string.
Proof.
  intros Hn. unfold full_size, replace. cbn [append].
  repeat (rewrite replace_miss by reflexivity).
  rewrite replace_hit by apply (prefix_app "/thumbs/thumbs_" name).
  cbn [String.length Nat.pred append]. rewrite !replace_skip.
  rewrite (replace_from_no_slash "thumbs/thumbs_" "/" name Hn).
  repeat (rewrite replace_miss by reflexivity).
  rewrite replace_miss by apply (no_slash_no_segment "thumbs" name Hn).
  now rewrite replace_from_no_slash.
Qed.

Lemma path_candidate_thumbs tag url :
  href_or_src tag = Some url ->
  contains "/wp-content/gallery/" url = true ->
  contains "/thumbs/" url = true ->
  path_candidate tag = Some (full_size url).
Proof.
  intros Hu Hg Ht. unfold path_candidate. rewrite Hu, Hg, Ht.
  assert (Hne : url <> "") by (eapply contains_nonempty; [exact Hg|discriminate]).
  apply String.eqb_neq in Hne. now rewrite Hne.
Qed.

Lemma fetch_and_save_requests E u p st :
  disk st p = None ->
  exists tail,
    log (snd (fetch_and_save E u p st)) = log st ++ Get (JStr u) :: tail
    /\ requests tail = [].
Proof.
  intros Hp. destruct (fetch_and_save_run E u p st Hp) as (_ & Hc).
  assert (Hprint : forall m st0,
            log st0 = log st ++ [Get (JStr u)] ->
            exists tail,
              log (snd (print E m st0)) = log st ++ Get (JStr u) :: tail
              /\ requests tail = []).
  { intros m st0 H0. destruct (print_log E m st0) as (tail & Hl & Hr).
    exists tail. split; [|exact Hr]. rewrite Hl, H0.
    now rewrite <- app_assoc. }
  destruct (http E (JStr u)) as [resp|e].
  - destruct (Z.eqb (status_code resp) 200).
    + destruct (os_refuses E p) as [e|].
      * rewrite Hc. now apply Hprint.
      * destruct Hc as [_ Hc].
        destruct (stream_error E p 0 (body resp)) as [e|].
        -- destruct Hc as (st_w & -> & _ & Hl). now apply Hprint.
        -- destruct Hc as (_ & _ & ->). now exists [].
    + rewrite Hc. now exists [].
  - rewrite Hc. now apply Hprint.
Qed.




(** ** Duplicates in the candidate set *)

(** C1, as stated, fails: a thumbnail anchor inside a gallery container
    is entered as it is by the first pass and rewritten by the second, so
    the set holds two entries for one image; and two spellings of one
    address are two entries that resolve to the same URL. *)
Lemma C1_same_image_twice :
  let link := JStr Examples.gallery in
  let cands := set_iter Demo.env (locate Examples.thumb_and_full) in
  let cands' := set_iter Demo.env (locate Examples.two_spellings) in
  cands = ["http://h/wp-content/gallery/al/thumbs/thumbs_a.jpg";
           "http://h/wp-content/gallery/al/a.jpg"]
  /\ map (normalized Demo.env link) cands
     = [Ret "http://h/wp-content/gallery/al/a.jpg";
        Ret "http://h/wp-content/gallery/al/a.jpg"]
  /\ cands' = ["//h/wp-content/gallery/al/a.jpg";
               "https://h/wp-content/gallery/al/a.jpg"]
  /\ map (resolve Demo.env link) cands'
     = [Ret "https://h/wp-content/gallery/al/a.jpg";
        Ret "https://h/wp-content/gallery/al/a.jpg"].
Proof. repeat split; reflexivity. Qed.

(** C1 (amended): the candidates over which the downloads of a post are
    iterated are pairwise different as strings, as they were entered in
    the set (before resolution).  When two anchors outside any gallery
    container point at [u] and at a thumbnail address [t] whose rewriting
    is [u], the set holds exactly one entry, [u]. *)
Theorem C1_candidates_distinct_as_strings :
  (forall E s,
     Permutation (set_iter E (locate s)) (locate s) ->
     NoDup (set_iter E (locate s)))
  /\ (forall u t,
        contains "/wp-content/gallery/" u = true ->
        contains "/thumbs/" u = false ->
        contains "/wp-content/gallery/" t = true ->
        contains "/thumbs/" t = true ->
        full_size t = u ->
        locate (Examples.two_anchors u t) = [u]).
Proof.
  split.
  - intros E s Hperm. eapply Permutation_NoDup.
    + apply Permutation_sym. exact Hperm.
    + apply locate_NoDup.
  - intros u t Hgu Htu Hgt Htt Hfull.
    assert (Hu : (u =? "") = false).
    { apply String.eqb_neq. eapply contains_nonempty; [exact Hgu|discriminate]. }
    assert (Ht : (t =? "") = false).
    { apply String.eqb_neq. eapply contains_nonempty; [exact Hgt|discriminate]. }
    unfold locate, strategy2, strategy1, add_candidates, Examples.two_anchors.
    cbn [select flat_map select_thumbs find_all find_all_in fold_left app
         String.eqb Ascii.eqb Bool.eqb andb orb has_str existsb].
    unfold path_candidate, href_or_src, truthy_str, tag_get.
    cbn [assoc String.eqb Ascii.eqb Bool.eqb].
    rewrite Hu, Ht. cbn [negb andb]. rewrite Hgu, Htu, Hgt, Htt, Hfull.
    unfold set_add. rewrite ?Hu, ?Ht. cbn [negb andb has_str existsb app].
    rewrite String.eqb_refl. reflexivity.
Qed.

Lemma C1_candidates_distinct_as_strings_witness :
  NoDup (set_iter Demo.env (locate Examples.thumb_and_full))
  /\ locate (Examples.two_anchors
               "http://h/wp-content/gallery/al/a.jpg"
               "http://h/wp-content/gallery/al/thumbs/thumbs_a.jpg")
     = ["http://h/wp-content/gallery/al/a.jpg"].
Proof.
  split.
  - apply (proj1 C1_candidates_distinct_as_strings Demo.env
             Examples.thumb_and_full).
    apply Permutation_refl.
  - apply (proj2 C1_candidates_distinct_as_strings); reflexivity.
Defined.

Lemma C10_widget_pass_extension_at_end_witness :
  is_image_url ("photo" ++ "." ++ "JPG" ++ "") = true
  /\ is_image_url "http://site.example/img/one.jpg" = true.
Proof.
  split.
  - apply (proj1 C10_widget_pass_extension_at_end).
    exists "photo", "JPG", "".
    split; [reflexivity | split; [reflexivity | now left]].
  - apply (proj1 (proj2 C10_widget_pass_extension_at_end) Demo.gallery_page).
    simpl. tauto.
Defined.


(** ** The model on the scenarios of the specification *)

Example replace_does_not_overlap : replace "aa" "b" "aaa" = "ba".
Proof. reflexivity. Qed.

Example basename_of_url_path :
  basename "/wp-content/gallery/album/photo.jpg" = "photo.jpg"
  /\ basename "/wp-content/gallery/album/" = ""
  /\ basename "photo.jpg" = "photo.jpg".
Proof. repeat split; reflexivity. Qed.

Example path_join_cases :
  path_join "out" "slug" = "out/slug"
  /\ path_join "out/" "slug" = "out/slug"
  /\ path_join "out" "/abs" = "/abs"
  /\ path_join "out/slug" "" = "out/slug/".
Proof. repeat split; reflexivity. Qed.

Example is_image_url_cases :
  is_image_url "http://h/a/photo.JPG" = true
  /\ is_image_url "photo.webp" = true
  /\ is_image_url "photo.jpg.txt" = false
  /\ is_image_url "photojpg" = false.
Proof. repeat split; reflexivity. Qed.

(** [photo.g] followed by U+0131 and [f], and [photo.G] followed by
    U+0130 and [F]: both are accepted. *)
Example is_image_url_other_i :
  let dotless := String (ascii_of_nat 196) (String (ascii_of_nat 177) "") in
  let dotted := String (ascii_of_nat 196) (String (ascii_of_nat 176) "") in
  is_image_url ("photo.g" ++ dotless ++ "f") = true
  /\ is_image_url ("photo.G" ++ dotted ++ "F") = true
  /\ fold_case ("g" ++ dotless ++ "f") = "gif".
Proof. repeat split; reflexivity. Qed.

(** [time.sleep] of ten thousand million seconds, of infinity and of
    not-a-number raises; of a negative half second too. *)
Example time_sleep_cases :
  sleep_check (Finite (10000000000 # 1)) = Some "OverflowError"
  /\ sleep_check (Infinite false) = Some "OverflowError"
  /\ sleep_check NaN = Some "ValueError"
  /\ sleep_check (Finite (- (1 # 2))) = Some "ValueError"
  /\ sleep_check (Finite 0) = None.
Proof. repeat split; reflexivity. Qed.

(** [os.makedirs] makes the heads that are missing, and raises when the
    folder is already there. *)
Example makedirs_cases :
  let made := snd (os_makedirs Demo.env "x/y/out" (start fs_empty)) in
  disk made "x" = Some Dir
  /\ disk made "x/y" = Some Dir
  /\ disk made "x/y/out" = Some Dir
  /\ fst (os_makedirs Demo.env "out" (start Examples.disk_with_dir))
     = Raise "FileExistsError".
Proof. repeat split; reflexivity. Qed.

(** Two posts: the page of the first is answered 404, the page of the
    second holds one image found by the widget-container pass and one
    found by the path-pattern pass.  Two files are written and the last
    line reports 2. *)
Example end_to_end_two_posts :
  let r := scrape_ngg_images Demo.env
             [Demo.post "http://site.example/missing" "m";
              Demo.post Examples.gallery "g"]
             "out" default_delay (start fs_empty) in
  fst r = Ret tt
  /\ log (snd r)
     = [Print (MFound 2);
        Print (MScanning 1 2 (JStr "A post"));
        Get (JStr "http://site.example/missing");
        Print (MFailedFetch (JStr "http://site.example/missing") 404);
        Print (MScanning 2 2 (JStr "A post"));
        Get (JStr Examples.gallery);
        Print (MPotential 2);
        Get (JStr "http://site.example/img/one.jpg");
        Get (JStr "http://site.example/wp-content/gallery/album/two.jpg");
        Sleep default_delay;
        Print (MDone 2)]
  /\ disk (snd r) "out/g" = Some Dir
  /\ disk (snd r) "out/g/one.jpg" = Some (File "ONE")
  /\ disk (snd r) "out/g/two.jpg" = Some (File "TWO")
  /\ disk (snd r) "out/m" = None.
Proof. repeat split; reflexivity. Qed.

(** * Further properties of the scraper *)

Lemma written_whole_body E p : forall b n,
  stream_error E p n b = None -> written E p n b = body_bytes b.
Proof.
  induction b as [|chunk rest IH|e]; intros n H; simpl in *.
  - reflexivity.
  - destruct (write_fails E p n); [discriminate|]. now rewrite IH.
  - discriminate.
Qed.



(** An image answered with any status other than 200, another 2xx
    included, is passed over in silence: the request is all that is
    logged, nothing is printed, written or counted. *)
Theorem image_status_other_than_200_is_silent
    E link dir c img path st resp :
  resolve E link c = Ret img ->
  urlparse_path E img = Ret path ->
  fs_exists (disk st) (path_join dir (basename path)) = false ->
  http E (JStr img) = Ret resp ->
  status_code resp <> 200%Z ->
  download_image E link dir c st = (Ret tt, emit st (Get (JStr img))).
Proof.
  intros Hr Hp Hex Hhttp Hn.
  set (p := path_join dir (basename path)) in *.
  assert (Hnone : disk st p = None) by now apply fs_exists_false.
  destruct (fetch_and_save_run E img p st Hnone) as (_ & Hc).
  rewrite Hhttp in Hc. apply Z.eqb_neq in Hn. rewrite Hn in Hc.
  rewrite download_image_run, (target_of _ _ _ _ _ _ Hr Hp). fold p.
  now rewrite Hex.
Qed.

Lemma image_status_other_than_200_is_silent_witness :
  let st := start Examples.disk_with_dir in
  download_image no_content_env (JStr Examples.gallery) "out/g"
    "http://site.example/img/one.jpg" st
  = (Ret tt, emit st (Get (JStr "http://site.example/img/one.jpg"))).
Proof.
  intros st.
  apply (image_status_other_than_200_is_silent no_content_env
           (JStr Examples.gallery) "out/g"
           "http://site.example/img/one.jpg"
           "http://site.example/img/one.jpg" "/img/one.jpg" st
           (mkResponse 204 [] SEnd));
    first [reflexivity | discriminate].
Defined.

(** A post whose progress line the standard output takes, whose page is
    answered 200 and holds no candidate: whatever the delay, the page
    request is the only request, and the disk and the total are left as
    they were; in particular no folder is made for the post.  When
    [time.sleep] raises nothing for the delay, the delay follows the
    request and no exception leaves the iteration. *)
Theorem page_without_images_makes_no_folder
    E out delay n i post link title slug st resp :
  post_fields E post = Ret (link, title, slug) ->
  truthy link = true ->
  print_error E (MScanning (i + 1) n title) = None ->
  http E link = Ret resp ->
  status_code resp = 200%Z ->
  locate (content resp) = [] ->
  let r := process_post E out delay n i post st in
  requests (log (snd r)) = requests (log st) ++ [link]
  /\ disk (snd r) = disk st
  /\ total_downloaded (snd r) = total_downloaded st
  /\ (sleep_error E delay = None ->
      fst r = Ret tt
      /\ log (snd r)
         = log st ++ [Print (MScanning (i + 1) n title); Get link;
                      Sleep delay]).
Proof.
  intros Hf Hl Hscan Hh H200 Hloc r. subst r.
  rewrite process_post_run, Hf, Hl, (print_ok E _ st Hscan), scan_post_run,
    Hh, H200, Hloc.
  cbn [Z.eqb Pos.eqb download_all ret]. unfold time_sleep.
  destruct (sleep_error E delay) as [e|].
  - rewrite print_disk, print_total.
    destruct (print_log E (MErrorProcessing e)
                (emit (emit st (Print (MScanning (i + 1) n title)))
                      (Get link))) as (tail & -> & Htail).
    split; [|split; [reflexivity | split; [reflexivity | discriminate]]].
    cbn [log emit]. rewrite !requests_app, Htail. cbn [requests].
    now rewrite !app_nil_r.
  - cbn [fst snd log emit disk total_downloaded].
    split; [|split; [reflexivity | split; [reflexivity|]]].
    + rewrite !requests_app. cbn [requests]. now rewrite !app_nil_r.
    + intros _. split; [reflexivity|]. now rewrite <- !app_assoc.
Qed.

Lemma page_without_images_makes_no_folder_witness :
  let post := Demo.post "http://site.example/img/one.jpg" "empty" in
  let r := process_post Demo.env "out" default_delay 1 0 post
             (start fs_empty) in
  fst r = Ret tt /\ disk (snd r) "out/empty" = None.
Proof.
  intros post r.
  destruct (page_without_images_makes_no_folder Demo.env "out" default_delay
              1 0 post (JStr "http://site.example/img/one.jpg")
              (JStr "A post") (JStr "empty") (start fs_empty)
              (mkResponse 200 [] (SChunk "ONE" SEnd))
              eq_refl eq_refl eq_refl eq_refl eq_refl eq_refl)
    as (_ & H2 & _ & H4).
  destruct (H4 eq_refl) as [H1 _].
  split; [exact H1|]. fold r in H2. now rewrite H2.
Defined.

Lemma sleep_check_negative q :
  Qle_bool 0 q = false ->
  exists e, sleep_check (Finite q) = Some e
            /\ (e = "ValueError" \/ e = "OverflowError").
Proof.
  intros Hq. unfold sleep_check.
  destruct (Qle_bool (9223372036854775296 # 1) (q * (1000000000 # 1))
            || negb (Qle_bool (- (9223372036854776832 # 1))
                              (q * (1000000000 # 1)))).
  - exists "OverflowError". auto.
  - rewrite Hq. exists "ValueError". auto.
Qed.

(** With a negative delay, [time.sleep] raises inside the per-post [try],
    [ValueError] or, far below zero, [OverflowError]: a post whose
    progress line was printed and whose page is answered 200 has its
    images handled as usual and then ends in the handler of line 118,
    which prints the error instead of a pause; there is no pause, and
    when the standard output takes that line the exception does not
    leave the iteration. *)
Theorem negative_delay_is_reported_per_post
    E out q n i post link title slug st resp st_dl :
  post_fields E post = Ret (link, title, slug) ->
  truthy link = true ->
  print_error E (MScanning (i + 1) n title) = None ->
  http E link = Ret resp ->
  status_code resp = 200%Z ->
  download_all E out link slug (locate (content resp))
    (emit (emit st (Print (MScanning (i + 1) n title))) (Get link))
  = (Ret tt, st_dl) ->
  Qle_bool 0 q = false ->
  let r := process_post E out (Finite q) n i post st in
  exists e,
    sleep_check (Finite q) = Some e
    /\ (e = "ValueError" \/ e = "OverflowError")
    /\ r = print E (MErrorProcessing e) st_dl
    /\ (print_error E (MErrorProcessing e) = None ->
        r = (Ret tt, emit st_dl (Print (MErrorProcessing e))))
    /\ sleeps (log (snd r)) = sleeps (log st).
Proof.
  intros Hf Hl Hscan Hh H200 Hdl Hq r.
  destruct (sleep_check_negative q Hq) as (e & He & Hname).
  exists e. split; [exact He|]. split; [exact Hname|].
  assert (Hrun : r = print E (MErrorProcessing e) st_dl).
  { subst r.
    rewrite process_post_run, Hf, Hl, (print_ok E _ st Hscan), scan_post_run,
      Hh, H200.
    cbn [Z.eqb Pos.eqb]. rewrite Hdl. unfold time_sleep, sleep_error.
    now rewrite He. }
  split; [exact Hrun|]. split.
  - intros Hpr. now rewrite Hrun, (print_ok E _ _ Hpr).
  - rewrite Hrun.
    pose proof (download_all_no_sleep E out link slug (locate (content resp))
                  (emit (emit st (Print (MScanning (i + 1) n title)))
                        (Get link))) as Hns.
    rewrite Hdl in Hns. unfold no_sleep in Hns. cbn [snd] in Hns.
    pose proof (print_no_sleep E (MErrorProcessing e) st_dl) as Hp.
    unfold no_sleep in Hp. rewrite Hp, Hns.
    cbn [log emit]. rewrite !sleeps_app.
    change (sleeps [Print (MScanning (i + 1) n title)]) with 0.
    change (sleeps [Get link]) with 0. lia.
Qed.

Lemma negative_delay_is_reported_per_post_witness :
  let post := Demo.post Examples.gallery "g" in
  let r := process_post Demo.env "out" (Finite (-1 # 2)) 1 0 post
             (start fs_empty) in
  fst r = Ret tt /\ total_downloaded (snd r) = 2 /\ sleeps (log (snd r)) = 0.
Proof.
  intros post r.
  destruct (negative_delay_is_reported_per_post Demo.env "out" (-1 # 2) 1 0
              post (JStr Examples.gallery) (JStr "A post") (JStr "g")
              (start fs_empty) (mkResponse 200 Demo.gallery_page SEnd)
              (snd (download_all Demo.env "out" (JStr Examples.gallery)
                      (JStr "g") (locate Demo.gallery_page)
                      (emit (emit (start fs_empty)
                               (Print (MScanning 1 1 (JStr "A post"))))
                            (Get (JStr Examples.gallery)))))
              eq_refl eq_refl eq_refl eq_refl eq_refl eq_refl eq_refl)
    as (e & _ & _ & H1 & _ & H2).
  fold r in H1, H2.
  split; [now rewrite H1|]. split; [now rewrite H1 | exact H2].
Defined.

(** A page answered with any status other than 200, another 2xx
    included, is reported as failed with that status: when the standard
    output takes the progress line and the report, there is one request,
    one line of report, no image request, and the loop goes on. *)
Theorem page_status_other_than_200_is_failure
    E out delay n i post rest link title slug st resp :
  post_fields E post = Ret (link, title, slug) ->
  truthy link = true ->
  http E link = Ret resp ->
  status_code resp <> 200%Z ->
  print_error E (MScanning (i + 1) n title) = None ->
  print_error E (MFailedFetch link (status_code resp)) = None ->
  let st' := emit (emit (emit st (Print (MScanning (i + 1) n title)))
                        (Get link))
                  (Print (MFailedFetch link (status_code resp))) in
  process_post E out delay n i post st = (Ret tt, st')
  /\ scan_posts E out delay n i (post :: rest) st
     = scan_posts E out delay n (S i) rest st'.
Proof.
  intros Hf Hl Hh Hn Hscan Hfail st'.
  assert (Hrun : process_post E out delay n i post st = (Ret tt, st')).
  { rewrite process_post_run, Hf, Hl, (print_ok E _ st Hscan), scan_post_run,
      Hh.
    apply Z.eqb_neq in Hn. rewrite Hn. now rewrite (print_ok E _ _ Hfail). }
  split; [exact Hrun|]. simpl. unfold bind. now rewrite Hrun.
Qed.

Lemma page_status_other_than_200_is_failure_witness :
  log (snd (process_post no_content_env "out" default_delay 1 0
              (Demo.post Examples.gallery "g") (start fs_empty)))
  = [Print (MScanning 1 1 (JStr "A post")); Get (JStr Examples.gallery);
     Print (MFailedFetch (JStr Examples.gallery) 204)].
Proof.
  destruct (page_status_other_than_200_is_failure no_content_env "out"
              default_delay 1 0 (Demo.post Examples.gallery "g") []
              (JStr Examples.gallery) (JStr "A post") (JStr "g")
              (start fs_empty) (mkResponse 204 [] SEnd)
              eq_refl eq_refl eq_refl) as [H _];
    [discriminate | reflexivity | reflexivity |].
  now rewrite H.
Defined.

(** ** The loop over the candidates, run again in any order *)

(** If the loop over the candidates of a post finished without an
    exception, then on any disk that still holds what that loop left,
    going through the same candidates again, in whatever order and however
    often, downloads nothing: the disk and the total stay as they are and
    no exception is raised. *)
Theorem second_pass_in_any_order_downloads_nothing
    E link dir l1 l2 st1 st2 :
  fst (for_each (download_image E link dir) l1 st1) = Ret tt ->
  incl l2 l1 ->
  grows (disk (snd (for_each (download_image E link dir) l1 st1))) (disk st2) ->
  exists st2',
    for_each (download_image E link dir) l2 st2 = (Ret tt, st2')
    /\ disk st2' = disk st2
    /\ total_downloaded st2' = total_downloaded st2.
Proof.
  intros Hret. revert st2.
  induction l2 as [|c l2 IH]; intros st2 Hincl Hg.
  - exists st2. auto.
  - assert (Hc : In c l1) by (apply Hincl; now left).
    destruct (for_each_visited E link dir l1 st1 Hret c Hc) as (st_c & Hr & Hgc).
    destruct (download_image_second E link dir c st_c st2 Hr)
      as (st2m & Hs & Hd & Ht).
    { eapply grows_trans; eassumption. }
    destruct (IH st2m) as (st2' & Hs' & Hd' & Ht').
    { intros x Hx. apply Hincl. now right. }
    { now rewrite Hd. }
    exists st2'. simpl. unfold bind. rewrite Hs. split; [exact Hs'|].
    split; congruence.
Qed.

Lemma second_pass_in_any_order_downloads_nothing_witness :
  let f := download_image Demo.env (JStr Examples.gallery) "out/g" in
  let l1 := ["http://site.example/img/one.jpg";
             "/wp-content/gallery/album/two.jpg"] in
  let l2 := ["/wp-content/gallery/album/two.jpg";
             "http://site.example/img/one.jpg"] in
  let st1 := start Examples.disk_with_dir in
  let st2 := start (disk (snd (for_each f l1 st1))) in
  total_downloaded (snd (for_each f l1 st1)) = 2
  /\ exists st2',
       for_each f l2 st2 = (Ret tt, st2')
       /\ disk st2' = disk st2
       /\ total_downloaded st2' = 0.
Proof.
  intros f l1 l2 st1 st2. split; [reflexivity|].
  apply (second_pass_in_any_order_downloads_nothing Demo.env
           (JStr Examples.gallery) "out/g" l1 l2 st1 st2).
  - reflexivity.
  - intros x [<-|[<-|[]]]; simpl; tauto.
  - intros p Hp. exact Hp.
Defined.

(** ** Letter case of the extension *)

Lemma lower_str_app a b :
  lower_str (a ++ b) = (lower_str a ++ lower_str b)%string.
Proof. induction a; simpl; [reflexivity | now rewrite IHa]. Qed.

Lemma lower_str_split x : forall s y,
  lower_str s = (x ++ y)%string ->
  exists a b, s = (a ++ b)%string /\ lower_str a = x /\ lower_str b = y.
Proof.
  induction x as [|c x IH]; intros s y H.
  - now exists EmptyString, s.
  - destruct s as [|d s]; [discriminate H|]. simpl in H.
    injection H as Hc Hs. destruct (IH s y Hs) as (a & b & -> & Ha & Hb).
    exists (String d a), b. simpl. now rewrite Hc, Ha.
Qed.

Lemma lower_newline c : lower c = ascii_of_nat 10 -> c = ascii_of_nat 10.
Proof.
  destruct c as [[] [] [] [] [] [] [] []]; vm_compute; intros H;
    first [reflexivity | discriminate H].
Qed.

Lemma eqb_lower_other c :
  Ascii.eqb (lower c) (ascii_of_nat 196) = Ascii.eqb c (ascii_of_nat 196)
  /\ Ascii.eqb (lower c) (ascii_of_nat 176) = Ascii.eqb c (ascii_of_nat 176)
  /\ Ascii.eqb (lower c) (ascii_of_nat 177) = Ascii.eqb c (ascii_of_nat 177).
Proof. destruct c as [[] [] [] [] [] [] [] []]; repeat split; reflexivity. Qed.

Lemma other_i_lower c d : other_i (lower c) (lower d) = other_i c d.
Proof.
  unfold other_i.
  destruct (eqb_lower_other c) as (-> & _).
  destruct (eqb_lower_other d) as (_ & -> & ->). reflexivity.
Qed.

Lemma fold_case_lower s :
  fold_case (lower_str s) = fold_case s
  /\ forall c, fold_case (lower_str (String c s)) = fold_case (String c s).
Proof.
  induction s as [|d t [IH1 IH2]].
  - split; [reflexivity|]. intros c. cbn [lower_str fold_case].
    now rewrite lower_idem.
  - split; [apply IH2|]. intros c.
    change (lower_str (String c (String d t)))
      with (String (lower c) (String (lower d) (lower_str t))).
    rewrite !fold_case_two, other_i_lower, lower_idem.
    destruct (other_i c d); [now rewrite IH1|].
    f_equal. apply (IH2 d).
Qed.

Lemma is_image_url_same_lower a b :
  lower_str a = lower_str b -> is_image_url a = true -> is_image_url b = true.
Proof.
  intros Hab Ha. unfold is_image_url in *.
  apply re_search_spec in Ha. destruct Ha as (stem & suf & -> & Hm).
  apply match_here_spec in Hm. destruct Hm as (ext & tail & -> & He & Ht).
  symmetry in Hab. rewrite lower_str_app in Hab.
  apply lower_str_split in Hab. destruct Hab as (b1 & b2 & -> & _ & H2).
  change (lower_str ("." ++ ext ++ tail))
    with (String "." (lower_str (ext ++ tail))) in H2.
  destruct b2 as [|d b2]; [discriminate H2|]. simpl in H2.
  injection H2 as Hd H2. apply lower_dot in Hd. subst d.
  rewrite lower_str_app in H2. apply lower_str_split in H2.
  destruct H2 as (e' & t' & -> & He' & Ht').
  apply re_search_spec. exists b1, ("." ++ e' ++ t')%string.
  split; [reflexivity|]. apply match_here_spec. exists e', t'.
  split; [reflexivity|]. split.
  - rewrite <- (proj1 (fold_case_lower e')), He'.
    now rewrite (proj1 (fold_case_lower ext)).
  - destruct Ht as [->| ->].
    + left. destruct t'; [reflexivity | discriminate Ht'].
    + right. destruct t' as [|c [|c' t']]; try discriminate Ht'.
      simpl in Ht'. injection Ht' as Hc. apply lower_newline in Hc.
      now subst c.
Qed.

(** [is_image_url] looks at its argument only up to the case of ASCII
    letters: two strings that differ in letter case alone are both
    accepted or both rejected. *)
Theorem is_image_url_ignores_case a b :
  lower_str a = lower_str b -> is_image_url a = is_image_url b.
Proof.
  intros Hab.
  destruct (is_image_url a) eqn:Ha; destruct (is_image_url b) eqn:Hb;
    try reflexivity.
  - rewrite (is_image_url_same_lower a b Hab Ha) in Hb. discriminate.
  - symmetry in Hab.
    rewrite (is_image_url_same_lower b a Hab Hb) in Ha. discriminate.
Qed.

Lemma is_image_url_ignores_case_witness :
  is_image_url "HTTP://H/Photo.JpEg" = is_image_url "http://h/photo.jpeg".
Proof. apply is_image_url_ignores_case. reflexivity. Defined.

(** ** The rewriting, where there is nothing to rewrite *)

Lemma replace_absent old new s :
  contains old s = false -> replace old new s = s.
Proof.
  unfold replace. induction s as [|c t IH]; intros H; [reflexivity|].
  cbn [contains] in H. apply orb_false_iff in H. destruct H as [Hp Hc].
  rewrite replace_miss by exact Hp. now rewrite IH.
Qed.

Lemma prefix_of_app a b : forall s,
  String.prefix (a ++ b) s = true -> String.prefix a s = true.
Proof.
  induction a as [|c a IH]; intros s H; [apply prefix_nil|].
  destruct s as [|d s]; [discriminate H|].
  cbn [append String.prefix] in *.
  destruct (ascii_dec c d); [now apply IH | discriminate H].
Qed.

Lemma contains_of_app a b s :
  contains (a ++ b) s = true -> contains a s = true.
Proof.
  induction s as [|c t IH]; cbn [contains]; intros H.
  - rewrite orb_false_r in *. now apply prefix_of_app with (b := b).
  - apply orb_true_iff in H. apply orb_true_iff. destruct H as [H|H].
    + left. now apply prefix_of_app with (b := b).
    + right. now apply IH.
Qed.

Lemma full_size_without_thumbs u :
  contains "/thumbs/" u = false -> full_size u = u.
Proof.
  intros H. unfold full_size.
  rewrite (replace_absent "/thumbs/thumbs_" "/" u).
  - now apply replace_absent.
  - destruct (contains "/thumbs/thumbs_" u) eqn:Hc; [|reflexivity].
    apply (contains_of_app "/thumbs/" "thumbs_") in Hc. congruence.
Qed.

(** The test of line 71 guards nothing: on an address without a
    [/thumbs/] segment the rewriting of lines 73-75 is the identity, so
    what strategy 2 adds for a tag is in every case the rewriting of its
    address. *)
Theorem strategy2_adds_the_rewriting_in_every_case tag c :
  path_candidate tag = Some c <->
  exists url,
    href_or_src tag = Some url
    /\ url <> ""
    /\ contains "/wp-content/gallery/" url = true
    /\ c = full_size url.
Proof.
  unfold path_candidate. split.
  - destruct (href_or_src tag) as [url|]; [|discriminate].
    destruct (String.eqb_spec url "") as [->|Hne]; [discriminate|].
    cbn [negb andb].
    destruct (contains "/wp-content/gallery/" url) eqn:Hg; [|discriminate].
    intros H. injection H as <-. exists url. repeat split; try assumption.
    destruct (contains "/thumbs/" url) eqn:Ht; [reflexivity|].
    symmetry. now apply full_size_without_thumbs.
  - intros (url & -> & Hne & Hg & ->). apply String.eqb_neq in Hne.
    rewrite Hne, Hg. cbn [negb andb]. f_equal.
    destruct (contains "/thumbs/" url) eqn:Ht; [reflexivity|].
    symmetry. now apply full_size_without_thumbs.
Qed.

Lemma strategy2_adds_the_rewriting_in_every_case_witness :
  path_candidate
    (Tag "img" [] [("src", "http://h/wp-content/gallery/al/a.jpg")] [])
  = Some "http://h/wp-content/gallery/al/a.jpg".
Proof.
  apply (proj2 (strategy2_adds_the_rewriting_in_every_case _ _)).
  exists "http://h/wp-content/gallery/al/a.jpg".
  split; [reflexivity|]. split; [discriminate|]. split; reflexivity.
Defined.

(** ** Where a run writes *)

Lemma contains_slash_app a b :
  contains "/" (a ++ b) = contains "/" a || contains "/" b.
Proof.
  induction a as [|c a IH].
  - cbn [append contains]. destruct b; reflexivity.
  - cbn [append contains String.prefix].
    destruct (ascii_dec "/" c).
    + now rewrite !prefix_nil.
    + now rewrite IH.
Qed.

Lemma after_last_slash_no_slash s : forall cur pre,
  cur = (pre ++ s)%string -> contains "/" pre = false ->
  contains "/" (after_last_slash cur s) = false.
Proof.
  induction s as [|c t IH]; intros cur pre Hcur Hpre; simpl.
  - subst cur. now rewrite append_nil_r.
  - destruct (Ascii.eqb_spec c "/") as [->|Hc].
    + apply (IH t EmptyString); reflexivity.
    + apply (IH cur (pre ++ String c EmptyString)%string).
      * subst cur. now rewrite append_assoc.
      * rewrite contains_slash_app, Hpre. cbn [contains String.prefix orb].
        destruct (ascii_dec "/" c); [congruence | reflexivity].
Qed.

Lemma basename_no_slash p : contains "/" (basename p) = false.
Proof. apply (after_last_slash_no_slash p p EmptyString); reflexivity. Qed.

Lemma prefix_trans a b c :
  String.prefix a b = true -> String.prefix b c = true ->
  String.prefix a c = true.
Proof.
  intros Hab Hbc. apply prefix_split in Hab, Hbc.
  destruct Hab as [r ->]. destruct Hbc as [r' ->].
  rewrite append_assoc. apply prefix_app.
Qed.

Lemma path_join_prefix a b :
  startswith "/" b = false -> String.prefix a (path_join a b) = true.
Proof.
  intros H. unfold path_join. rewrite H.
  destruct ((a =? "") || ends_with_slash a); apply prefix_app.
Qed.

Lemma heads_eq k name :
  heads k name
  = let (head0, tail0) := path_split name in
    let (head, tail) :=
      if tail0 =? "" then path_split head0 else (head0, tail0) in
    if negb (head =? "") && negb (tail =? "")
    then match k with
         | O => []
         | S k' => head :: heads k' head
         end
    else [].
Proof. destruct k; reflexivity. Qed.

(** [os.makedirs] makes nothing but its argument and the heads on the way
    to it. *)
Lemma preserves_makedirs_on (R : state -> state -> Prop) E :
  (forall st, R st st) ->
  (forall a b c, R a b -> R b c -> R a c) ->
  forall k name,
    preserves R (os_mkdir E name) ->
    (forall h, In h (heads k name) -> preserves R (os_mkdir E h)) ->
    preserves R (makedirs E k name).
Proof.
  intros Hrefl Htrans.
  induction k as [|k IH]; intros name Hname Hheads;
    rewrite makedirs_eq; rewrite heads_eq in Hheads;
    destruct (path_split name) as [head0 tail0];
    destruct (if tail0 =? "" then path_split head0 else (head0, tail0))
      as [head tail];
    (destruct (negb (head =? "") && negb (tail =? "")); [|exact Hname]);
    (apply preserves_bind; [exact Htrans | now apply preserves_exists|]);
    intros [|]; try exact Hname.
  - now apply preserves_raise.
  - apply preserves_bind; [exact Htrans | |].
    + apply preserves_try; [exact Htrans | |].
      * apply IH.
        -- apply Hheads. now left.
        -- intros h Hh. apply Hheads. now right.
      * intros e. destruct (e =? "FileExistsError");
          [now apply preserves_ret | now apply preserves_raise].
    + intros _. destruct (tail =? "."); [now apply preserves_ret | exact Hname].
Qed.

Lemma prefix_refl a : String.prefix a a = true.
Proof. rewrite <- (append_nil_r a) at 2. apply prefix_app. Qed.

Lemma rstrip_slash_prefix s : String.prefix (rstrip_slash s) s = true.
Proof.
  induction s as [|c t IH]; [reflexivity|]. cbn [rstrip_slash].
  destruct (rstrip_slash t) as [|d r] eqn:Hr.
  - destruct (Ascii.eqb c "/"); [apply prefix_nil|].
    cbn [String.prefix]. destruct (ascii_dec c c); [apply prefix_nil|congruence].
  - cbn [String.prefix]. destruct (ascii_dec c c); [exact IH | congruence].
Qed.

Lemma upto_last_slash_prefix s : String.prefix (upto_last_slash s) s = true.
Proof.
  induction s as [|c t IH]; [reflexivity|]. cbn [upto_last_slash].
  destruct (upto_last_slash t) as [|d r] eqn:Hr.
  - destruct (Ascii.eqb c "/"); [|apply prefix_nil].
    cbn [String.prefix]. destruct (ascii_dec c c); [apply prefix_nil|congruence].
  - cbn [String.prefix]. destruct (ascii_dec c c); [exact IH | congruence].
Qed.

Lemma path_split_prefix p : String.prefix (fst (path_split p)) p = true.
Proof.
  unfold path_split. cbn [fst].
  destruct (rstrip_slash (upto_last_slash p) =? "").
  - apply upto_last_slash_prefix.
  - apply prefix_trans with (b := upto_last_slash p).
    + apply rstrip_slash_prefix.
    + apply upto_last_slash_prefix.
Qed.

Lemma prefix_length a : forall b,
  String.prefix a b = true -> String.length a <= String.length b.
Proof.
  induction a as [|x a IH]; intros b H; [cbn; lia|].
  destruct b as [|y b]; [discriminate H|]. cbn [String.prefix] in H.
  destruct (ascii_dec x y); [|discriminate H].
  cbn [String.length]. specialize (IH b H). lia.
Qed.

Lemma upto_empty_no_slash s :
  upto_last_slash s = "" -> contains "/" s = false.
Proof.
  induction s as [|c t IH]; [reflexivity|]. cbn [upto_last_slash].
  destruct (upto_last_slash t) as [|d r]; [|discriminate].
  destruct (Ascii.eqb_spec c "/") as [->|Hn]; [discriminate|].
  intros _. cbn [contains String.prefix].
  destruct (ascii_dec "/" c) as [Heq|_]; [now destruct Hn|].
  now apply IH.
Qed.

Lemma upto_after_length s : forall cur,
  String.length (upto_last_slash s) + String.length (after_last_slash cur s)
  = if contains "/" s then String.length s else String.length cur.
Proof.
  induction s as [|c t IH]; intros cur; [reflexivity|].
  cbn [upto_last_slash after_last_slash].
  destruct (Ascii.eqb_spec c "/") as [->|Hn].
  - assert (Hc : contains "/" (String "/" t) = true).
    { cbn [contains String.prefix]. destruct (ascii_dec "/" "/"); [|congruence].
      now rewrite prefix_nil. }
    rewrite Hc. specialize (IH t).
    assert (Ht : String.length (upto_last_slash t)
                 + String.length (after_last_slash t t) = String.length t)
      by (now destruct (contains "/" t)).
    destruct (upto_last_slash t); cbn [String.length] in *; lia.
  - assert (Hc : contains "/" (String c t) = contains "/" t).
    { cbn [contains String.prefix].
      destruct (ascii_dec "/" c) as [Heq|_]; [now destruct Hn | reflexivity]. }
    rewrite Hc. specialize (IH cur).
    destruct (upto_last_slash t) as [|d r] eqn:Hu.
    + now rewrite (upto_empty_no_slash t Hu) in *.
    + destruct (contains "/" t) eqn:Hct.
      * cbn [String.length] in *. lia.
      * rewrite (no_slash_upto t Hct) in Hu. discriminate Hu.
Qed.

Lemma path_split_length p :
  String.length (fst (path_split p)) + String.length (snd (path_split p))
  <= String.length p.
Proof.
  unfold path_split. cbn [fst snd].
  pose proof (upto_after_length p p) as H. fold (basename p) in H.
  assert (Hp : String.length (upto_last_slash p) + String.length (basename p)
               = String.length p) by (now destruct (contains "/" p)).
  destruct (rstrip_slash (upto_last_slash p) =? ""); [lia|].
  pose proof (prefix_length _ _ (rstrip_slash_prefix (upto_last_slash p))).
  lia.
Qed.

(** The head that [os.makedirs] goes on with is shorter than its path. *)
Lemma head_shorter name :
  let (head0, tail0) := path_split name in
  let (head, tail) :=
    if tail0 =? "" then path_split head0 else (head0, tail0) in
  negb (head =? "") && negb (tail =? "") = true ->
  String.length head < String.length name.
Proof.
  pose proof (path_split_length name) as H0.
  destruct (path_split name) as [head0 tail0]. cbn [fst snd] in H0.
  destruct (String.eqb_spec tail0 "") as [->|Hne].
  - pose proof (path_split_length head0) as H1.
    destruct (path_split head0) as [head tail]. cbn [fst snd] in H1.
    intros Hc. apply andb_true_iff in Hc. destruct Hc as [_ Ht].
    apply negb_true_iff, String.eqb_neq in Ht.
    destruct tail; [now destruct Ht|]. cbn [String.length] in *. lia.
  - intros _. destruct tail0; [now destruct Hne|].
    cbn [String.length] in *. lia.
Qed.

(** The bound on the depth of [makedirs] is never reached: from the
    length of the path on, more fuel changes nothing. *)
Lemma makedirs_fuel E : forall k1 k2 name,
  String.length name <= k1 -> String.length name <= k2 ->
  makedirs E k1 name = makedirs E k2 name.
Proof.
  induction k1 as [|k1 IH]; intros k2 name H1 H2.
  - destruct name; [|cbn in H1; lia]. now destruct k2.
  - destruct k2 as [|k2].
    { destruct name; [|cbn in H2; lia]. reflexivity. }
    rewrite (makedirs_eq E (S k1)), (makedirs_eq E (S k2)).
    pose proof (head_shorter name) as Hs.
    destruct (path_split name) as [head0 tail0].
    destruct (if tail0 =? "" then path_split head0 else (head0, tail0))
      as [head tail].
    destruct (negb (head =? "") && negb (tail =? "")); [|reflexivity].
    specialize (Hs eq_refl).
    rewrite (IH k2 head) by lia. reflexivity.
Qed.

Lemma os_makedirs_fuel E name k :
  String.length name <= k -> makedirs E k name = os_makedirs E name.
Proof.
  intros H. unfold os_makedirs. now apply makedirs_fuel.
Qed.

(** Every head on the way to a path is a leading part of it. *)
Lemma heads_prefix : forall k name h,
  In h (heads k name) -> String.prefix h name = true.
Proof.
  induction k as [|k IH]; intros name h; rewrite heads_eq;
    pose proof (path_split_prefix name) as H0;
    destruct (path_split name) as [head0 tail0]; cbn [fst] in H0.
  - destruct (if tail0 =? "" then path_split head0 else (head0, tail0))
      as [head tail].
    destruct (negb (head =? "") && negb (tail =? "")); intros [].
  - assert (H1 : String.prefix
                   (fst (if tail0 =? "" then path_split head0
                         else (head0, tail0))) name = true).
    { destruct (tail0 =? ""); [|exact H0].
      apply prefix_trans with (b := head0); [|exact H0].
      apply path_split_prefix. }
    destruct (if tail0 =? "" then path_split head0 else (head0, tail0))
      as [head tail]. cbn [fst] in H1.
    destruct (negb (head =? "") && negb (tail =? "")); [|intros []].
    intros [<-|Hin]; [exact H1|].
    apply prefix_trans with (b := head); [|exact H1]. now apply IH.
Qed.

Lemma prefix_comparable a : forall b c,
  String.prefix a c = true -> String.prefix b c = true ->
  String.prefix a b = true \/ String.prefix b a = true.
Proof.
  induction a as [|x a IH]; intros b c Ha Hb; [left; apply prefix_nil|].
  destruct b as [|y b]; [right; reflexivity|].
  destruct c as [|z c]; [discriminate Ha|].
  cbn [String.prefix] in *.
  destruct (ascii_dec x z) as [->|]; [|discriminate Ha].
  destruct (ascii_dec y z) as [->|]; [|discriminate Hb].
  destruct (ascii_dec z z); [|congruence].
  now apply (IH b c).
Qed.

Section Confined.

Variable E : Env.
Variable out : string.
Variable posts : list json.

Let R := confined E out posts.

Lemma confined_refl st : R st st.
Proof. intros p Hp. now left. Qed.

Lemma confined_trans a b c : R a b -> R b c -> R a c.
Proof.
  intros Hab Hbc p Hp. destruct (Hbc p Hp) as [H|H]; [auto | now right].
Qed.

Lemma confined_same_disk {A} (m : M A) :
  (forall st, disk (snd (m st)) = disk st) -> preserves R m.
Proof. intros H st p Hp. left. now rewrite H in Hp. Qed.

Lemma confined_bind_ret {A B} (a : A) (k : A -> M B) :
  preserves R (k a) -> preserves R (bind (ret a) k).
Proof. intros H st. exact (H st). Qed.

Lemma os_mkdir_confined p :
  may_create E out posts p -> preserves R (os_mkdir E p).
Proof.
  intros Hmay st. unfold os_mkdir.
  destruct (disk st p); [apply confined_refl|].
  destruct (os_refuses E p); [apply confined_refl|].
  intros q Hq. cbn [snd disk with_disk] in Hq.
  destruct (String.eqb_spec q p) as [->|Hn]; [now right|].
  left. unfold fs_exists in *. now rewrite fs_set_other in Hq.
Qed.

Lemma os_makedirs_confined folder :
  (forall p, on_the_way folder p -> may_create E out posts p) ->
  preserves R (os_makedirs E folder).
Proof.
  intros Hmay. unfold os_makedirs.
  apply preserves_makedirs_on;
    [exact confined_refl | exact confined_trans | |].
  - apply os_mkdir_confined, Hmay. now left.
  - intros h Hh. apply os_mkdir_confined, Hmay. now right.
Qed.

Lemma download_image_confined link post dir c :
  In post posts -> post_dir E out post = Some dir ->
  preserves R (download_image E link dir c).
Proof.
  intros Hin Hdir st. rewrite download_image_run.
  unfold target.
  destruct (resolve E link c) as [img|e]; [|apply confined_refl].
  destruct (urlparse_path E img) as [path|e]; [|apply confined_refl].
  destruct (fs_exists (disk st) (path_join dir (basename path))) eqn:Hex;
    [apply confined_refl|].
  apply fs_exists_false in Hex.
  destruct (fetch_and_save_run E img _ st Hex) as (Hframe & _).
  intros q Hq.
  destruct (String.eqb_spec q (path_join dir (basename path))) as [->|Hn].
  - right. right. right. exists post, dir, (basename path).
    repeat split; try assumption. apply basename_no_slash.
  - left. unfold fs_exists in *. now rewrite (Hframe q Hn) in Hq.
Qed.

Lemma download_all_confined post link title slug imgs :
  In post posts -> post_fields E post = Ret (link, title, slug) ->
  preserves R (download_all E out link slug imgs).
Proof.
  intros Hin Hf. unfold download_all. destruct imgs as [|x imgs].
  - apply preserves_ret, confined_refl.
  - apply preserves_bind; [apply confined_trans | |].
    { apply confined_same_disk. apply print_disk. }
    intros _. destruct slug as [| | |s| |];
      try (intros st; unfold bind, raise; apply confined_refl).
    assert (Hdir : post_dir E out post = Some (path_join out s)).
    { unfold post_dir. now rewrite Hf. }
    apply confined_bind_ret.
    apply preserves_bind; [apply confined_trans | |].
    { apply preserves_exists, confined_refl. }
    intros ex. apply preserves_bind; [apply confined_trans | |].
    + destruct ex; [apply preserves_ret, confined_refl|].
      apply os_makedirs_confined. intros p Hp. right. left.
      now exists post, (path_join out s).
    + intros _. apply preserves_for_each;
        [apply confined_refl | apply confined_trans |].
      intros c. now apply download_image_confined with (post := post).
Qed.

Lemma scan_post_confined delay post link title slug :
  In post posts -> post_fields E post = Ret (link, title, slug) ->
  preserves R (scan_post E out delay link slug).
Proof.
  intros Hin Hf. unfold scan_post.
  apply preserves_bind; [apply confined_trans | |].
  { apply confined_same_disk. reflexivity. }
  intros r. destruct (negb (Z.eqb (status_code r) 200)).
  { apply confined_same_disk. apply print_disk. }
  apply preserves_bind; [apply confined_trans | |].
  - now apply download_all_confined with (post := post) (title := title).
  - intros _. apply confined_same_disk. apply time_sleep_disk.
Qed.

Lemma process_post_confined delay n i post :
  In post posts -> preserves R (process_post E out delay n i post).
Proof.
  intros Hin st. rewrite process_post_run.
  destruct (post_fields E post) as [[[link title] slug]|e] eqn:Hf;
    [|apply confined_refl].
  destruct (truthy link); [|apply confined_refl].
  pose proof (confined_same_disk (print E (MScanning (i + 1) n title))
                (print_disk E _) st) as H0.
  destruct (print E (MScanning (i + 1) n title) st) as [[[]|e] st0];
    [|exact H0].
  cbn [snd] in H0. apply confined_trans with (b := st0); [exact H0|].
  pose proof (scan_post_confined delay post link title slug Hin Hf st0) as Hs.
  destruct (scan_post E out delay link slug st0) as [[[]|e] st']; [exact Hs|].
  cbn [snd] in Hs. apply confined_trans with (b := st'); [exact Hs|].
  apply (confined_same_disk (print E (MErrorProcessing e)) (print_disk E _)).
Qed.

Lemma scan_posts_confined delay n rest : forall i,
  incl rest posts -> preserves R (scan_posts E out delay n i rest).
Proof.
  induction rest as [|post rest IH]; intros i Hincl; simpl.
  - apply preserves_ret, confined_refl.
  - apply preserves_bind; [apply confined_trans | |].
    + apply process_post_confined, Hincl. now left.
    + intros _. apply IH. intros x Hx. apply Hincl. now right.
Qed.

Lemma scrape_confined delay :
  preserves R (scrape_ngg_images E posts out delay).
Proof.
  unfold scrape_ngg_images.
  apply preserves_bind; [apply confined_trans | |].
  { apply preserves_exists, confined_refl. }
  intros ex. apply preserves_bind; [apply confined_trans | |].
  { destruct ex; [apply preserves_ret, confined_refl|].
    apply os_makedirs_confined. intros p Hp. now left. }
  intros _. apply preserves_bind; [apply confined_trans | |].
  { apply confined_same_disk. apply print_disk. }
  intros _. apply preserves_bind; [apply confined_trans | |].
  { apply confined_same_disk. reflexivity. }
  intros _. apply preserves_bind; [apply confined_trans | |].
  { apply scan_posts_confined, incl_refl. }
  intros _. apply confined_same_disk. intros st. apply print_disk.
Qed.

End Confined.

Lemma on_the_way_prefix folder p :
  on_the_way folder p -> String.prefix p folder = true.
Proof.
  intros [->|Hin]; [apply prefix_refl|].
  now apply heads_prefix with (k := String.length folder).
Qed.

Lemma may_create_prefix E out posts p :
  (forall post s, In post posts -> post_slug E post = Some s ->
                  startswith "/" s = false) ->
  may_create E out posts p ->
  String.prefix out p = true \/ String.prefix p out = true.
Proof.
  intros Hrel [Hway|[(post & d & Hin & Hd & Hway)
                    |(post & d & f & Hin & Hd & Hf & ->)]].
  - right. now apply on_the_way_prefix.
  - unfold post_dir in Hd.
    destruct (post_fields E post) as [[[l t] [| | |s| |]]|e] eqn:Hpf;
      try discriminate Hd.
    injection Hd as <-.
    apply prefix_comparable with (c := path_join out s).
    + apply path_join_prefix, (Hrel post s Hin).
      unfold post_slug. now rewrite Hpf.
    + now apply on_the_way_prefix.
  - left. unfold post_dir in Hd.
    destruct (post_fields E post) as [[[l t] [| | |s| |]]|e] eqn:Hpf;
      try discriminate Hd.
    injection Hd as <-. apply prefix_trans with (b := path_join out s).
    + apply path_join_prefix, (Hrel post s Hin).
      unfold post_slug. now rewrite Hpf.
    + apply path_join_prefix. now apply no_slash_not_absolute.
Qed.



(** * Properties of Report.py *)

(** ** [tree_categories] *)

Lemma children_of_dicts cats p :
  forallb is_dict cats = true ->
  exists l,
    children_of cats p = Ret l
    /\ (forall c, In c l <-> In c cats /\ py_eq (cat_parent c) p = true)
    /\ forallb is_dict l = true.
Proof.
  induction cats as [|cat cats IH]; intros Hd.
  - exists []. simpl. repeat split; tauto.
  - simpl in Hd. apply andb_true_iff in Hd. destruct Hd as [Hc Hd].
    destruct (IH Hd) as (l & Hl & Hin & Hdl).
    destruct cat as [| | | | |fields]; try discriminate Hc.
    cbn [children_of dict_get]. rewrite Hl.
    set (p0 := match assoc "parent" fields with
               | Some v => v
               | None => JNum 0
               end).
    assert (Hp0 : cat_parent (JObj fields) = p0) by reflexivity.
    destruct (py_eq p0 p) eqn:Hp.
    + exists (JObj fields :: l). split; [reflexivity|]. split.
      * intros c. simpl. rewrite Hin. split.
        -- intros [<-|[H1 H2]]; [rewrite Hp0|]; auto.
        -- intros [[<-|H1] H2]; auto.
      * simpl. exact Hdl.
    + exists l. split; [reflexivity|]. split; [|exact Hdl].
      intros c. rewrite Hin. simpl. split.
      * intros [H1 H2]. auto.
      * intros [[<-|H1] H2]; [|auto]. rewrite Hp0 in H2. congruence.
Qed.

Lemma dict_get_id cat :
  is_dict cat = true -> dict_get cat "id" (JNum 0) = Ret (cat_id cat).
Proof. destruct cat; try discriminate. reflexivity. Qed.

Lemma dict_get_name cat :
  is_dict cat = true -> exists n, dict_get cat "name" (JStr "") = Ret n.
Proof. destruct cat; try discriminate. simpl. eauto. Qed.

Section Tree.

Variable fmt : json -> string.

Lemma tree_loop_only_recursion_error recurse prefix :
  (forall id e, recurse id = Raise e -> e = "RecursionError") ->
  forall children tree e,
    forallb is_dict children = true ->
    tree_loop fmt recurse prefix children tree = Raise e ->
    e = "RecursionError".
Proof.
  intros Hrec. induction children as [|cat rest IH]; intros tree e Hd H.
  - discriminate H.
  - simpl in Hd. apply andb_true_iff in Hd. destruct Hd as [Hc Hd].
    cbn [tree_loop] in H.
    destruct (dict_get_name cat Hc) as [n Hn]. rewrite Hn in H.
    rewrite (dict_get_id cat Hc) in H.
    destruct (recurse (cat_id cat)) as [sub|e'] eqn:Hr.
    + now apply IH in H.
    + injection H as <-. now apply Hrec in Hr.
Qed.

Lemma tree_only_recursion_error cats :
  forallb is_dict cats = true ->
  forall limit p prefix e,
    tree_categories fmt limit cats p prefix = Raise e -> e = "RecursionError".
Proof.
  intros Hd. induction limit as [|limit IH]; intros p prefix e H.
  - simpl in H. now injection H as <-.
  - cbn [tree_categories] in H.
    destruct (children_of_dicts cats p Hd) as (l & Hl & _ & Hdl).
    rewrite Hl in H.
    eapply tree_loop_only_recursion_error; [|exact Hdl|exact H].
    intros id e' He'. now apply IH in He'.
Qed.

Lemma tree_loop_raises recurse prefix c :
  (forall id e, recurse id = Raise e -> e = "RecursionError") ->
  recurse (cat_id c) = Raise "RecursionError" ->
  forall children tree,
    forallb is_dict children = true ->
    In c children ->
    tree_loop fmt recurse prefix children tree = Raise "RecursionError".
Proof.
  intros Hrec Hc. induction children as [|cat rest IH]; intros tree Hd Hin.
  - destruct Hin.
  - simpl in Hd. apply andb_true_iff in Hd. destruct Hd as [Hcat Hd].
    cbn [tree_loop].
    destruct (dict_get_name cat Hcat) as [n Hn]. rewrite Hn.
    rewrite (dict_get_id cat Hcat).
    destruct (recurse (cat_id cat)) as [sub|e'] eqn:Hr.
    + destruct Hin as [->|Hin]; [congruence|]. now apply IH.
    + f_equal. now apply Hrec in Hr.
Qed.

(** A category that is its own parent among the children of [parent] (for
    the call of [main]: a category whose [id] and [parent] are both 0, or
    both missing) makes [tree_categories] recurse without end: whatever
    the recursion limit, the call raises [RecursionError]. *)
Theorem tree_of_self_parent_never_returns cats c parent :
  forallb is_dict cats = true ->
  In c cats ->
  py_eq (cat_parent c) parent = true ->
  cat_id c = parent ->
  forall limit prefix,
    tree_categories fmt limit cats parent prefix = Raise "RecursionError".
Proof.
  intros Hd Hin Hp Hid. induction limit as [|limit IH]; intros prefix.
  - reflexivity.
  - cbn [tree_categories].
    destruct (children_of_dicts cats parent Hd) as (l & Hl & Hinl & Hdl).
    rewrite Hl. apply tree_loop_raises with (c := c).
    + intros id e He. now apply (tree_only_recursion_error cats Hd) in He.
    + rewrite Hid. apply IH.
    + exact Hdl.
    + apply Hinl. auto.
Qed.

Lemma tree_loop_returns prefix n (rec : nat -> json -> exc string) :
  forall children,
    forallb is_dict children = true ->
    (forall c, In c children ->
       exists o, forall l, n <= l -> rec l (cat_id c) = Ret o) ->
    forall tree,
      exists out, forall l, n <= l ->
        tree_loop fmt (rec l) prefix children tree = Ret out.
Proof.
  induction children as [|cat rest IH]; intros Hd Hrec tree.
  - exists tree. reflexivity.
  - simpl in Hd. apply andb_true_iff in Hd. destruct Hd as [Hcat Hd].
    destruct (dict_get_name cat Hcat) as [name Hn].
    destruct (Hrec cat (or_introl eq_refl)) as [sub Hsub].
    destruct (IH Hd (fun c Hc => Hrec c (or_intror Hc))
                (tree ++ (prefix ++ "📂 " ++ fmt name ++ newline) ++ sub)%string)
      as [out Hout].
    exists out. intros l Hl. cbn [tree_loop].
    rewrite Hn, (dict_get_id cat Hcat), (Hsub l Hl). now apply Hout.
Qed.

Lemma tree_returns_below cats (rank : json -> nat) :
  forallb is_dict cats = true ->
  (forall c p, In c cats -> py_eq (cat_parent c) p = true ->
               rank (cat_id c) < rank p) ->
  forall n parent prefix,
    rank parent < n ->
    exists out, forall limit, n <= limit ->
      tree_categories fmt limit cats parent prefix = Ret out.
Proof.
  intros Hd Hrank. induction n as [|n IH]; intros parent prefix Hn; [lia|].
  destruct (children_of_dicts cats parent Hd) as (l & Hl & Hinl & Hdl).
  destruct (tree_loop_returns prefix n
              (fun k id => tree_categories fmt k cats id (prefix ++ "    "))
              l Hdl) with (tree := EmptyString) as [out Hout].
  { intros c Hc. apply Hinl in Hc. destruct Hc as [Hc Hp].
    apply IH. specialize (Hrank c parent Hc Hp). lia. }
  exists out. intros limit Hlim. destruct limit as [|limit]; [lia|].
  cbn [tree_categories]. rewrite Hl. apply Hout. lia.
Qed.

(** When the parent links of the categories cannot loop (some rank of the
    ids falls from each parent to its children), [tree_categories] returns,
    and returns the same tree, under every recursion limit above the rank
    of the starting parent. *)
Theorem tree_of_ranked_categories_returns cats (rank : json -> nat)
    parent prefix :
  forallb is_dict cats = true ->
  (forall c p, In c cats -> py_eq (cat_parent c) p = true ->
               rank (cat_id c) < rank p) ->
  exists out, forall limit, rank parent < limit ->
    tree_categories fmt limit cats parent prefix = Ret out.
Proof.
  intros Hd Hrank.
  destruct (tree_returns_below cats rank Hd Hrank (S (rank parent))
              parent prefix) as [out Hout]; [lia|].
  exists out. intros limit Hl. apply Hout. lia.
Qed.

Lemma tree_loop_extends recurse prefix : forall children tree out,
  tree_loop fmt recurse prefix children tree = Ret out ->
  exists r, out = (tree ++ r)%string.
Proof.
  induction children as [|cat rest IH]; intros tree out H.
  - injection H as <-. exists EmptyString. now rewrite append_nil_r.
  - cbn [tree_loop] in H.
    destruct (dict_get cat "name" (JStr "")) as [name|]; [|discriminate].
    destruct (dict_get cat "id" (JNum 0)) as [id|]; [|discriminate].
    destruct (recurse id) as [sub|]; [|discriminate].
    apply IH in H. destruct H as [r ->]. rewrite append_assoc. eauto.
Qed.


End Tree.

Lemma tree_of_self_parent_never_returns_witness :
  tree_categories Demo.str_of 1000 [JObj [("name", JStr "News")]] (JNum 0) ""
  = Raise "RecursionError".
Proof.
  apply (tree_of_self_parent_never_returns Demo.str_of
           [JObj [("name", JStr "News")]] (JObj [("name", JStr "News")])
           (JNum 0)); try reflexivity.
  now left.
Defined.

Lemma tree_of_ranked_categories_returns_witness :
  exists out, forall limit, 2 < limit ->
    tree_categories Demo.str_of limit ReportExamples.three_categories
      (JNum 0) "" = Ret out.
Proof.
  apply (tree_of_ranked_categories_returns Demo.str_of
           ReportExamples.three_categories ReportExamples.depth_of
           (JNum 0) ""); [reflexivity|].
  intros c p [<-|[<-|[<-|[]]]] Hp;
    (destruct p as [|b|z| | |]; try discriminate Hp;
     [ destruct b; try discriminate Hp; simpl; lia
     | destruct z as [|q|q]; try discriminate Hp;
       try (destruct q; try discriminate Hp); simpl; lia ]).
Defined.


(** ** Dict keys *)

Ltac key_cases :=
  repeat match goal with
         | H : Z.eqb _ _ = true |- _ => apply Z.eqb_eq in H
         | H : String.eqb _ _ = true |- _ => apply String.eqb_eq in H
         | H : Bool.eqb _ _ = true |- _ => apply Bool.eqb_prop in H
         | b : bool |- _ => destruct b
         end;
  subst; simpl in *;
  try discriminate; try lia;
  rewrite ?Z.eqb_refl, ?String.eqb_refl; try reflexivity; try congruence.

Lemma key_refl k : hashable k = true -> py_eq k k = true.
Proof. destruct k; simpl; intros H; try discriminate H; key_cases. Qed.

Lemma key_sym a b :
  hashable a = true -> hashable b = true ->
  py_eq a b = true -> py_eq b a = true.
Proof.
  destruct a, b; simpl; intros Ha Hb H;
    try discriminate Ha; try discriminate Hb; try discriminate H; key_cases.
Qed.

Lemma key_trans a b c :
  hashable a = true -> hashable b = true -> hashable c = true ->
  py_eq a b = true -> py_eq b c = true -> py_eq a c = true.
Proof.
  destruct a, b, c; simpl; intros Ha Hb Hc H1 H2;
    try discriminate Ha; try discriminate Hb; try discriminate Hc;
    try discriminate H1; try discriminate H2; key_cases.
Qed.

Lemma pd_set_keys_ok {V} k (v : V) d :
  hashable k = true -> keys_ok d -> keys_ok (pd_set k v d).
Proof.
  intros Hk Hd. induction Hd as [|[k' v'] d Hk' Hd IH]; simpl.
  - repeat constructor. exact Hk.
  - destruct (py_eq k' k); constructor; auto.
Qed.

Lemma pd_get_set {V} k k' (v : V) d :
  hashable k = true -> hashable k' = true -> keys_ok d ->
  pd_get k (pd_set k' v d) = if py_eq k' k then Some v else pd_get k d.
Proof.
  intros Hk Hk' Hd. induction Hd as [|[e ve] d He Hd IH]; simpl.
  - reflexivity.
  - simpl in He. destruct (py_eq e k') eqn:Hek'; simpl.
    + destruct (py_eq k' k) eqn:Hkk.
      * now rewrite (key_trans e k' k He Hk' Hk Hek' Hkk).
      * destruct (py_eq e k) eqn:Hek; [|reflexivity].
        rewrite (key_trans k' e k Hk' He Hk
                   (key_sym e k' He Hk' Hek') Hek) in Hkk. discriminate.
    + destruct (py_eq e k) eqn:Hek; [|exact IH].
      destruct (py_eq k' k) eqn:Hkk; [|reflexivity].
      rewrite (key_trans e k k' He Hk Hk' Hek
                 (key_sym k' k Hk' Hk Hkk)) in Hek'. discriminate.
Qed.

Lemma pd_get_equiv {V} a k (d : pydict V) :
  hashable a = true -> hashable k = true -> keys_ok d ->
  py_eq a k = true -> pd_get a d = pd_get k d.
Proof.
  intros Ha Hk Hd Hak. induction Hd as [|[e ve] d He Hd IH]; simpl.
  - reflexivity.
  - simpl in He. destruct (py_eq e a) eqn:Hea.
    + now rewrite (key_trans e a k He Ha Hk Hea Hak).
    + destruct (py_eq e k) eqn:Hek; [|exact IH].
      rewrite (key_trans e k a He Hk Ha Hek (key_sym a k Ha Hk Hak)) in Hea.
      discriminate.
Qed.

(** ** The users of the report *)

Lemma count_authors_get : forall posts m0 m,
  keys_ok m0 ->
  count_authors posts m0 = Ret m ->
  keys_ok m
  /\ forall k, hashable k = true ->
       count_of k m = count_of k m0 + posts_by k posts.
Proof.
  induction posts as [|post rest IH]; intros m0 m Hok H.
  - injection H as <-. split; [exact Hok|]. intros k _.
    unfold posts_by. simpl. lia.
  - cbn [count_authors] in H.
    destruct (dict_get post "author" JNull) as [a|e] eqn:Ha; [|discriminate].
    destruct (hashable a) eqn:Hha; [|discriminate].
    apply IH in H; [|now apply pd_set_keys_ok].
    destruct H as [Hm Hcount]. split; [exact Hm|].
    intros k Hk. rewrite (Hcount k Hk). unfold count_of.
    rewrite (pd_get_set k a _ m0 Hk Hha Hok).
    unfold posts_by. cbn [filter]. rewrite Ha.
    destruct (py_eq a k) eqn:Hak.
    + rewrite (pd_get_equiv a k m0 Hha Hk Hok Hak).
      cbn [List.length]. lia.
    + lia.
Qed.

(** The number shown beside a user in the report is the number of posts
    whose [author] equals the user's [id], [None] standing for a missing
    key on either side: a user without [id] is credited with the posts
    that have no [author]. *)
Theorem user_counts_are_posts_by_author posts users m l :
  count_authors posts [] = Ret m ->
  users_with_count m users = Ret l ->
  map snd l = map (fun user => posts_by (user_id user) posts) users.
Proof.
  intros Hm. destruct (count_authors_get posts [] m (Forall_nil _) Hm)
    as [_ Hcount].
  revert l. induction users as [|user rest IH]; intros l H.
  - now injection H as <-.
  - cbn [users_with_count] in H.
    destruct (dict_get user "id" JNull) as [uid|] eqn:Hid; [|discriminate].
    destruct (dict_get user "username" (JStr "Unknown")) as [un|];
      [|discriminate].
    destruct (dict_get user "name" un) as [name|]; [|discriminate].
    destruct (hashable uid) eqn:Hh; [|discriminate].
    destruct (users_with_count m rest) as [l'|]; [|discriminate].
    injection H as <-. cbn [map snd]. rewrite (IH l' eq_refl). f_equal.
    fold (count_of uid m). rewrite (Hcount uid Hh).
    unfold user_id. now rewrite Hid.
Qed.

Lemma user_counts_are_posts_by_author_witness :
  users_with_count [(JNum 7, 2); (JNum 8, 1)]
    [JObj [("id", JNum 7); ("name", JStr "ann")];
     JObj [("username", JStr "bob")]]
  = Ret [(JStr "ann", 2); (JStr "bob", 0)]
  /\ map snd [(JStr "ann", 2); (JStr "bob", 0)]
     = map (fun user => posts_by (user_id user) ReportExamples.three_posts)
         [JObj [("id", JNum 7); ("name", JStr "ann")];
          JObj [("username", JStr "bob")]].
Proof.
  split; [reflexivity|].
  apply (user_counts_are_posts_by_author ReportExamples.three_posts
           [JObj [("id", JNum 7); ("name", JStr "ann")];
            JObj [("username", JStr "bob")]]
           [(JNum 7, 2); (JNum 8, 1)]); reflexivity.
Defined.

(** ** [posts_per_category] *)

Section Grouping.

Variable fmt : json -> string.

Lemma cat_map_of_key_error : forall cats m,
  forallb well_keyed cats = true ->
  existsb lacks_key cats = true ->
  cat_map_of cats m = Raise "KeyError".
Proof.
  induction cats as [|cat rest IH]; intros m Hw Hl; [discriminate Hl|].
  simpl in Hw, Hl. apply andb_true_iff in Hw. destruct Hw as [Hc Hw].
  destruct cat as [| | | | |fields]; try discriminate Hc.
  cbn [cat_map_of py_index]. unfold well_keyed in Hc. unfold lacks_key in Hl.
  destruct (assoc "id" fields) as [id|]; [|reflexivity].
  destruct (assoc "name" fields) as [name|]; [|reflexivity].
  rewrite Hc. simpl in Hl. now apply IH.
Qed.

(** [posts_per_category] reads [cat['id']] and [cat['name']] without a
    default: when the categories are dicts with hashable ids and one of
    them lacks [id] or [name], the call raises [KeyError] whatever the
    posts are, even for no post at all. *)
Theorem posts_per_category_needs_id_and_name posts cats :
  forallb well_keyed cats = true ->
  existsb lacks_key cats = true ->
  posts_per_category fmt posts cats = Raise "KeyError".
Proof.
  intros Hw Hl. unfold posts_per_category.
  now rewrite (cat_map_of_key_error cats [] Hw Hl).
Qed.

Lemma titles_in_set k x : forall d : pydict (list json),
  titles_in (pd_set k (match pd_get k d with Some l => l | None => [] end
                       ++ [x]) d)
  = titles_in d + 1.
Proof.
  unfold titles_in. induction d as [|[e ve] d IH]; simpl.
  - reflexivity.
  - destruct (py_eq e k); simpl.
    + rewrite length_app. simpl. lia.
    + rewrite IH. lia.
Qed.

Lemma add_post_titles m post : forall ids result result',
  add_post fmt m post ids result = Ret result' ->
  titles_in result' = titles_in result + List.length ids.
Proof.
  induction ids as [|id rest IH]; intros result result' H.
  - injection H as <-. simpl. lia.
  - cbn [add_post] in H.
    destruct (negb (hashable id)); [discriminate|].
    destruct (negb (hashable (cat_name_of fmt m id))); [discriminate|].
    destruct (post_title post) as [title|]; [|discriminate].
    apply IH in H. rewrite H, titles_in_set. simpl. lia.
Qed.

Lemma group_posts_titles m : forall posts result result',
  group_posts fmt m posts result = Ret result' ->
  titles_in result' = titles_in result + category_refs posts.
Proof.
  unfold category_refs.
  induction posts as [|post rest IH]; intros result result' H.
  - injection H as <-. simpl. lia.
  - cbn [group_posts] in H. cbn [map list_sum fold_right].
    destruct (post_cat_ids post) as [ids|]; [|discriminate].
    destruct (add_post fmt m post ids result) as [r1|] eqn:H1; [|discriminate].
    apply IH in H. apply add_post_titles in H1.
    change (fold_right Init.Nat.add 0) with list_sum. lia.
Qed.

(** When [posts_per_category] returns, the titles it holds, all groups
    together, are as many as the category references of the posts: every
    item of every post's [categories] files the post's title once, and a
    post without categories is in no group. *)
Theorem posts_per_category_files_each_reference_once posts cats d :
  posts_per_category fmt posts cats = Ret d ->
  titles_in d = category_refs posts.
Proof.
  unfold posts_per_category.
  destruct (cat_map_of cats []) as [m|]; [|discriminate].
  intros H. apply group_posts_titles in H. exact H.
Qed.

Lemma filed_set_keeps k x n t : forall d : pydict (list json),
  filed d n t ->
  filed (pd_set k (match pd_get k d with Some l => l | None => [] end
                   ++ [x]) d) n t.
Proof.
  induction d as [|[e ve] d IH]; intros (k0 & ts & Hin & Hk & Ht).
  - destruct Hin.
  - simpl. destruct (py_eq e k) eqn:Hek.
    + destruct Hin as [Heq|Hin].
      * injection Heq as -> ->. exists k0, (ts ++ [x]).
        repeat split; [now left | exact Hk | apply in_or_app; now left].
      * exists k0, ts. repeat split; [now right | exact Hk | exact Ht].
    + destruct Hin as [Heq|Hin].
      * injection Heq as -> ->. exists k0, ts.
        repeat split; [now left | exact Hk | exact Ht].
      * destruct IH as (k1 & ts1 & Hin1 & Hk1 & Ht1).
        { now exists k0, ts. }
        exists k1, ts1. repeat split; [now right | exact Hk1 | exact Ht1].
Qed.

Lemma filed_set_new k x : forall d : pydict (list json),
  hashable k = true ->
  filed (pd_set k (match pd_get k d with Some l => l | None => [] end
                   ++ [x]) d) k x.
Proof.
  intros d Hk. induction d as [|[e ve] d IH]; simpl.
  - exists k, [x]. repeat split; [now left | now apply key_refl | now left].
  - destruct (py_eq e k) eqn:Hek.
    + exists e, (ve ++ [x]).
      repeat split; [now left | exact Hek | apply in_or_app; right; now left].
    + destruct IH as (k1 & ts1 & Hin1 & Hk1 & Ht1).
      exists k1, ts1. repeat split; [now right | exact Hk1 | exact Ht1].
Qed.

Lemma add_post_filed m post : forall ids result result',
  add_post fmt m post ids result = Ret result' ->
  (forall n t, filed result n t -> filed result' n t)
  /\ (forall cid, In cid ids ->
        exists title, post_title post = Ret title
                      /\ filed result' (cat_name_of fmt m cid) title).
Proof.
  induction ids as [|id rest IH]; intros result result' H.
  - injection H as <-. split; [auto | intros cid []].
  - cbn [add_post] in H.
    destruct (hashable id) eqn:Hid; [|discriminate]. cbn [negb] in H.
    destruct (hashable (cat_name_of fmt m id)) eqn:Hn; [|discriminate].
    cbn [negb] in H.
    destruct (post_title post) as [title|] eqn:Ht; [|discriminate].
    apply IH in H. destruct H as [Hmono Hnew]. split.
    + intros n t Hf. apply Hmono. now apply filed_set_keeps.
    + intros cid [<-|Hin]; [|now apply Hnew].
      exists title. split; [reflexivity|]. apply Hmono.
      now apply filed_set_new.
Qed.

Lemma group_posts_filed m : forall posts result result',
  group_posts fmt m posts result = Ret result' ->
  (forall n t, filed result n t -> filed result' n t)
  /\ (forall post ids cid,
        In post posts -> post_cat_ids post = Ret ids -> In cid ids ->
        exists title, post_title post = Ret title
                      /\ filed result' (cat_name_of fmt m cid) title).
Proof.
  induction posts as [|p rest IH]; intros result result' H.
  - injection H as <-. split; [auto | intros post ids cid []].
  - cbn [group_posts] in H.
    destruct (post_cat_ids p) as [pids|] eqn:Hp; [|discriminate].
    destruct (add_post fmt m p pids result) as [r1|] eqn:H1; [|discriminate].
    apply IH in H. destruct H as [Hmono Hnew].
    apply add_post_filed in H1. destruct H1 as [Hmono1 Hnew1]. split.
    + auto.
    + intros post ids cid [<-|Hin] Hids Hcid.
      * rewrite Hp in Hids. injection Hids as <-.
        destruct (Hnew1 cid Hcid) as (title & Ht & Hf). eauto.
      * eapply Hnew; eassumption.
Qed.

(** When [posts_per_category] returns, every post is found, by its title,
    in the group of each item of its [categories]: the group whose key
    equals the name that [cat_map] gives for the item, or ["ID:<item>"]
    when [cat_map] has none. *)
Theorem posts_per_category_files_under_the_name posts cats d :
  posts_per_category fmt posts cats = Ret d ->
  exists cat_map,
    cat_map_of cats [] = Ret cat_map
    /\ forall post ids cid,
         In post posts -> post_cat_ids post = Ret ids -> In cid ids ->
         exists title,
           post_title post = Ret title
           /\ filed d (cat_name_of fmt cat_map cid) title.
Proof.
  unfold posts_per_category.
  destruct (cat_map_of cats []) as [m|]; [|discriminate].
  intros H. exists m. split; [reflexivity|].
  now apply (group_posts_filed m posts [] d).
Qed.

Lemma cat_map_of_app : forall a b m0,
  cat_map_of (a ++ b) m0
  = match cat_map_of a m0 with
    | Ret m1 => cat_map_of b m1
    | Raise e => Raise e
    end.
Proof.
  induction a as [|cat a IH]; intros b m0; [reflexivity|].
  cbn [app cat_map_of].
  destruct (py_index cat "id") as [id|]; [|reflexivity].
  destruct (py_index cat "name") as [name|]; [|reflexivity].
  destruct (hashable id); [apply IH | reflexivity].
Qed.

Lemma cat_map_of_keys_ok : forall cats m0 m,
  keys_ok m0 -> cat_map_of cats m0 = Ret m -> keys_ok m.
Proof.
  induction cats as [|cat cats IH]; intros m0 m Hok H.
  - now injection H as <-.
  - cbn [cat_map_of] in H.
    destruct (py_index cat "id") as [id|]; [|discriminate].
    destruct (py_index cat "name") as [name|]; [|discriminate].
    destruct (hashable id) eqn:Hid; [|discriminate].
    eapply IH; [|exact H]. now apply pd_set_keys_ok.
Qed.

Lemma cat_map_of_keeps k : forall cats m0 m,
  hashable k = true -> keys_ok m0 ->
  (forall c i, In c cats -> py_index c "id" = Ret i -> py_eq i k = false) ->
  cat_map_of cats m0 = Ret m ->
  pd_get k m = pd_get k m0.
Proof.
  induction cats as [|cat cats IH]; intros m0 m Hk Hok Hno H.
  - now injection H as <-.
  - cbn [cat_map_of] in H.
    destruct (py_index cat "id") as [id|] eqn:Hi; [|discriminate].
    destruct (py_index cat "name") as [name|]; [|discriminate].
    destruct (hashable id) eqn:Hid; [|discriminate].
    rewrite (IH _ _ Hk (pd_set_keys_ok id name m0 Hid Hok)
               (fun c i Hc => Hno c i (or_intror Hc)) H).
    rewrite (pd_get_set k id name m0 Hk Hid Hok).
    now rewrite (Hno cat id (or_introl eq_refl) Hi).
Qed.

(** What [cat_map] answers.  An id that equals the [id] of a category,
    and of no category after it in the list, is given that category's
    name; an id that equals the [id] of no category is given
    ["ID:<id>"]. *)
Theorem category_ids_resolve_to_names cats m cid :
  cat_map_of cats [] = Ret m ->
  hashable cid = true ->
  (forall before fields after i n,
     cats = before ++ JObj fields :: after ->
     assoc "id" fields = Some i ->
     assoc "name" fields = Some n ->
     py_eq i cid = true ->
     (forall c j, In c after -> py_index c "id" = Ret j ->
                  py_eq j cid = false) ->
     cat_name_of fmt m cid = n)
  /\ ((forall c j, In c cats -> py_index c "id" = Ret j ->
                   py_eq j cid = false) ->
      cat_name_of fmt m cid = JStr ("ID:" ++ fmt cid)).
Proof.
  intros Hm Hc. split.
  - intros before fields after i n -> Hi Hn Heq Hafter.
    rewrite cat_map_of_app in Hm.
    destruct (cat_map_of before []) as [m1|] eqn:H1; [|discriminate].
    assert (Hok1 : keys_ok m1).
    { eapply cat_map_of_keys_ok; [|exact H1]. constructor. }
    cbn [cat_map_of py_index] in Hm. rewrite Hi, Hn in Hm.
    destruct (hashable i) eqn:Hhi; [|discriminate].
    unfold cat_name_of.
    rewrite (cat_map_of_keeps cid after _ m Hc
               (pd_set_keys_ok i n m1 Hhi Hok1) Hafter Hm).
    now rewrite (pd_get_set cid i n m1 Hc Hhi Hok1), Heq.
  - intros Hno. unfold cat_name_of.
    now rewrite (cat_map_of_keeps cid cats [] m Hc (Forall_nil _) Hno Hm).
Qed.

End Grouping.

Lemma posts_per_category_needs_id_and_name_witness :
  posts_per_category Demo.str_of [] [JObj [("id", JNum 1)]]
  = Raise "KeyError".
Proof.
  apply (posts_per_category_needs_id_and_name Demo.str_of []
           [JObj [("id", JNum 1)]]); reflexivity.
Defined.

Lemma posts_per_category_files_each_reference_once_witness :
  category_refs ReportExamples.three_posts = 3
  /\ titles_in [(JStr "News", [JStr "A"]); (JStr "Sport", [JStr "A"]);
                (JStr "ID:9", [JStr "B"])]
     = category_refs ReportExamples.three_posts.
Proof.
  split; [reflexivity|].
  apply (posts_per_category_files_each_reference_once Demo.str_of
           ReportExamples.three_posts ReportExamples.three_categories).
  reflexivity.
Defined.

Lemma posts_per_category_files_under_the_name_witness :
  filed [(JStr "News", [JStr "A"]); (JStr "Sport", [JStr "A"]);
         (JStr "ID:9", [JStr "B"])]
        (JStr "ID:9") (JStr "B").
Proof.
  destruct (posts_per_category_files_under_the_name Demo.str_of
              ReportExamples.three_posts ReportExamples.three_categories
              _ eq_refl) as (m & Hm & H).
  injection Hm as <-.
  destruct (H (ReportExamples.blog_post "B" 7 [9%Z]) [JNum 9] (JNum 9))
    as (title & Ht & Hf);
    [simpl; tauto | reflexivity | now left |].
  injection Ht as <-. exact Hf.
Defined.

Lemma category_ids_resolve_to_names_witness :
  cat_name_of Demo.str_of
    [(JNum 1, JStr "News"); (JNum 3, JStr "Sport"); (JNum 2, JStr "Misc")]
    (JNum 3) = JStr "Sport"
  /\ cat_name_of Demo.str_of
       [(JNum 1, JStr "News"); (JNum 3, JStr "Sport"); (JNum 2, JStr "Misc")]
       (JNum 9) = JStr "ID:9".
Proof.
  destruct (category_ids_resolve_to_names Demo.str_of
              ReportExamples.three_categories
              [(JNum 1, JStr "News"); (JNum 3, JStr "Sport");
               (JNum 2, JStr "Misc")] (JNum 3) eq_refl eq_refl) as [H1 _].
  destruct (category_ids_resolve_to_names Demo.str_of
              ReportExamples.three_categories
              [(JNum 1, JStr "News"); (JNum 3, JStr "Sport");
               (JNum 2, JStr "Misc")] (JNum 9) eq_refl eq_refl) as [_ H2].
  split.
  - apply (H1 [ReportExamples.cat 1 0 "News"]
              [("id", JNum 3); ("parent", JNum 1); ("name", JStr "Sport")]
              [ReportExamples.cat 2 0 "Misc"] (JNum 3) (JStr "Sport"));
      try reflexivity.
    intros c j [<-|[]] Hj. injection Hj as <-. reflexivity.
  - apply H2. intros c j [<-|[<-|[<-|[]]]] Hj; injection Hj as <-; reflexivity.
Defined.

(** * Properties of the display functions *)

Lemma and_then_ext {A B} (x x' : exc A) (k k' : A -> exc B) :
  x = x' -> (forall a, k a = k' a) -> and_then x k = and_then x' k'.
Proof. intros <- H. destruct x; simpl; [apply H | reflexivity]. Qed.

Lemma assoc_with_taxonomy_other t k : forall fields,
  k <> "taxonomy" -> assoc k (with_taxonomy t fields) = assoc k fields.
Proof.
  intros fields Hk. induction fields as [|[k' v] fields IH]; [reflexivity|].
  cbn [with_taxonomy map fst]. fold (with_taxonomy t fields).
  destruct (k' =? "taxonomy") eqn:Hk'; cbn [assoc]; [|now rewrite IH].
  apply String.eqb_eq in Hk'. subst k'.
  destruct ("taxonomy" =? k) eqn:Hkk; [|exact IH].
  apply String.eqb_eq in Hkk. congruence.
Qed.

Lemma has_key_with_taxonomy t k : forall fields,
  has_key k (with_taxonomy t fields) = has_key k fields.
Proof.
  intros fields. unfold has_key.
  induction fields as [|[k' v] fields IH]; [reflexivity|].
  cbn [with_taxonomy map fst]. fold (with_taxonomy t fields).
  destruct (k' =? "taxonomy"); cbn [assoc]; destruct (k' =? k);
    solve [reflexivity | exact IH].
Qed.

Section DisplayFacts.

Variable fmt : json -> string.

Lemma add_field_with_taxonomy t t' fields key field label line :
  field <> "taxonomy" ->
  add_field fmt (JObj (with_taxonomy t fields)) key field label line
  = add_field fmt (JObj (with_taxonomy t' fields)) key field label line.
Proof.
  intros Hf. unfold add_field. cbn [py_contains py_index and_then].
  fold (has_key key (with_taxonomy t fields)).
  fold (has_key key (with_taxonomy t' fields)).
  now rewrite !has_key_with_taxonomy, !assoc_with_taxonomy_other.
Qed.

Lemma parent_field_with_taxonomy t t' fields line :
  parent_field fmt (JObj (with_taxonomy t fields)) line
  = parent_field fmt (JObj (with_taxonomy t' fields)) line.
Proof.
  unfold parent_field. cbn [py_contains py_index and_then].
  fold (has_key "parent" (with_taxonomy t fields)).
  fold (has_key "parent" (with_taxonomy t' fields)).
  rewrite !has_key_with_taxonomy, !assoc_with_taxonomy_other;
    [reflexivity | discriminate | discriminate].
Qed.

(** The value of ["taxonomy"] has no part in what is displayed for a
    category or a tag: two dicts that differ in that value only give the
    same text, or the same exception. *)
Theorem taxonomy_value_is_never_shown t t' fields details :
  category_line fmt (JObj (with_taxonomy t fields)) details
  = category_line fmt (JObj (with_taxonomy t' fields)) details
  /\ tag_line fmt (JObj (with_taxonomy t fields)) details
     = tag_line fmt (JObj (with_taxonomy t' fields)) details.
Proof.
  split.
  - unfold category_line.
    repeat (apply and_then_ext;
            [apply add_field_with_taxonomy; discriminate | intros ?]).
    destruct details; [|reflexivity].
    repeat (apply and_then_ext;
            [apply add_field_with_taxonomy; discriminate | intros ?]).
    apply parent_field_with_taxonomy.
  - unfold tag_line.
    repeat (apply and_then_ext;
            [apply add_field_with_taxonomy; discriminate | intros ?]).
    destruct details; [|reflexivity].
    apply and_then_ext;
      [apply add_field_with_taxonomy; discriminate | intros ?].
    apply add_field_with_taxonomy; discriminate.
Qed.

Lemma add_field_own fields key label line :
  add_field fmt (JObj fields) key key label line
  = Ret (match assoc key fields with
         | Some v => (line ++ label ++ fmt v ++ newline)%string
         | None => line
         end).
Proof.
  unfold add_field. cbn [py_contains py_index and_then].
  now destruct (assoc key fields).
Qed.

Lemma add_taxonomy fields line :
  add_field fmt (JObj fields) "taxonomy" "slug" "    Taxonomy: " line
  = if has_key "taxonomy" fields
    then match assoc "slug" fields with
         | Some v =>
             Ret (line ++ "    Taxonomy: " ++ fmt v ++ newline)%string
         | None => Raise "KeyError"
         end
    else Ret line.
Proof.
  unfold add_field, has_key. cbn [py_contains py_index and_then].
  destruct (assoc "taxonomy" fields); [|reflexivity].
  now destruct (assoc "slug" fields).
Qed.

Lemma parent_field_dict fields line :
  exists line', parent_field fmt (JObj fields) line = Ret line'.
Proof.
  unfold parent_field. cbn [py_contains py_index and_then].
  destruct (assoc "parent" fields); cbn [and_then]; eauto.
Qed.

Lemma category_line_key_error fields :
  has_key "taxonomy" fields = true -> has_key "slug" fields = false ->
  category_line fmt (JObj fields) true = Raise "KeyError"
  /\ tag_line fmt (JObj fields) true = Raise "KeyError".
Proof.
  intros Ht Hs. unfold category_line, tag_line.
  repeat (rewrite add_field_own; cbn [and_then]).
  rewrite !add_taxonomy, Ht.
  unfold has_key in Hs.
  destruct (assoc "slug" fields); [discriminate | now split].
Qed.

Lemma category_line_returns fields details :
  displayable details (JObj fields) = true ->
  (exists line, category_line fmt (JObj fields) details = Ret line)
  /\ (exists line, tag_line fmt (JObj fields) details = Ret line).
Proof.
  intros H. unfold category_line, tag_line.
  repeat (rewrite add_field_own; cbn [and_then]).
  destruct details; [|split; eauto].
  rewrite !add_taxonomy.
  cbn [displayable negb orb] in H.
  destruct (has_key "taxonomy" fields); cbn [and_then].
  - cbn [negb orb] in H. unfold has_key in H.
    destruct (assoc "slug" fields); [|discriminate]. cbn [and_then].
    split; [apply parent_field_dict | eauto].
  - split; [apply parent_field_dict | eauto].
Qed.

Section Loop.

Variable rejected : string -> option string.
Variable text : json -> bool -> exc string.

Lemma display_loop_app details : forall a b printed,
  display_loop rejected text (a ++ b) details printed
  = match display_loop rejected text a details printed with
    | (printed', None) => display_loop rejected text b details printed'
    | stopped => stopped
    end.
Proof.
  induction a as [|c a IH]; intros b printed; [reflexivity|].
  cbn [app display_loop].
  destruct c; try apply IH;
    match goal with
    | |- context [text ?c details] =>
        destruct (text c details) as [line|e]; [|reflexivity];
        destruct (rejected line); [reflexivity | apply IH]
    end.
Qed.

Lemma display_stops fields details before :
  text (JObj fields) details = Raise "KeyError" ->
  exists printed e,
    (forall after,
       display rejected text (JArr (before ++ JObj fields :: after)) details
       = (printed, Some e))
    /\ (forall out,
          display rejected text (JArr before) details = (out, None) ->
          e = "KeyError" /\ out = printed ++ [""]).
Proof.
  intros Hraise. unfold display. cbn [py_iter].
  destruct (rejected "") as [e0|].
  { exists [], e0. split; [reflexivity | discriminate]. }
  destruct (display_loop rejected text before details [""]) as [p [e|]] eqn:Hb.
  - exists p, e. split.
    + intros after. now rewrite display_loop_app, Hb.
    + intros out H. discriminate H.
  - exists p, "KeyError". split.
    + intros after. rewrite display_loop_app, Hb.
      cbn [display_loop]. now rewrite Hraise.
    + intros out H. injection H as <-. now split.
Qed.

Lemma display_loop_completes details :
  (forall line, rejected line = None) ->
  (forall fields, displayable details (JObj fields) = true ->
                  exists line, text (JObj fields) details = Ret line) ->
  forall items printed,
  forallb (displayable details) items = true ->
  exists lines,
    display_loop rejected text items details printed
    = (printed ++ lines, None)
    /\ Forall2 (fun c line => text c details = Ret line)
               (filter shown items) lines.
Proof.
  intros Hout Htext. induction items as [|c items IH]; intros printed H.
  - exists []. split; [now rewrite app_nil_r | constructor].
  - cbn [forallb] in H. apply andb_true_iff in H. destruct H as [Hc H].
    destruct c; try discriminate Hc.
    + destruct (IH printed H) as (lines & Hp & Hall).
      exists lines. split; [exact Hp | exact Hall].
    + destruct (Htext fields Hc) as (line & Hline).
      destruct (IH (printed ++ [line]) H) as (lines & Hp & Hall).
      exists (line :: lines). split.
      * cbn [display_loop]. rewrite Hline, (Hout line), Hp.
        now rewrite <- app_assoc.
      * cbn [filter shown]. now constructor.
Qed.

Lemma display_completes details items :
  (forall line, rejected line = None) ->
  (forall fields, displayable details (JObj fields) = true ->
                  exists line, text (JObj fields) details = Ret line) ->
  forallb (displayable details) items = true ->
  exists lines,
    display rejected text (JArr items) details = ("" :: lines ++ [""], None)
    /\ Forall2 (fun c line => text c details = Ret line)
               (filter shown items) lines.
Proof.
  intros Hout Htext H.
  destruct (display_loop_completes details Hout Htext items [""] H)
    as (lines & Hp & Hall).
  exists lines. split; [|exact Hall].
  unfold display. cbn [py_iter]. now rewrite (Hout ""), Hp.
Qed.

End Loop.

(** With details asked for, a category or tag that has a ["taxonomy"] and
    no ["slug"] ends the display with an exception: nothing that follows
    it in the list is displayed, and neither is the closing empty line.
    When what comes before it displays without exception, the exception
    is a [KeyError] and all of that has been printed. *)
Theorem taxonomy_without_slug_stops_the_display rejected fields before :
  has_key "taxonomy" fields = true ->
  has_key "slug" fields = false ->
  (exists printed e,
     (forall after,
        display_categories fmt rejected
          (JArr (before ++ JObj fields :: after)) true
        = (printed, Some e))
     /\ (forall out,
           display_categories fmt rejected (JArr before) true = (out, None) ->
           e = "KeyError" /\ out = printed ++ [""]))
  /\ (exists printed e,
        (forall after,
           display_tags fmt rejected
             (JArr (before ++ JObj fields :: after)) true
           = (printed, Some e))
        /\ (forall out,
              display_tags fmt rejected (JArr before) true = (out, None) ->
              e = "KeyError" /\ out = printed ++ [""])).
Proof.
  intros Ht Hs. destruct (category_line_key_error fields Ht Hs) as [Hc Hg].
  split; apply display_stops; assumption.
Qed.

(** When the standard output takes every text, a list of dicts and
    [None]s, in which a dict with a ["taxonomy"] has a ["slug"] when
    details are asked for, is displayed to the end: what is printed is an
    empty line, then the text of each dict of the list, in order, then an
    empty line, and no exception is raised. *)
Theorem dicts_are_displayed_to_the_end rejected items details :
  (forall line, rejected line = None) ->
  forallb (displayable details) items = true ->
  (exists lines,
     display_categories fmt rejected (JArr items) details
     = ("" :: lines ++ [""], None)
     /\ Forall2 (fun c line => category_line fmt c details = Ret line)
                (filter shown items) lines)
  /\ (exists lines,
        display_tags fmt rejected (JArr items) details
        = ("" :: lines ++ [""], None)
        /\ Forall2 (fun c line => tag_line fmt c details = Ret line)
                   (filter shown items) lines).
Proof.
  intros Hout H. split.
  - apply (display_completes rejected (category_line fmt) details items Hout);
      [|exact H].
    intros f Hf. exact (proj1 (category_line_returns f details Hf)).
  - apply (display_completes rejected (tag_line fmt) details items Hout);
      [|exact H].
    intros f Hf. exact (proj2 (category_line_returns f details Hf)).
Qed.

End DisplayFacts.

Lemma key_at_container v n k : key_at v n k -> is_container v = true.
Proof. now destruct 1. Qed.

Section RecurseFacts.

Variable fmt : json -> string.

Local Open Scope string_scope.

Section LoopFacts.

Variable rec : json -> string -> string.
Variable tab : string.

Lemma list_loop_cons v rest :
  exists X,
    (forall line,
       list_loop fmt rec tab (v :: rest) line
       = list_loop fmt rec tab rest (line ++ X))
    /\ (is_container v = true ->
        exists Y, X = rec v (tab ++ tab_char) ++ Y).
Proof.
  pose (jmp := if match rest with [] => false | _ => true end
               then newline else "").
  assert (Hjmp : forall line,
            (if match rest with [] => false | _ => true end && true
             then line ++ newline else line) = line ++ jmp).
  { intros line. unfold jmp. destruct rest; cbn [andb];
      [now rewrite append_nil_r | reflexivity]. }
  destruct v; cbn [list_loop]; rewrite ?andb_false_r.
  - exists (" " ++ fmt JNull ++ jmp). split; [|discriminate].
    intros line. now rewrite Hjmp, !append_assoc.
  - exists (" " ++ fmt (JBool b) ++ jmp). split; [|discriminate].
    intros line. now rewrite Hjmp, !append_assoc.
  - exists (" " ++ fmt (JNum z) ++ jmp). split; [|discriminate].
    intros line. now rewrite Hjmp, !append_assoc.
  - destruct (contains newline s); rewrite ?andb_false_r.
    + exists (newline ++ tab ++ tab_char
              ++ replace newline (newline ++ tab ++ tab_char) s ++ jmp).
      split; [|discriminate].
      intros line. now rewrite Hjmp, !append_assoc.
    + exists (" " ++ replace newline (newline ++ tab) s).
      split; [|discriminate].
      intros line. now rewrite !append_assoc.
  - exists (rec (JArr items) (tab ++ tab_char) ++ jmp). split.
    + intros line. now rewrite Hjmp, !append_assoc.
    + intros _. now exists jmp.
  - exists (rec (JObj fields) (tab ++ tab_char) ++ jmp). split.
    + intros line. now rewrite Hjmp, !append_assoc.
    + intros _. now exists jmp.
Qed.

Lemma list_loop_acc : forall items line,
  list_loop fmt rec tab items line
  = line ++ list_loop fmt rec tab items "".
Proof.
  induction items as [|v rest IH]; intros line.
  - cbn [list_loop]. now rewrite append_nil_r.
  - destruct (list_loop_cons v rest) as (X & HX & _).
    rewrite (HX line), (HX ""), IH.
    rewrite (IH ("" ++ X)). cbn [append]. now rewrite append_assoc.
Qed.

Lemma list_loop_shows v : forall items,
  In v items -> is_container v = true ->
  exists pre post,
    list_loop fmt rec tab items ""
    = pre ++ rec v (tab ++ tab_char) ++ post.
Proof.
  induction items as [|c rest IH]; intros Hin Hv; [destruct Hin|].
  destruct (list_loop_cons c rest) as (X & HX & HY).
  rewrite (HX ""), list_loop_acc. cbn [append].
  destruct Hin as [->|Hin].
  - destruct (HY Hv) as (Y & ->).
    exists "", (Y ++ list_loop fmt rec tab rest "").
    cbn [append]. now rewrite append_assoc.
  - destruct (IH Hin Hv) as (pre & post & ->).
    exists (X ++ pre), post. now rewrite append_assoc.
Qed.

Lemma dict_loop_cons k v rest :
  exists X,
    (forall line,
       dict_loop fmt rec tab ((k, v) :: rest) line
       = dict_loop fmt rec tab rest (line ++ newline ++ tab ++ k ++ X))
    /\ (is_container v = true -> X = rec v (tab ++ tab_char)).
Proof.
  destruct v; cbn [dict_loop].
  - exists (" " ++ fmt JNull). split; [|discriminate].
    intros line. now rewrite !append_assoc.
  - exists (" " ++ fmt (JBool b)). split; [|discriminate].
    intros line. now rewrite !append_assoc.
  - exists (" " ++ fmt (JNum z)). split; [|discriminate].
    intros line. now rewrite !append_assoc.
  - destruct (contains newline s).
    + exists (newline ++ tab ++ tab_char
              ++ replace newline (newline ++ tab ++ tab_char) s).
      split; [|discriminate].
      intros line. now rewrite !append_assoc.
    + exists (" " ++ replace newline (newline ++ tab) s).
      split; [|discriminate].
      intros line. now rewrite !append_assoc.
  - exists (rec (JArr items) (tab ++ tab_char)). split; [|reflexivity].
    intros line. now rewrite !append_assoc.
  - exists (rec (JObj fields) (tab ++ tab_char)). split; [|reflexivity].
    intros line. now rewrite !append_assoc.
Qed.

Lemma dict_loop_acc : forall fields line,
  dict_loop fmt rec tab fields line
  = line ++ dict_loop fmt rec tab fields "".
Proof.
  induction fields as [|[k v] rest IH]; intros line.
  - cbn [dict_loop]. now rewrite append_nil_r.
  - destruct (dict_loop_cons k v rest) as (X & HX & _).
    rewrite (HX line), (HX ""), IH.
    rewrite (IH ("" ++ _)). cbn [append]. now rewrite append_assoc.
Qed.

Lemma dict_loop_key k v : forall fields,
  In (k, v) fields ->
  exists pre post,
    dict_loop fmt rec tab fields "" = pre ++ newline ++ tab ++ k ++ post.
Proof.
  induction fields as [|[k' v'] rest IH]; intros Hin; [destruct Hin|].
  destruct (dict_loop_cons k' v' rest) as (X & HX & _).
  rewrite (HX ""), dict_loop_acc. cbn [append].
  destruct Hin as [Heq|Hin].
  - injection Heq as -> ->.
    exists "", (X ++ dict_loop fmt rec tab rest "").
    cbn [append]. now rewrite !append_assoc.
  - destruct (IH Hin) as (pre & post & ->).
    exists ((newline ++ tab ++ k' ++ X) ++ pre), post.
    now rewrite !append_assoc.
Qed.

Lemma dict_loop_shows k v : forall fields,
  In (k, v) fields -> is_container v = true ->
  exists pre post,
    dict_loop fmt rec tab fields ""
    = pre ++ rec v (tab ++ tab_char) ++ post.
Proof.
  induction fields as [|[k' v'] rest IH]; intros Hin Hv; [destruct Hin|].
  destruct (dict_loop_cons k' v' rest) as (X & HX & HY).
  rewrite (HX ""), dict_loop_acc. cbn [append].
  destruct Hin as [Heq|Hin].
  - injection Heq as -> ->. rewrite (HY Hv).
    exists (newline ++ tab ++ k), (dict_loop fmt rec tab rest "").
    now rewrite !append_assoc.
  - destruct (IH Hin Hv) as (pre & post & ->).
    exists ((newline ++ tab ++ k' ++ X) ++ pre), post.
    now rewrite !append_assoc.
Qed.

Lemma list_loop_plain : forall ss line,
  forallb (fun s => negb (contains newline s)) ss = true ->
  list_loop fmt rec tab (map JStr ss) line = line ++ spaced ss.
Proof.
  induction ss as [|s ss IH]; intros line H.
  - cbn [map list_loop spaced]. now rewrite append_nil_r.
  - cbn [forallb] in H. apply andb_true_iff in H. destruct H as [Hs H].
    apply negb_true_iff in Hs.
    cbn [map list_loop]. rewrite Hs, andb_false_r.
    rewrite (replace_absent _ _ _ Hs), (IH _ H).
    cbn [spaced]. now rewrite !append_assoc.
Qed.

End LoopFacts.

(** Every key of every dict inside the data is displayed at the start of
    a line of its own, behind the tabulation handed in and one more tab
    for each list or dict that encloses its dict. *)
Theorem every_key_is_shown_at_its_depth data n k :
  key_at data n k ->
  forall tab,
  exists pre post,
    recurse_list_or_dict fmt data tab
    = pre ++ newline ++ tab ++ tabs n ++ k ++ post.
Proof.
  induction 1 as [fields k v Hin | fields k' v n k Hin Hk IH
                 | items v n k Hin Hk IH]; intros tab.
  - cbn [recurse_list_or_dict tabs append].
    exact (dict_loop_key _ tab k v fields Hin).
  - cbn [recurse_list_or_dict].
    destruct (dict_loop_shows (recurse_list_or_dict fmt) tab k' v fields Hin
                (key_at_container v n k Hk)) as (pre & post & ->).
    destruct (IH (tab ++ tab_char)) as (pre1 & post1 & ->).
    exists (pre ++ pre1), (post1 ++ post).
    cbn [tabs]. now rewrite !append_assoc.
  - cbn [recurse_list_or_dict].
    destruct (list_loop_shows (recurse_list_or_dict fmt) tab v items Hin
                (key_at_container v n k Hk)) as (pre & post & ->).
    destruct (IH (tab ++ tab_char)) as (pre1 & post1 & ->).
    exists (pre ++ pre1), (post1 ++ post).
    cbn [tabs]. now rewrite !append_assoc.
Qed.

(** A list of strings that hold no line break is displayed on one line,
    each string behind a space: the tabulation is not used. *)
Theorem list_of_plain_strings_is_one_line ss tab :
  forallb (fun s => negb (contains newline s)) ss = true ->
  recurse_list_or_dict fmt (JArr (map JStr ss)) tab = spaced ss.
Proof.
  intros H. cbn [recurse_list_or_dict].
  now rewrite (list_loop_plain (recurse_list_or_dict fmt) tab ss "" H).
Qed.

End RecurseFacts.

Lemma taxonomy_without_slug_stops_the_display_witness :
  exists printed e,
    forall after,
      display_categories Demo.str_of (fun _ => None)
        (JArr ([JObj [("id", JNum 1)]]
               ++ JObj DisplayExamples.bare_taxonomy :: after)) true
      = (printed, Some e).
Proof.
  destruct (taxonomy_without_slug_stops_the_display Demo.str_of
              (fun _ => None)
              DisplayExamples.bare_taxonomy [JObj [("id", JNum 1)]]
              eq_refl eq_refl) as [(printed & e & H & _) _].
  exists printed, e. exact H.
Defined.

Lemma dicts_are_displayed_to_the_end_witness :
  exists lines,
    display_tags Demo.str_of (fun _ => None)
      (JArr [JObj DisplayExamples.bare_taxonomy; JNull;
             JObj [("id", JNum 1)]]) false
    = ("" :: lines ++ [""], None)
    /\ Forall2 (fun c line => tag_line Demo.str_of c false = Ret line)
               [JObj DisplayExamples.bare_taxonomy; JObj [("id", JNum 1)]]
               lines.
Proof.
  exact (proj2 (dicts_are_displayed_to_the_end Demo.str_of (fun _ => None)
                  [JObj DisplayExamples.bare_taxonomy; JNull;
                   JObj [("id", JNum 1)]] false (fun _ => eq_refl) eq_refl)).
Defined.

Lemma every_key_is_shown_at_its_depth_witness :
  exists pre post,
    recurse_list_or_dict Demo.str_of DisplayExamples.routes tab_char
    = (pre ++ newline ++ tab_char ++ tabs 2 ++ "args" ++ post)%string.
Proof.
  apply (every_key_is_shown_at_its_depth Demo.str_of
           DisplayExamples.routes 2 "args").
  apply key_in_field
    with (k' := "endpoints")
         (v := JArr [JObj [("args", JObj [("page", JNum 1)])]]);
    [simpl; tauto|].
  apply key_in_item with (v := JObj [("args", JObj [("page", JNum 1)])]);
    [now left|].
  apply key_here with (v := JObj [("page", JNum 1)]). now left.
Defined.

Lemma list_of_plain_strings_is_one_line_witness :
  recurse_list_or_dict Demo.str_of (JArr (map JStr ["GET"; "POST"])) tab_char
  = " GET POST".
Proof.
  exact (list_of_plain_strings_is_one_line Demo.str_of ["GET"; "POST"]
           tab_char eq_refl).
Defined.
